(** * Verification of the notebooks of [artificial_neural_networks]

    A shallow embedding of the Python code of three notebooks:

    - [notebooks/conv_net.ipynb]: the [Flatten] module, the configurable
      [ConvNet] builder with its [forward] pass, and [evaluate];
    - the notebook "Sequence Tensor Batching with PyTorch": sorting,
      padding, gathering and packing a batch of sequences;
    - the notebook "Batched Hidden State Correspondence": a recurrent
      network run on a packed batch, on each sequence alone, and on the
      padded tensor.

    The notebooks are scripts over PyTorch.  What the scripts call in the
    framework (tensors, [view], [gather], [sort], [pad_sequence],
    [pack_padded_sequence], the recurrence of [nn.RNN]) is modelled here
    from the framework's documented behaviour, on exact data; every such
    definition says so, and the outputs recorded in the notebooks are
    replayed as examples against the model. *)

From Stdlib Require Import ZArith QArith Lia Ascii String.
From stdpp Require Import base list sorting strings.

Local Open Scope string_scope.
Local Open Scope list_scope.

(** ** Strings

    A Python [str] is the sequence of its code points. *)

Definition str : Type := list N.

(** The [str] of a literal of ASCII characters. *)
Definition lit (s : string) : str := N_of_ascii <$> list_ascii_of_string s.

(** ** Exceptions and results

    Python raises; the embedding returns.  An exception keeps its class
    and what its message is made of. *)

Inductive exn_class : Type :=
  | ValueError
  | TypeError
  | RuntimeError
  | IndexError
  | ZeroDivisionError.

Inductive exn : Type :=
  | UnsupportedLayerType (layer_type : str)
      (* raise ValueError(f"Unsupported layer type: {layer_type}") *)
  | UnpackLength (expected got : nat)
      (* ValueError: not enough / too many values to unpack *)
  | UnpackNone
      (* TypeError: cannot unpack non-iterable NoneType object *)
  | ConstructorError (c : exn_class)
      (* an exception of class c raised inside a constructor of the framework *)
  | IndexErr
      (* IndexError: index out of range *)
  | ShapeError
      (* RuntimeError raised by a tensor operation on an unfit shape *)
  | IndexOutOfRange
      (* RuntimeError raised by gather on an index outside the dimension *)
  | LengthsNotSorted
      (* RuntimeError of pack_padded_sequence: lengths not decreasing *)
  | LengthNotPositive
      (* RuntimeError of pack_padded_sequence: a length below one *)
  | EmptySequence
      (* RuntimeError of nn.RNN: the input has no time step *)
  | DivisionByZero.
      (* ZeroDivisionError: division by zero *)

Definition class_of (e : exn) : exn_class :=
  match e with
  | UnsupportedLayerType _ | UnpackLength _ _ => ValueError
  | UnpackNone => TypeError
  | ConstructorError c => c
  | IndexErr => IndexError
  | ShapeError | IndexOutOfRange | LengthsNotSorted | LengthNotPositive
  | EmptySequence => RuntimeError
  | DivisionByZero => ZeroDivisionError
  end.

Inductive result (A : Type) : Type :=
  | Ok (a : A)
  | Raise (e : exn).

Arguments Ok {A} a.
Arguments Raise {A} e.

Definition bind {A B : Type} (r : result A) (k : A -> result B) : result B :=
  match r with
  | Ok a => k a
  | Raise e => Raise e
  end.

Notation "'let*' p ':=' r 'in' k" := (bind r (fun p => k))
  (at level 10, p pattern, r at level 100, k at level 200).

Definition raises {A : Type} (c : exn_class) (r : result A) : Prop :=
  exists e, r = Raise e /\ class_of e = c.

Definition raisesb {A : Type} (c : exn_class) (r : result A) : bool :=
  match r with
  | Ok _ => false
  | Raise e =>
      match class_of e, c with
      | ValueError, ValueError | TypeError, TypeError
      | RuntimeError, RuntimeError | IndexError, IndexError
      | ZeroDivisionError, ZeroDivisionError => true
      | _, _ => false
      end
  end.

(** ** The layer-type keys: [re.sub(r"_[\d\w]+", "", layer_type)]

    The pattern is a [str] pattern and goes character by character.  On
    ASCII, [\d] is [0-9] and [\w] is [A-Za-z0-9_].  Beyond ASCII both go by
    the Unicode database of the interpreter: [\d] is a decimal digit, [\w]
    an alphanumeric character.  The database is a parameter of the
    embedding. *)

(** What the pattern asks the Unicode database of a character beyond
    ASCII. *)
Record Unicode : Type := { isdecimal : N -> bool; isalnum : N -> bool }.

Module Re.

Section Pattern.

Variable ucd : Unicode.

(** The code point of [_]. *)
Definition underscore : N := 95.

Definition is_digit (c : N) : bool :=
  if (c <? 128)%N then (48 <=? c)%N && (c <=? 57)%N
  else isdecimal ucd c.

Definition is_word (c : N) : bool :=
  if (c <? 128)%N then
    ((48 <=? c)%N && (c <=? 57)%N)
    || ((65 <=? c)%N && (c <=? 90)%N)
    || ((97 <=? c)%N && (c <=? 122)%N)
    || (c =? underscore)%N
  else isalnum ucd c.

(** The class [[\d\w]]. *)
Definition in_class (c : N) : bool := is_digit c || is_word c.

(** [+] is greedy and nothing follows it in the pattern: it takes the
    longest run of class characters. *)
Fixpoint class_run (s : str) : nat :=
  match s with
  | c :: rest => if in_class c then S (class_run rest) else 0
  | [] => 0
  end.

(** The length of the match of [_[\d\w]+] at the head of [s], if there is
    one: an underscore and at least one class character. *)
Definition match_len (s : str) : option nat :=
  match s with
  | c :: rest =>
      if (c =? underscore)%N then
        match class_run rest with
        | 0 => None
        | S n => Some (S (S n))
        end
      else None
  | [] => None
  end.

(** [re.sub] with the empty replacement, scanning left to right: at a
    position where the pattern matches, the matched characters are dropped
    and the scan goes on behind them; elsewhere the character is kept.
    [skip] counts the characters of the current match still to drop. *)
Fixpoint sub_from (skip : nat) (s : str) : str :=
  match s with
  | [] => []
  | c :: rest =>
      match skip with
      | S k => sub_from k rest
      | 0 =>
          match match_len s with
          | Some (S k) => sub_from k rest
          | _ => c :: sub_from 0 rest
          end
      end
  end.

Definition sub (s : str) : str := sub_from 0 s.

End Pattern.

End Re.

(** ** [collections.OrderedDict]

    The entries in insertion order; a key occurs once.  Assigning to a key
    that is present replaces its value in place, assigning to a new key
    appends the entry. *)

Definition OrderedDict (V : Type) : Type := list (str * V).

Fixpoint setitem {V : Type} (d : OrderedDict V) (key : str) (v : V) : OrderedDict V :=
  match d with
  | [] => [(key, v)]
  | (k, w) :: rest =>
      if bool_decide (k = key) then (k, v) :: rest else (k, w) :: setitem rest key v
  end.

Definition items {V : Type} (d : OrderedDict V) : list (str * V) := d.

Definition keys {V : Type} (d : OrderedDict V) : list str := d.*1.

(** [d.update(other)]: the entries of [other], assigned one after the
    other. *)
Definition update {V : Type} (d other : OrderedDict V) : OrderedDict V :=
  foldl (fun d '(k, v) => setitem d k v) d (items other).

(** ** [ConvNet]

    A layer is the constructor call that made it: its class and the
    positional arguments it was given. *)

Inductive Layer : Type :=
  | Conv2d (in_channels out_channels kernel_size stride padding : Z)
  | AvgPool2d (kernel_size stride padding : Z)
  | MaxPool2d (kernel_size stride padding : Z)
  | Flatten
  | Linear (input_size output_size : Z)
  | ReLU
  | Sigmoid
  | Tanh.

(** [type(layer).__name__]. *)
Definition class_name (l : Layer) : str :=
  match l with
  | Conv2d _ _ _ _ _ => lit "Conv2d"
  | AvgPool2d _ _ _ => lit "AvgPool2d"
  | MaxPool2d _ _ _ => lit "MaxPool2d"
  | Flatten => lit "Flatten"
  | Linear _ _ => lit "Linear"
  | ReLU => lit "ReLU"
  | Sigmoid => lit "Sigmoid"
  | Tanh => lit "Tanh"
  end.

(** The positional arguments of the constructor call. *)
Definition ctor_args (l : Layer) : list Z :=
  match l with
  | Conv2d a b c d e => [a; b; c; d; e]
  | AvgPool2d a b c | MaxPool2d a b c => [a; b; c]
  | Linear a b => [a; b]
  | Flatten | ReLU | Sigmoid | Tanh => []
  end.

(** [layer_params]: a tuple of integers, or [None]. *)
Definition Params : Type := option (list Z).

(** [a, b = layer_params] and its like. *)
Definition unpack2 (p : Params) : result (Z * Z) :=
  match p with
  | None => Raise UnpackNone
  | Some [a; b] => Ok (a, b)
  | Some l => Raise (UnpackLength 2 (length l))
  end.

Definition unpack3 (p : Params) : result (Z * Z * Z) :=
  match p with
  | None => Raise UnpackNone
  | Some [a; b; c] => Ok (a, b, c)
  | Some l => Raise (UnpackLength 3 (length l))
  end.

Definition unpack5 (p : Params) : result (Z * Z * Z * Z * Z) :=
  match p with
  | None => Raise UnpackNone
  | Some [a; b; c; d; e] => Ok (a, b, c, d, e)
  | Some l => Raise (UnpackLength 5 (length l))
  end.

(** The chain of [if]/[elif] on the stripped key, up to the constructor
    call of its branch: the unpacking of the parameters, and the call that
    is then made. *)
Definition layer_call (layer_type : str) (layer_params : Params) : result Layer :=
  if bool_decide (layer_type = lit "Conv2d") then
    let* (in_channels, out_channels, kernel_size, stride, padding) := unpack5 layer_params in
    Ok (Conv2d in_channels out_channels kernel_size stride padding)
  else if bool_decide (layer_type = lit "AvgPool2d") then
    let* (kernel_size, stride, padding) := unpack3 layer_params in
    Ok (AvgPool2d kernel_size stride padding)
  else if bool_decide (layer_type = lit "MaxPool2d") then
    let* (kernel_size, stride, padding) := unpack3 layer_params in
    Ok (MaxPool2d kernel_size stride padding)
  else if bool_decide (layer_type = lit "Flatten") then
    Ok Flatten
  else if bool_decide (layer_type = lit "Linear") then
    let* (input_size, output_size) := unpack2 layer_params in
    Ok (Linear input_size output_size)
  else if bool_decide (layer_type = lit "ReLU") then
    Ok ReLU
  else if bool_decide (layer_type = lit "Sigmod") then
    Ok Sigmoid
  else if bool_decide (layer_type = lit "Tanh") then
    Ok Tanh
  else
    Raise (UnsupportedLayerType layer_type).

Record ConvNet : Type := { layers : list Layer }.

Section Init.

Variable ucd : Unicode.

(** The constructors of the framework.  What [nn.Conv2d(...)] and the
    others do with their arguments is the framework's: they allocate the
    weights of the layer, and raise when they cannot (a negative size, an
    integer that does not fit, too little memory).  [refuses layer] is the
    class of the exception the call recorded by [layer] raises, if it raises
    one. *)
Variable refuses : Layer -> option exn_class.

(** A constructor call: the layer, or the exception of the constructor. *)
Definition new (layer : Layer) : result Layer :=
  match refuses layer with
  | None => Ok layer
  | Some c => Raise (ConstructorError c)
  end.

(** The body of the loop of [__init__]: the chain of [if]/[elif] on the
    stripped key, giving the layer that is appended. *)
Definition make_layer (layer_type : str) (layer_params : Params) : result Layer :=
  let* layer := layer_call layer_type layer_params in
  new layer.

(** [for layer_type, layer_params in arch_dict.items(): ...], with
    [self.layers] threaded through. *)
Fixpoint init_loop (entries : list (str * Params)) (layers : list Layer)
  : result (list Layer) :=
  match entries with
  | [] => Ok layers
  | (layer_type, layer_params) :: rest =>
      let layer_type := Re.sub ucd layer_type in
      let* layer := make_layer layer_type layer_params in
      init_loop rest (layers ++ [layer])
  end.

(** [ConvNet.__init__]. *)
Definition ConvNet_init (arch_dict : OrderedDict Params) : result ConvNet :=
  let* ls := init_loop (items arch_dict) [] in
  Ok {| layers := ls |}.

End Init.

(** [ConvNet.forward]: [for layer in self.layers: x = layer(x)].  Calling a
    layer on a tensor is the framework's; it may raise. *)
Fixpoint forward_loop {Tensor : Type} (call : Layer -> Tensor -> result Tensor)
  (ls : list Layer) (x : Tensor) : result Tensor :=
  match ls with
  | [] => Ok x
  | layer :: rest => let* x' := call layer x in forward_loop call rest x'
  end.

Definition ConvNet_forward {Tensor : Type} (call : Layer -> Tensor -> result Tensor)
  (self : ConvNet) (x : Tensor) : result Tensor :=
  forward_loop call (layers self) x.

(** *** What the statements say of keys and parameters *)

(** The strings the chain of [layer_call] compares the stripped key with. *)
Definition handled : list str :=
  [lit "Conv2d"; lit "AvgPool2d"; lit "MaxPool2d"; lit "Flatten"; lit "Linear"; lit "ReLU";
   lit "Sigmod"; lit "Tanh"].

(** The layer types the docstring of [__init__] lists as supported. *)
Definition documented : list str :=
  [lit "Conv2d"; lit "AvgPool2d"; lit "MaxPool2d"; lit "Flatten"; lit "Linear"; lit "ReLU";
   lit "Sigmoid"; lit "Tanh"].

(** How many parameters the docstring gives each layer type. *)
Definition arity (layer_type : str) : nat :=
  if bool_decide (layer_type = lit "Conv2d") then 5
  else if bool_decide (layer_type = lit "AvgPool2d") then 3
  else if bool_decide (layer_type = lit "MaxPool2d") then 3
  else if bool_decide (layer_type = lit "Linear") then 2
  else 0.

(** The elements of a parameter value; [None] has none. *)
Definition elems (p : Params) : list Z := default [] p.

(** A parameter value of the matching arity: a tuple of [arity] integers,
    or [None] for a layer that takes none. *)
Definition matching_arity (layer_type : str) (p : Params) : Prop :=
  match p with
  | Some l => length l = arity layer_type
  | None => arity layer_type = 0
  end.

(** What the unpacking statements need: a tuple of the right length where
    the branch unpacks one; the branches without parameters never look at
    the value. *)
Definition unpackable (layer_type : str) (p : Params) : Prop :=
  arity layer_type = 0 \/ exists l, p = Some l /\ length l = arity layer_type.

(** The constructor accepts the call the chain makes for a key and its
    parameters. *)
Definition accepted (refuses : Layer -> option exn_class) (layer_type : str) (p : Params)
  : Prop :=
  forall layer, layer_call layer_type p = Ok layer -> refuses layer = None.

(** The class a handled key stands for: its own name, but for the key
    [Sigmod], which the chain maps to [nn.Sigmoid]. *)
Definition class_for (layer_type : str) : str :=
  if bool_decide (layer_type = lit "Sigmod") then lit "Sigmoid" else layer_type.

(** *** The interpreter and the framework of the examples *)

(** A database that holds no character beyond ASCII for a digit or a
    letter.  The keys of the examples are ASCII, and run the same under
    every database. *)
Definition ascii_only : Unicode :=
  {| isdecimal := fun _ => false; isalnum := fun _ => false |}.

(** The constructors, as far as the examples go: [nn.Linear] allocates a
    weight of [output_size] rows and [input_size] columns, and raises
    [RuntimeError] when a size is negative; the calls of the notebook are
    accepted. *)
Definition example_nn (layer : Layer) : option exn_class :=
  match layer with
  | Linear input_size output_size =>
      if ((input_size <? 0) || (output_size <? 0))%Z then Some RuntimeError else None
  | _ => None
  end.

(** ** Tensors and [Flatten]

    A tensor is its size, its elements in the order of their indices (the
    last index running fastest), and whether it is contiguous, that is,
    whether its storage holds the elements in that order, which is what
    [is_contiguous()] answers.  The strides themselves are not modelled. *)

Record Tensor (A : Type) : Type :=
  { size : list nat; contents : list A; contiguous : bool }.

Arguments size {A} _.
Arguments contents {A} _.
Arguments contiguous {A} _.

(** The number of elements a size holds. *)
Definition numel (shape : list nat) : nat := foldr Nat.mul 1 shape.

Definition well_formed {A : Type} (x : Tensor A) : Prop :=
  length (contents x) = numel (size x).

(** The row-major offset of a multi-index. *)
Fixpoint offset (shape idx : list nat) : nat :=
  match shape, idx with
  | _ :: ds, i :: js => i * numel ds + offset ds js
  | _, _ => 0
  end.

(** [x[i0, i1, ...]], for an index inside the size. *)
Definition item {A : Type} (x : Tensor A) (idx : list nat) : option A :=
  if bool_decide (Forall2 lt idx (size x)) then contents x !! offset (size x) idx else None.

(** Modelled from the framework: the size [view] infers for a requested
    shape in which [-1] stands for one dimension to be inferred.  The
    product of the given dimensions must divide the number of elements;
    when that product is zero the inferred dimension could be anything and
    the framework refuses. *)
Definition infer_size (shape : list Z) (n : nat) : result (list nat) :=
  let given := filter (fun d => d ≠ (-1)%Z) shape in
  let inferred := length shape - length given in
  let newsize := foldr Nat.mul 1 (Z.to_nat <$> given) in
  if bool_decide (Exists (fun d => (d < -1)%Z) shape) then Raise ShapeError
  else if bool_decide (1 < inferred) then Raise ShapeError
  else if bool_decide (inferred = 0) then
    if bool_decide (n = newsize) then Ok (Z.to_nat <$> shape) else Raise ShapeError
  else if bool_decide (newsize = 0) then Raise ShapeError
  else if bool_decide (n `mod` newsize = 0) then
    Ok ((fun d => if bool_decide (d = (-1)%Z) then n `div` newsize else Z.to_nat d) <$> shape)
  else Raise ShapeError.

(** [x.size()[i]]. *)
Definition size_at {A : Type} (x : Tensor A) (i : nat) : result nat :=
  match size x !! i with
  | Some d => Ok d
  | None => Raise IndexErr
  end.

Section View.

Context {A : Type}.

(** What the framework computes from the strides of a tensor that is not
    contiguous, when a view of another size is asked of it: [Some c] when
    the strides allow the view, which is then contiguous or not as [c]
    says, and [None] when they do not. *)
Variable strided : Tensor A -> list nat -> option bool.

(** Modelled from the framework: [x.view(shape)], the same elements under
    the inferred size.  A contiguous tensor has a view of every size that
    holds its elements, and the view is contiguous; every tensor has the
    view of its own size; for the rest the strides decide, and the framework
    raises when they allow no view. *)
Definition view (x : Tensor A) (shape : list Z) : result (Tensor A) :=
  let* sz := infer_size shape (numel (size x)) in
  if contiguous x then Ok {| size := sz; contents := contents x; contiguous := true |}
  else if bool_decide (sz = size x) then Ok x
  else match strided x sz with
       | Some c => Ok {| size := sz; contents := contents x; contiguous := c |}
       | None => Raise ShapeError
       end.

(** [Flatten.forward]: [x.view(x.size()[0], -1)]. *)
Definition Flatten_forward (x : Tensor A) : result (Tensor A) :=
  let* d0 := size_at x 0 in
  view x [Z.of_nat d0; (-1)%Z].

End View.

(** The strides of a tensor that allow no view of another size.  They are
    the strides of the tensor [permuted] below. *)
Definition no_view {A : Type} (x : Tensor A) (sz : list nat) : option bool := None.

(** [torch.arange(12).view(2, 3, 2).permute(0, 2, 1)]: of size [(2, 2, 3)]
    and strides [(6, 1, 2)], not contiguous. *)
Definition permuted : Tensor Z :=
  {| size := [2; 2; 3];
     contents := [0; 2; 4; 1; 3; 5; 6; 8; 10; 7; 9; 11]%Z;
     contiguous := false |}.

(** ** [evaluate]

    The state the function runs in: whether autograd records (the switch
    [torch.no_grad] turns off), the model's parameters, and how many
    forward passes autograd has recorded a graph for. *)

Record Torch (Weights : Type) : Type :=
  { grad_enabled : bool; parameters : Weights; recorded : nat }.

Arguments grad_enabled {Weights} _.
Arguments parameters {Weights} _.
Arguments recorded {Weights} _.

Definition set_grad_enabled {Weights : Type} (mode : bool) (st : Torch Weights) : Torch Weights :=
  {| grad_enabled := mode; parameters := parameters st; recorded := recorded st |}.

(** [f] on every element, left to right, stopping at the first exception. *)
Fixpoint traverse {A B : Type} (f : A -> result B) (l : list A) : result (list B) :=
  match l with
  | [] => Ok []
  | a :: rest =>
      let* b := f a in
      let* bs := traverse f rest in
      Ok (b :: bs)
  end.

Section Evaluate.

Context {Images Weights Score : Type}.

(** The scores the network computes from its parameters, one row per
    sample of the batch. *)
Variable net : Weights -> Images -> list (list Score).

(** [a > b] on scores. *)
Variable gtb : Score -> Score -> bool.

(** [model(images)]: the forward pass reads the parameters; a graph is
    recorded only while gradients are enabled. *)
Definition call_model (st : Torch Weights) (images : Images)
  : Torch Weights * list (list Score) :=
  ({| grad_enabled := grad_enabled st;
      parameters := parameters st;
      recorded := if grad_enabled st then S (recorded st) else recorded st |},
   net (parameters st) images).

(** Modelled from the framework: the index [torch.max(_, 1)] returns for a
    row, the first position holding the greatest score; an empty row has
    no maximum, and the framework raises [IndexError]. *)
Fixpoint argmax_from (best : Score) (best_i i : nat) (row : list Score) : nat :=
  match row with
  | [] => best_i
  | s :: rest =>
      if gtb s best then argmax_from s i (S i) rest
      else argmax_from best best_i (S i) rest
  end.

Definition argmax (row : list Score) : result nat :=
  match row with
  | [] => Raise IndexErr
  | s :: rest => Ok (argmax_from s 0 1 rest)
  end.

(** [_, predicted = torch.max(output.data, 1)]. *)
Definition torch_max_dim1 (output : list (list Score)) : result (list Z) :=
  traverse (fun row => let* i := argmax row in Ok (Z.of_nat i)) output.

(** Modelled from the framework: [predicted == truth] on one-dimensional
    tensors, with broadcasting of a tensor of one element. *)
Definition tensor_eq (a b : list Z) : result (list bool) :=
  if (length a =? length b)%nat then Ok (zip_with Z.eqb a b)
  else match a, b with
       | [x], _ => Ok (Z.eqb x <$> b)
       | _, [y] => Ok ((fun x => Z.eqb x y) <$> a)
       | _, _ => Raise ShapeError
       end.

(** [t.sum().item()] of a tensor of booleans. *)
Definition tensor_sum (t : list bool) : nat := length (filter (fun b => b = true) t).

(** The loop over the batches, threading the state and the two counters. *)
Fixpoint evaluate_loop (st : Torch Weights) (test_data : list (Images * list Z))
  (correct total : nat) : Torch Weights * result (nat * nat) :=
  match test_data with
  | [] => (st, Ok (correct, total))
  | (images, truth) :: rest =>
      let '(st, output) := call_model st images in
      match torch_max_dim1 output with
      | Raise e => (st, Raise e)
      | Ok predicted =>
          let total := total + length truth in
          match tensor_eq predicted truth with
          | Raise e => (st, Raise e)
          | Ok eqs => evaluate_loop st rest (correct + tensor_sum eqs) total
          end
      end
  end.

(** [100 * correct / total]: true division of integers, exact here (the
    float rounding and the four printed decimals are not modelled). *)
Definition percent (correct total : nat) : result Q :=
  if (total =? 0)%nat then Raise DivisionByZero
  else Ok (inject_Z (100 * Z.of_nat correct) / inject_Z (Z.of_nat total))%Q.

(** [evaluate]: the state it leaves, and the two values it prints, the
    number of test images and the accuracy.  Leaving the [with] block
    restores the gradient mode, on an exception too. *)
Definition evaluate (st : Torch Weights) (test_data : list (Images * list Z))
  : Torch Weights * result (nat * Q) :=
  let prev := grad_enabled st in
  let '(st, r) := evaluate_loop (set_grad_enabled false st) test_data 0 0 in
  let st := set_grad_enabled prev st in
  (st,
   let* (correct, total) := r in
   let* accuracy := percent correct total in
   Ok (total, accuracy)).

(** What the accuracy is stated over: the samples of all batches.  *)

(** The samples of a dataset: each row of scores with its label. *)
Definition samples (w : Weights) (test_data : list (Images * list Z))
  : list (list Score * Z) :=
  test_data ≫= (fun '(images, truth) => zip (net w images) truth).

(** A sample is correct when its predicted class, the argmax of its row,
    is its label. *)
Definition is_correct (sample : list Score * Z) : bool :=
  match argmax sample.1 with
  | Ok i => Z.eqb (Z.of_nat i) sample.2
  | Raise _ => false
  end.

Definition num_correct (w : Weights) (test_data : list (Images * list Z)) : nat :=
  length (filter (fun s => is_correct s = true) (samples w test_data)).

Definition num_samples (w : Weights) (test_data : list (Images * list Z)) : nat :=
  length (samples w test_data).

(** A dataset fits the network when every batch has one label per row of
    scores and no row is empty. *)
Definition fits (w : Weights) (test_data : list (Images * list Z)) : Prop :=
  Forall (fun '(images, truth) =>
            length (net w images) = length truth
            /\ Forall (fun row => row ≠ []) (net w images)) test_data.

End Evaluate.

(** ** Sorting

    Python's [sorted(_, key=_, reverse=True)] is a stable sort: elements
    with equal keys keep their order.  The framework's [Tensor.sort] is
    bound to no order among equal elements.  It is a parameter
    [torch_sort] of what calls it, of which the properties assume that it
    sorts ([sorts] below) and nothing more. *)

Section Sorting.

Context {A : Type}.
Variable key : A -> nat.
Variable descending : bool.

(** The key [a] sorts strictly before the key [b]. *)
Definition precedes (a b : nat) : bool :=
  if descending then (b <? a)%nat else (a <? b)%nat.

Fixpoint insert_sorted (x : A) (l : list A) : list A :=
  match l with
  | [] => [x]
  | y :: rest =>
      if precedes (key y) (key x) then y :: insert_sorted x rest
      else x :: y :: rest
  end.

Definition stable_sort (l : list A) : list A := foldr insert_sorted [] l.

End Sorting.

(** [sorted(batch, key=key, reverse=reverse)]. *)
Definition py_sorted {A : Type} (key : A -> nat) (reverse : bool) (l : list A) : list A :=
  stable_sort key reverse l.

(** [values, indices = t.sort(descending=descending)] on a one-dimensional
    tensor of non-negative integers, were the sort to keep equal elements
    in their order. *)
Definition stable_torch_sort (t : list nat) (descending : bool) : list nat * list nat :=
  let sorted := stable_sort snd descending (zip (seq 0 (length t)) t) in
  (sorted.*2, sorted.*1).

(** The sort of the examples.  It keeps equal elements in their order, as
    the outputs recorded in the notebook show for the two sequences of
    length three, but for a tensor of seventeen equal elements: there it
    answers as the framework's [std::sort] does, which moves the element in
    the middle to the front and reverses the others around it. *)
Definition example_sort (t : list nat) (descending : bool) : list nat * list nat :=
  if bool_decide (t = replicate 17 (hd 0 t)) then
    (t, [8; 16; 15; 14; 13; 12; 11; 10; 9; 0; 7; 6; 5; 4; 3; 2; 1])
  else stable_torch_sort t descending.

(** ** Batches of sequences

    A padded batch is sequence-first: a list of time steps, each holding
    one element per sequence of the batch. *)

(** [a, b = zip( *batch)] on a list of pairs. *)
Definition zip_star {A B : Type} (batch : list (A * B)) : result (list A * list B) :=
  match batch with
  | [] => Raise (UnpackLength 2 0)
  | _ => Ok (batch.*1, batch.*2)
  end.

(** Modelled from the framework: [rnn_utils.pad_sequence(sequences)], which
    pads every sequence to the longest with [padding_value]. *)
Definition pad_sequence {A : Type} (padding_value : A) (sequences : list (list A))
  : result (list (list A)) :=
  match sequences with
  | [] => Raise IndexErr
  | _ =>
      let max_len := max_list (length <$> sequences) in
      Ok ((fun t => (fun s => default padding_value (s !! t)) <$> sequences) <$> seq 0 max_len)
  end.

(** [t[0]] on a one-dimensional tensor. *)
Definition index0 {A : Type} (t : list A) : result A :=
  match t with
  | [] => Raise IndexErr
  | a :: _ => Ok a
  end.

(** [idx.repeat(n, 1)]: [n] rows, each the tensor [idx]. *)
Definition repeat_rows {A : Type} (n : nat) (idx : list A) : list (list A) :=
  replicate n idx.

(** Modelled from the framework: [input.gather(dim=1, index=index)], where
    [out[t][j] = input[t][index[t][j]]]. *)
Definition gather_row {A : Type} (row : list A) (index : list nat) : result (list A) :=
  traverse (fun i => match row !! i with
                     | Some a => Ok a
                     | None => Raise IndexOutOfRange
                     end) index.

Definition gather1 {A : Type} (input : list (list A)) (index : list (list nat))
  : result (list (list A)) :=
  if (length index =? length input)%nat
  then traverse (fun '(row, idx) => gather_row row idx) (zip input index)
  else Raise ShapeError.

Record PackedSequence (A : Type) : Type :=
  { data : list A; batch_sizes : list nat }.

Arguments data {A} _.
Arguments batch_sizes {A} _.

Fixpoint nonincreasing (l : list nat) : bool :=
  match l with
  | a :: (b :: _) as rest => (b <=? a)%nat && nonincreasing rest
  | _ => true
  end.

(** How many of the lengths reach beyond step [t]. *)
Definition count_gt (t : nat) (lengths : list nat) : nat :=
  length (filter (fun l => t < l) lengths).

(** Modelled from the framework: [rnn_utils.pack_padded_sequence(input,
    lengths)] on a sequence-first padded batch.  The lengths must be
    positive and in decreasing order; step [t] of the packed data holds the
    elements of the sequences that reach beyond [t]. *)
Definition pack_padded_sequence {A : Type} (input : list (list A)) (lengths : list nat)
  : result (PackedSequence A) :=
  match input, last lengths with
  | [], _ | _, None => Raise ShapeError
  | row :: _, Some l =>
      if negb (length lengths =? length row)%nat then Raise ShapeError
      else if (l =? 0)%nat then Raise LengthNotPositive
      else if negb (nonincreasing lengths) then Raise LengthsNotSorted
      else if (length input <? hd 0 lengths)%nat then Raise ShapeError
      else
        let sizes := (fun t => count_gt t lengths) <$> seq 0 (hd 0 lengths) in
        Ok {| data := concat (zip_with take sizes input); batch_sizes := sizes |}
  end.

(** Modelled from the framework: [rnn_utils.pad_packed_sequence(packed)],
    giving the padded batch back and the length of each sequence. *)
Fixpoint unpack_steps {A : Type} (padding_value : A) (width : nat)
  (sizes : list nat) (flat : list A) : list (list A) :=
  match sizes with
  | [] => []
  | b :: rest =>
      (take b flat ++ replicate (width - b) padding_value)
        :: unpack_steps padding_value width rest (drop b flat)
  end.

Definition pad_packed_sequence {A : Type} (padding_value : A) (packed : PackedSequence A)
  : list (list A) * list nat :=
  let width := hd 0 (batch_sizes packed) in
  (unpack_steps padding_value width (batch_sizes packed) (data packed),
   (fun j => count_gt j (batch_sizes packed)) <$> seq 0 width).

(** *** The notebook "Sequence Tensor Batching with PyTorch" *)

Abbreviation Batch := (list (list Z * list Z)).

(** What [Tensor.sort] is to the cells below. *)
Abbreviation TensorSort := (list nat -> bool -> list nat * list nat).

(** Option 1: pad the inputs as they come, sort the lengths, reorder the
    padded tensor by the sorting permutation, pack. *)
Definition option1 (torch_sort : TensorSort) (batch : Batch) : result (PackedSequence Z) :=
  let* (input_, target) := zip_star batch in
  let* input_orig := pad_sequence 0%Z input_ in
  let* target_orig := pad_sequence 0%Z target in
  let lengths := length <$> input_ in
  let '(sorted_lengths, sort_idx) := torch_sort lengths true in
  let* max_length := index0 sorted_lengths in
  let* input_sorted := gather1 input_orig (repeat_rows max_length sort_idx) in
  pack_padded_sequence input_sorted sorted_lengths.

(** Option 2: sort the pairs by the length of the input, pad, pack. *)
Definition option2 (batch : Batch) : result (PackedSequence Z) :=
  let sorted_batch := py_sorted (fun b => length b.1) true batch in
  let* (input_presorted, target_presorted) := zip_star sorted_batch in
  let presorted_lengths := length <$> input_presorted in
  let* padded_input_presorted := pad_sequence 0%Z input_presorted in
  let* padded_target_presorted := pad_sequence 0%Z target_presorted in
  pack_padded_sequence padded_input_presorted presorted_lengths.

(** Option 1 seen to its end: unpack, and map every sequence back to its
    place with the argsort of the sorting permutation. *)
Definition option1_restored (torch_sort : TensorSort) (batch : Batch)
  : result (list (list Z)) :=
  let* (input_, target) := zip_star batch in
  let lengths := length <$> input_ in
  let '(sorted_lengths, sort_idx) := torch_sort lengths true in
  let* max_length := index0 sorted_lengths in
  let* input_packed := option1 torch_sort batch in
  let '(input_unpacked, _) := pad_packed_sequence 0%Z input_packed in
  let '(_, orig_idx) := torch_sort sort_idx false in
  gather1 input_unpacked (repeat_rows max_length orig_idx).

(** The batch of the notebook. *)
Definition batch0 : Batch :=
  [([1; 1; 1], [1; 1; 1; 1]);
   ([2; 2; 2; 2; 2], [2; 2; 2; 2]);
   ([3; 3], [3; 3; 3]);
   ([4; 4; 4], [4; 4; 4]);
   ([5; 5; 5; 5], [5; 5; 5; 5; 5])]%Z.

(** Seventeen pairs of one element each: the inputs [[1]] to [[17]], every
    one its own target. *)
Definition batch17 : Batch :=
  (fun k => ([Z.of_nat k], [Z.of_nat k])) <$> seq 1 17.

(** ** The recurrent network

    Modelled from the framework: [nn.RNN] with one layer and one direction.
    [cell h x] is one step of the recurrence on one sequence (for the
    network of the notebook, [tanh(W_ih x + b_ih + W_hh h + b_hh)]); a batch
    is stepped element by element with the same [cell].  The hidden states
    of a batch are a list, one state per sequence. *)

Section RNN.

Context {X H : Type}.
Variable cell : H -> X -> H.

(** The recurrence over a padded batch: every time step moves every
    sequence of the batch. *)
Fixpoint rnn_steps (input : list (list X)) (hidden : list H)
  : list (list H) * list H :=
  match input with
  | [] => ([], hidden)
  | step_input :: rest =>
      let hidden := zip_with cell hidden step_input in
      let '(output, h_n) := rnn_steps rest hidden in
      (hidden :: output, h_n)
  end.

(** [output, h_n = rnn(input, h_0)] on a padded tensor.  The network
    refuses an input without a time step; the batch size of [h_0] must be
    the one of [input]. *)
Definition rnn_padded (input : list (list X)) (h_0 : list H)
  : result (list (list H) * list H) :=
  match input with
  | [] => Raise EmptySequence
  | _ =>
      if forallb (fun step_input => (length step_input =? length h_0)%nat) input
      then Ok (rnn_steps input h_0)
      else Raise ShapeError
  end.

(** The recurrence over packed data.  At each step the first [batch_size]
    elements of what is left of the data are the step's input; when the
    batch size drops, the states of the sequences that have ended are set
    aside, and in the end all states are put back in batch order. *)
Fixpoint packed_loop (sizes : list nat) (input : list X) (last_batch_size : nat)
  (hidden : list H) (hiddens : list (list H)) (output : list (list H))
  : list (list H) * list H * list (list H) :=
  match sizes with
  | [] => (hiddens, hidden, output)
  | batch_size :: rest =>
      let step_input := take batch_size input in
      let input := drop batch_size input in
      let dec := last_batch_size - batch_size in
      let hiddens :=
        if (0 <? dec)%nat then hiddens ++ [drop (length hidden - dec) hidden] else hiddens in
      let hidden :=
        if (0 <? dec)%nat then take (length hidden - dec) hidden else hidden in
      let hidden := zip_with cell hidden step_input in
      packed_loop rest input batch_size hidden hiddens (output ++ [hidden])
  end.

(** [output, h_n = rnn(packed, h_0)] on a packed sequence: the packed
    output and the last state of every sequence. *)
Definition rnn_packed (packed : PackedSequence X) (h_0 : list H)
  : result (PackedSequence H * list H) :=
  if (length h_0 =? hd 0 (batch_sizes packed))%nat then
    let '(hiddens, hidden, output) :=
      packed_loop (batch_sizes packed) (data packed) (hd 0 (batch_sizes packed)) h_0 [] [] in
    Ok ({| data := concat output; batch_sizes := batch_sizes packed |},
        concat (rev (hiddens ++ [hidden])))
  else Raise ShapeError.

(** [embedded[:, j, :].view(T, 1, E)]: sequence [j] of a padded batch, as a
    batch of one. *)
Definition select_sequence (embedded : list (list X)) (j : nat) : result (list (list X)) :=
  traverse (fun step_input => match step_input !! j with
                              | Some x => Ok [x]
                              | None => Raise IndexErr
                              end) embedded.

(** The body of the loop over the batch: the network run on sequence [j]
    alone, cut at its length, from the single initial state. *)
Definition rnn_single (embedded : list (list X)) (lengths : list nat)
  (h0_single : list H) (j : nat) : result (list (list H) * list H) :=
  let* seq_length := match lengths !! j with
                     | Some l => Ok l
                     | None => Raise IndexErr
                     end in
  let* column := select_sequence embedded j in
  let seq_embedded := take seq_length column in
  rnn_padded seq_embedded h0_single.

End RNN.

(** An Elman cell with the [relu] nonlinearity on integers, one input and
    one hidden unit: [relu(w_ih * x + b_ih + w_hh * h + b_hh)]. *)
Definition relu_cell (w_ih b_ih w_hh b_hh : Z) (h x : Z) : Z :=
  Z.max 0 (w_ih * x + b_ih + w_hh * h + b_hh).

(** *** The notebook "Batched Hidden State Correspondence" *)

Section Correspondence.

Context {X H : Type}.
Variable embedding : Z -> X.
Variable cell : H -> X -> H.

(** [test_embedded]: the padded token batch, embedded. *)
Definition embed_padded (test_inputs : list (list Z)) : result (list (list X)) :=
  let* test_inputs_padded := pad_sequence 0%Z test_inputs in
  Ok ((fun step : list Z => embedding <$> step) <$> test_inputs_padded).

(** [test_hn_batch]: the packed batch through the network. *)
Definition hn_batch (test_inputs : list (list Z)) (h : H) : result (list H) :=
  let test_lengths := length <$> test_inputs in
  let test_h0 := replicate (length test_inputs) h in
  let* test_embedded := embed_padded test_inputs in
  let* test_packed_input := pack_padded_sequence test_embedded test_lengths in
  let* (test_output_packed, test_hn_batch) := rnn_packed cell test_packed_input test_h0 in
  Ok test_hn_batch.

(** [test_hn_states[j]]: sequence [j] alone through the network. *)
Definition hn_state (test_inputs : list (list Z)) (h : H) (j : nat) : result (list H) :=
  let test_lengths := length <$> test_inputs in
  let test_h0 := replicate (length test_inputs) h in
  let* test_embedded := embed_padded test_inputs in
  let* h0 := index0 test_h0 in
  let test_h0_single := [h0] in
  let* (out_j, h_t_j) := rnn_single cell test_embedded test_lengths test_h0_single j in
  Ok h_t_j.

(** [hn_padded]: the padded batch through the network, unpacked. *)
Definition hn_padded (test_inputs : list (list Z)) (h : H) : result (list H) :=
  let test_h0 := replicate (length test_inputs) h in
  let* test_embedded := embed_padded test_inputs in
  let* (output_padded, hn_padded) := rnn_padded cell test_embedded test_h0 in
  Ok hn_padded.

End Correspondence.

(** The batch of the notebook. *)
Definition test_inputs0 : list (list Z) :=
  [[1; 1; 1; 1; 1]; [2; 2; 2; 2]; [3; 3; 3]; [4; 4]; [5; 5]]%Z.

(** ** More of the notebooks

    *** "Sequence Tensor Batching with PyTorch", the cells between the
    options and after them *)

(** Option 1 up to the reordering: [input_sorted] and [sorted_lengths]. *)
Definition option1_sorted (torch_sort : TensorSort) (batch : Batch)
  : result (list (list Z) * list nat) :=
  let* (input_, target) := zip_star batch in
  let* input_orig := pad_sequence 0%Z input_ in
  let lengths := length <$> input_ in
  let '(sorted_lengths, sort_idx) := torch_sort lengths true in
  let* max_length := index0 sorted_lengths in
  let* input_sorted := gather1 input_orig (repeat_rows max_length sort_idx) in
  Ok (input_sorted, sorted_lengths).

(** [rnn_utils.pad_packed_sequence(input_packed)] of Option 1: the unpacked
    tensor and the lengths. *)
Definition option1_unpacked (torch_sort : TensorSort) (batch : Batch)
  : result (list (list Z) * list nat) :=
  let* input_packed := option1 torch_sort batch in
  Ok (pad_packed_sequence 0%Z input_packed).

(** Option 2 to its end: [unpacked_input_presorted] and
    [padded_target_presorted], which the notebook prints side by side. *)
Definition option2_aligned (batch : Batch) : result (list (list Z) * list (list Z)) :=
  let sorted_batch := py_sorted (fun b => length b.1) true batch in
  let* (input_presorted, target_presorted) := zip_star sorted_batch in
  let presorted_lengths := length <$> input_presorted in
  let* padded_input_presorted := pad_sequence 0%Z input_presorted in
  let* padded_target_presorted := pad_sequence 0%Z target_presorted in
  let* packed_input_presorted :=
    pack_padded_sequence padded_input_presorted presorted_lengths in
  let '(unpacked_input_presorted, _) := pad_packed_sequence 0%Z packed_input_presorted in
  Ok (unpacked_input_presorted, padded_target_presorted).

(** *** [train] of the notebook of the convolutional networks

    The framework's part of the loop is abstract.  [State] is what the
    calls read and write: the parameters of the model, their gradients and
    the state of the optimiser.  A call moves the state or raises.  [F] is
    the type of the floats, with the addition and the division by an
    integer the loop uses. *)

(** What [train] prints, line by line. *)
Inductive line (F : Type) : Type :=
  | Epoch (epoch : nat)
  | Progress (count : nat) (loss : F)
  | Finished.

Arguments Epoch {F} _.
Arguments Progress {F} _ _.
Arguments Finished {F}.

Section Train.

Context {State Images Labels Output Loss F : Type}.

Variable zero_grad : State -> State.
Variable model : State -> Images -> result (State * Output).
Variable loss_function : Output -> Labels -> result Loss.
Variable backward : State -> Loss -> result State.
Variable step : State -> result State.
Variable item : Loss -> F.
Variable fzero : F.
Variable fadd : F -> F -> F.
Variable fdiv : F -> nat -> F.

(** The body of the loop up to [loss.item()]: one batch through the model
    and the optimiser. *)
Definition train_batch (st : State) (batch : Images * Labels) : result (State * F) :=
  let '(images, labels) := batch in
  let st := zero_grad st in
  let* (st, output) := model st images in
  let* loss := loss_function output labels in
  let* st := backward st loss in
  let* st := step st in
  Ok (st, item loss).

(** The loop over the batches of one epoch, with the index [enumerate]
    counts and the running [total_loss]: the lines printed, and the state
    left or the exception raised. *)
Fixpoint train_loop (st : State) (training_data : list (Images * Labels))
  (batch_idx : nat) (total_loss : F) : list (line F) * result State :=
  match training_data with
  | [] => ([], Ok st)
  | batch :: rest =>
      match train_batch st batch with
      | Raise e => ([], Raise e)
      | Ok (st, loss) =>
          let total_loss := fadd total_loss loss in
          if ((batch_idx + 1) mod 1000 =? 0)%nat then
            let '(lines, r) := train_loop st rest (S batch_idx) fzero in
            (Progress (batch_idx + 1) (fdiv total_loss 1000) :: lines, r)
          else train_loop st rest (S batch_idx) total_loss
      end
  end.

(** The loop over the epochs.  [training_data epoch] are the batches the
    data loader yields when it is iterated in that epoch (a loader that
    shuffles yields them in another order every time). *)
Fixpoint train_epochs (st : State) (training_data : nat -> list (Images * Labels))
  (epoch remaining : nat) : list (line F) * result State :=
  match remaining with
  | 0 => ([], Ok st)
  | S remaining =>
      let '(lines, r) := train_loop st (training_data epoch) 0 fzero in
      match r with
      | Raise e => (Epoch (epoch + 1) :: lines, Raise e)
      | Ok st =>
          let '(lines', r) := train_epochs st training_data (S epoch) remaining in
          (Epoch (epoch + 1) :: lines ++ lines', r)
      end
  end.

(** [train(model, training_data, optimiser, loss_function, num_epochs)]. *)
Definition train (st : State) (training_data : nat -> list (Images * Labels))
  (num_epochs : nat) : list (line F) * result State :=
  let '(lines, r) := train_epochs st training_data 0 num_epochs in
  match r with
  | Raise e => (lines, Raise e)
  | Ok st => (lines ++ [Finished], Ok st)
  end.

End Train.

(** *** "Batched Hidden State Correspondence", the outputs *)

(** [x[:, j, :]] on a sequence-first tensor: element [j] of every step.
    (A tensor without a step is a list without a row here and gives no
    element, whatever [j].) *)
Definition select_column {A : Type} (x : list (list A)) (j : nat) : result (list A) :=
  traverse (fun step => match step !! j with
                        | Some a => Ok a
                        | None => Raise IndexErr
                        end) x.

Section CorrespondenceOutputs.

Context {X H : Type}.
Variable embedding : Z -> X.
Variable cell : H -> X -> H.

(** The padding [pad_packed_sequence] fills the output with: the zero of
    the hidden states. *)
Variable zero : H.

(** [test_outputs[j][:, 0, :]]: the output of the network run on sequence
    [j] alone. *)
Definition outputs_single (test_inputs : list (list Z)) (h : H) (j : nat) : result (list H) :=
  let test_lengths := length <$> test_inputs in
  let test_h0 := replicate (length test_inputs) h in
  let* test_embedded := embed_padded embedding test_inputs in
  let* h0 := index0 test_h0 in
  let test_h0_single := [h0] in
  let* (out_j, h_t_j) := rnn_single cell test_embedded test_lengths test_h0_single j in
  select_column out_j 0.

(** [test_output_unpacked[:, j, :]]: sequence [j] of the unpacked output of
    the packed run. *)
Definition output_unpacked (test_inputs : list (list Z)) (h : H) (j : nat) : result (list H) :=
  let test_lengths := length <$> test_inputs in
  let test_h0 := replicate (length test_inputs) h in
  let* test_embedded := embed_padded embedding test_inputs in
  let* test_packed_input := pack_padded_sequence test_embedded test_lengths in
  let* (test_output_packed, test_hn_batch) := rnn_packed cell test_packed_input test_h0 in
  let '(test_output_unpacked, _) := pad_packed_sequence zero test_output_packed in
  select_column test_output_unpacked j.

(** [output_padded[:, j, :]]: sequence [j] of the output of the run on
    the padded tensor. *)
Definition output_padded (test_inputs : list (list Z)) (h : H) (j : nat) : result (list H) :=
  let test_h0 := replicate (length test_inputs) h in
  let* test_embedded := embed_padded embedding test_inputs in
  let* (output_padded, hn_padded) := rnn_padded cell test_embedded test_h0 in
  select_column output_padded j.

End CorrespondenceOutputs.


(** ** Notions the statements are made of *)

(** *** Keys *)

(** Every character of a string passes a test. *)
Definition all_chars (test : N -> bool) (s : str) : bool := forallb test s.

(** *** The network, entry by entry, and examples to run it on *)

(** The layer [make_layer] builds for one entry of the dictionary. *)
Definition entry_layer (ucd : Unicode) (refuses : Layer -> option exn_class)
  (entry : str * Params) : result Layer :=
  make_layer refuses (Re.sub ucd entry.1) entry.2.

(** The LeNet-5 architecture of the notebook, entered key by key. *)
Definition lenet5_arch : OrderedDict Params :=
  foldl (fun d '(k, v) => setitem d k v) []
    [(lit "Conv2d_1", Some [1; 6; 5; 1; 2]%Z); (lit "Tanh_1a", None);
     (lit "AvgPool2d_1", Some [2; 2; 0]%Z); (lit "Tanh_1b", None);
     (lit "Conv2d_2", Some [6; 16; 5; 1; 0]%Z); (lit "Tanh_2a", None);
     (lit "AvgPool2d_2", Some [2; 2; 0]%Z); (lit "Tanh_2b", None);
     (lit "Flatten_3", None);
     (lit "Linear_4", Some [400; 120]%Z); (lit "Tanh_4", None);
     (lit "Linear_5", Some [120; 84]%Z); (lit "Tanh_5", None);
     (lit "Linear_6", Some [84; 10]%Z)].

(** The outputs along a network: [xs] starts with the input, and every
    layer takes the element at its position to the next one. *)
Definition chain {Tensor : Type} (call : Layer -> Tensor -> result Tensor)
  (ls : list Layer) (xs : list Tensor) : Prop :=
  length xs = S (length ls)
  /\ forall i layer, ls !! i = Some layer ->
       exists a b, xs !! i = Some a /\ xs !! S i = Some b /\ call layer a = Ok b.

(** A layer on integers, for running the network by hand: every layer
    doubles its input and adds its number of parameters; [Flatten] refuses a
    negative input. *)
Definition toy_call (layer : Layer) (x : Z) : result Z :=
  match layer with
  | Flatten => if (x <? 0)%Z then Raise ShapeError else Ok x
  | _ => Ok (2 * x + Z.of_nat (length (ctor_args layer)))%Z
  end.

(** *** A network and a dataset on integers *)

(** A network on integers: the scores of [x] under the weight [w]. *)
Definition toy_net (w : Z) (images : list Z) : list (list Z) :=
  (fun x => [x; w; (x * x)%Z]) <$> images.

Definition toy_data : list (list Z * list Z) :=
  [([0; 1; 2; 3], [1; 1; 2; 0]); ([5; 1], [2; 2])]%Z.

(** *** The order a sort leaves *)

(** [a] may stand before [b] in the sorted order. *)
Definition in_order {A : Type} (key : A -> nat) (descending : bool) (a b : A) : Prop :=
  precedes descending (key b) (key a) = false.

(** What every [Tensor.sort] does, whatever it does with equal elements:
    the indices are a permutation of the positions, the values are the
    elements at these positions, and the values are in order. *)
Definition sorts (torch_sort : TensorSort) : Prop :=
  forall (t : list nat) (descending : bool),
    let '(values, indices) := torch_sort t descending in
    indices ≡ₚ seq 0 (length t)
    /\ values = (fun i => default 0 (t !! i)) <$> indices
    /\ Sorted (in_order id descending) values.

(** On the lengths of the inputs of a batch, the sort leaves equal lengths
    in their order. *)
Definition keeps_order (torch_sort : TensorSort) (batch : Batch) : Prop :=
  torch_sort (length <$> batch.*1) true = stable_torch_sort (length <$> batch.*1) true.

(** *** The sorted batch and its padded time steps *)

(** The element of a batch at a position, the empty pair beyond its end. *)
Definition pair_at (batch : Batch) (i : nat) : list Z * list Z :=
  default ([], []) (batch !! i).

(** The stable sorting permutation of a batch: the positions, sorted by
    the length of the input they hold, equal lengths in their order. *)
Definition sort_perm (batch : Batch) : list nat :=
  stable_sort (fun i => length (pair_at batch i).1) true (seq 0 (length batch)).

(** The time steps [pad_sequence] lays out, for a given number of steps. *)
Definition pad_rows {A : Type} (padding_value : A) (sequences : list (list A)) (steps : nat)
  : list (list A) :=
  (fun t => (fun s => default padding_value (s !! t)) <$> sequences) <$> seq 0 steps.

(** The inputs in the order of a permutation of the positions, their
    lengths, and the longest length. *)
Definition sorted_inputs (batch : Batch) (perm : list nat) : list (list Z) :=
  (pair_at batch <$> perm).*1.

Definition sorted_lens (batch : Batch) (perm : list nat) : list nat :=
  (fun i => length (pair_at batch i).1) <$> perm.

Definition longest (batch : Batch) : nat := max_list (length <$> batch.*1).

(** *** One sequence of a padded batch *)

(** Sequence [j] of a batch laid out in time steps: the elements the steps
    hold at position [j]. *)
Definition column {X : Type} (j : nat) (input : list (list X)) : list X :=
  omap (fun step_input => step_input !! j) input.

(** [test_embedded], when there is a batch. *)
Definition embedded_rows {X : Type} (embedding : Z -> X) (test_inputs : list (list Z))
  : list (list X) :=
  (fun step : list Z => embedding <$> step)
    <$> pad_rows 0%Z test_inputs (max_list (length <$> test_inputs)).

(** *** Stripped keys *)

(** No position of a string starts a match of [_[\d\w]+]. *)
Fixpoint clean (ucd : Unicode) (s : str) : bool :=
  match s with
  | [] => true
  | c :: rest =>
      match Re.match_len ucd s with
      | None => clean ucd rest
      | Some _ => false
      end
  end.

(** *** Training *)

Section TrainNotions.

Context {State Images Labels Output Loss F : Type}.

Variable zero_grad : State -> State.
Variable model : State -> Images -> result (State * Output).
Variable loss_function : Output -> Labels -> result Loss.
Variable backward : State -> Loss -> result State.
Variable step : State -> result State.
Variable item : Loss -> F.
Variable fzero : F.
Variable fadd : F -> F -> F.
Variable fdiv : F -> nat -> F.

(** The batches of an epoch one after the other, when none raises: the
    state they leave and the loss of each. *)
Fixpoint run_batches (st : State) (batches : list (Images * Labels))
  : result (State * list F) :=
  match batches with
  | [] => Ok (st, [])
  | batch :: rest =>
      let* (st, loss) := train_batch zero_grad model loss_function backward step item st batch in
      let* (st, losses) := run_batches st rest in
      Ok (st, loss :: losses)
  end.

(** The epochs one after the other, when no batch raises: the state they
    leave and the losses of each epoch. *)
Fixpoint run_epochs (st : State) (training_data : nat -> list (Images * Labels))
  (epoch remaining : nat) : result (State * list (list F)) :=
  match remaining with
  | 0 => Ok (st, [])
  | S remaining =>
      let* (st, losses) := run_batches st (training_data epoch) in
      let* (st, rest) := run_epochs st training_data (S epoch) remaining in
      Ok (st, losses :: rest)
  end.

(** The progress lines for the losses of an epoch: one for every full
    thousand of batches, with the number of batches so far and the sum of
    the losses of the last thousand, taken from zero in their order, over a
    thousand. *)
Definition progress_lines (losses : list F) : list (line F) :=
  (fun k => Progress (1000 * (k + 1))
              (fdiv (foldl fadd fzero (take 1000 (drop (1000 * k) losses))) 1000))
    <$> seq 0 (length losses / 1000).

(** The lines of an epoch. *)
Definition epoch_lines (epoch : nat) (losses : list F) : list (line F) :=
  Epoch (epoch + 1) :: progress_lines losses.

End TrainNotions.

(** *** The states of a sequence *)

(** The states the recurrence takes a sequence through: the one after its
    first element, after its second, and so on. *)
Fixpoint states {X H : Type} (cell : H -> X -> H) (h : H) (xs : list X) : list H :=
  match xs with
  | [] => []
  | x :: xs => cell h x :: states cell (cell h x) xs
  end.

(** * Properties *)

(** ** Results *)

Lemma bind_Ok {A B : Type} (r : result A) (k : A -> result B) (b : B) :
  bind r k = Ok b <-> exists a, r = Ok a /\ k a = Ok b.
Proof.
  destruct r as [a|e]; simpl; split.
  - intros Hk. by exists a.
  - by intros (a' & [= <-] & Hk).
  - intros [=].
  - by intros (a' & [=] & _).
Qed.

Lemma bind_Raise {A B : Type} (r : result A) (k : A -> result B) (e : exn) :
  bind r k = Raise e <-> r = Raise e \/ exists a, r = Ok a /\ k a = Raise e.
Proof.
  destruct r as [a|e']; simpl; split.
  - intros Hk. right. by exists a.
  - by intros [[=] | (a' & [= <-] & Hk)].
  - intros [= ->]. by left.
  - by intros [[= ->] | (a' & [=] & _)].
Qed.

Lemma raises_raisesb {A : Type} (c : exn_class) (r : result A) :
  raises c r <-> raisesb c r = true.
Proof.
  unfold raises, raisesb. destruct r as [a|e].
  - split; [by intros (e & [=] & _) | intros [=]].
  - split.
    + intros (e' & [= <-] & <-). by destruct (class_of e).
    + intros Hb. exists e. split; [done|].
      by destruct (class_of e), c.
Qed.

Lemma traverse_Ok {A B : Type} (f : A -> result B) (l : list A) (bs : list B) :
  traverse f l = Ok bs <-> Forall2 (fun a b => f a = Ok b) l bs.
Proof.
  revert bs. induction l as [|a l IH]; intros bs; simpl.
  - split; [intros [= <-]; constructor | by intros ->%Forall2_nil_inv_l].
  - rewrite bind_Ok. split.
    + intros (b & Hb & (bs' & Hbs & [= <-])%bind_Ok).
      constructor; [done | by apply IH].
    + intros (b & bs' & Hb & Hbs & ->)%Forall2_cons_inv_l.
      exists b. split; [done|]. apply bind_Ok. exists bs'. split; [by apply IH | done].
Qed.

Lemma traverse_Raise {A B : Type} (f : A -> result B) (l : list A) (e : exn) :
  traverse f l = Raise e <->
  exists l1 a l2 bs, l = l1 ++ a :: l2 /\ traverse f l1 = Ok bs /\ f a = Raise e.
Proof.
  induction l as [|a l IH]; simpl.
  - split; [intros [=] | by intros ([|??] & ? & ? & ? & [=] & _)].
  - rewrite bind_Raise. split.
    + intros [Ha | (b & Hb & [Hl | (bs & Hbs & [=])]%bind_Raise)].
      * by exists [], a, l, [].
      * apply IH in Hl as (l1 & a' & l2 & bs & -> & Hl1 & Ha').
        exists (a :: l1), a', l2, (b :: bs). simpl. rewrite Hb, Hl1. done.
    + intros ([|a0 l1] & a' & l2 & bs & [= <- Hl] & Hl1 & Ha'); [by left|].
      subst l. right. simpl in Hl1.
      apply bind_Ok in Hl1 as (b & Hb & (bs' & Hbs & _)%bind_Ok).
      exists b. split; [done|]. apply bind_Raise. left.
      apply IH. by exists l1, a', l2, bs'.
Qed.

Lemma traverse_total {A B : Type} (f : A -> result B) (l : list A) :
  Forall (fun a => exists b, f a = Ok b) l -> exists bs, traverse f l = Ok bs.
Proof.
  induction 1 as [|a l [b Hb] _ [bs Hbs]]; simpl.
  - by exists [].
  - exists (b :: bs). by rewrite Hb, Hbs.
Qed.

(** ** The regular expression on the keys of the notebook *)

Lemma class_run_all (ucd : Unicode) (s : str) :
  all_chars (Re.in_class ucd) s = true -> Re.class_run ucd s = length s.
Proof.
  unfold all_chars. induction s as [|c s IH]; [done|]. simpl.
  intros [-> Hs]%andb_prop. by rewrite IH.
Qed.

Lemma sub_from_skip (ucd : Unicode) (k : nat) (s : str) :
  length s <= k -> Re.sub_from ucd k s = [].
Proof.
  revert k. induction s as [|c s IH]; intros k Hk; [done|].
  simpl in *. destruct k as [|k]; [lia|]. apply IH. lia.
Qed.

(** X1.  A key made of a layer type without underscore, an underscore and
    an index of letters, digits and underscores is stripped to the layer
    type, which is what lets a configuration repeat a layer type. *)
Lemma sub_suffix (ucd : Unicode) (layer_type index : str) :
  all_chars (fun c => negb (c =? Re.underscore)%N) layer_type = true ->
  index <> [] ->
  all_chars (Re.in_class ucd) index = true ->
  Re.sub ucd (layer_type ++ Re.underscore :: index) = layer_type.
Proof.
  intros Htype Hindex Hclass. unfold Re.sub.
  induction layer_type as [|c layer_type IH].
  - cbn [app Re.sub_from Re.match_len]. rewrite N.eqb_refl, (class_run_all _ _ Hclass).
    destruct index as [|d index]; [done|]. cbn [length].
    apply sub_from_skip. simpl. lia.
  - unfold all_chars in Htype. simpl in Htype.
    apply andb_prop in Htype as [Hc Htype]. apply negb_true_iff in Hc.
    change (Re.sub_from ucd 0 (c :: (layer_type ++ Re.underscore :: index)) = c :: layer_type).
    cbn [Re.sub_from Re.match_len]. rewrite Hc. by rewrite IH.
Qed.

(** On a key of ASCII characters the database is never asked. *)
Lemma in_class_ascii (ucd1 ucd2 : Unicode) (c : N) :
  (c < 128)%N -> Re.in_class ucd1 c = Re.in_class ucd2 c.
Proof.
  intros Hc. unfold Re.in_class, Re.is_digit, Re.is_word.
  by apply N.ltb_lt in Hc as ->.
Qed.

Lemma class_run_ascii (ucd1 ucd2 : Unicode) (s : str) :
  Forall (fun c => (c < 128)%N) s -> Re.class_run ucd1 s = Re.class_run ucd2 s.
Proof.
  induction 1 as [|c s Hc _ IH]; [done|]. simpl.
  by rewrite (in_class_ascii ucd1 ucd2 c Hc), IH.
Qed.

Lemma sub_ascii (ucd1 ucd2 : Unicode) (s : str) :
  Forall (fun c => (c < 128)%N) s -> Re.sub ucd1 s = Re.sub ucd2 s.
Proof.
  intros Hs. unfold Re.sub. generalize 0.
  induction Hs as [|c s Hc Hs IH]; intros skip; [done|]. simpl.
  destruct skip as [|k]; [|apply IH].
  rewrite (class_run_ascii ucd1 ucd2 s Hs).
  destruct (c =? Re.underscore)%N; [|by rewrite IH].
  destruct (Re.class_run ucd2 s); by rewrite IH.
Qed.

Section ReExamples.

Variable ucd : Unicode.

Example sub_Conv2d_1 : Re.sub ucd (lit "Conv2d_1") = lit "Conv2d".
Proof. reflexivity. Qed.

Example sub_Tanh_1a : Re.sub ucd (lit "Tanh_1a") = lit "Tanh".
Proof. reflexivity. Qed.

Example sub_AvgPool2d_2 : Re.sub ucd (lit "AvgPool2d_2") = lit "AvgPool2d".
Proof. reflexivity. Qed.

Example sub_no_suffix : Re.sub ucd (lit "Sigmoid") = lit "Sigmoid".
Proof. reflexivity. Qed.

Example sub_lone_underscore : Re.sub ucd (lit "Conv2d_") = lit "Conv2d_".
Proof. reflexivity. Qed.

Example sub_every_match : Re.sub ucd (lit "a_b-c_d__e_") = lit "a-c".
Proof. reflexivity. Qed.

(** A key with a letter beyond ASCII in its index, [Conv2d_é]: the letter
    is alphanumeric, and the index is stripped with it. *)
Example sub_beyond_ascii :
  isalnum ucd 233 = true -> Re.sub ucd (lit "Conv2d_" ++ [233%N]) = lit "Conv2d".
Proof.
  intros Hletter. unfold Re.sub. cbn -[Re.in_class].
  unfold Re.in_class, Re.is_word. simpl. by rewrite Hletter, orb_true_r.
Qed.

End ReExamples.

(** ** The dictionary *)

Lemma keys_setitem {V : Type} (d : OrderedDict V) (key : str) (v : V) :
  keys (setitem d key v) = if bool_decide (key ∈ keys d) then keys d else keys d ++ [key].
Proof.
  unfold keys. induction d as [|[k w] d IH]; [done|].
  cbn [setitem]. destruct (decide (k = key)) as [-> | Hk].
  - rewrite (bool_decide_eq_true_2 (key = key)) by done.
    rewrite bool_decide_eq_true_2; [done|]. rewrite fmap_cons. by left.
  - rewrite (bool_decide_eq_false_2 (k = key)) by done.
    rewrite !fmap_cons, IH. cbn [fst].
    destruct (bool_decide (key ∈ d.*1)) eqn:Hin.
    + apply bool_decide_eq_true_1 in Hin. rewrite bool_decide_eq_true_2; [done|]. by right.
    + apply bool_decide_eq_false_1 in Hin. rewrite bool_decide_eq_false_2; [done|].
      intros [? | ?]%elem_of_cons; [by subst | done].
Qed.

(** Assignments keep the keys of a dictionary distinct. *)
Lemma setitem_NoDup {V : Type} (d : OrderedDict V) (key : str) (v : V) :
  NoDup (keys d) -> NoDup (keys (setitem d key v)).
Proof.
  intros Hd. rewrite keys_setitem. case_bool_decide as Hin; [done|].
  apply NoDup_app. split; [done|]. split; [|apply NoDup_singleton].
  intros k Hk ->%list_elem_of_singleton. done.
Qed.

Lemma foldl_setitem_NoDup {V : Type} (entries : list (str * V)) (d : OrderedDict V) :
  NoDup (keys d) -> NoDup (keys (foldl (fun d '(k, v) => setitem d k v) d entries)).
Proof.
  revert d. induction entries as [|[k v] entries IH]; intros d Hd; [done|].
  simpl. by apply IH, setitem_NoDup.
Qed.

Example lenet5_arch_keys : NoDup (keys lenet5_arch) /\ length (items lenet5_arch) = 14.
Proof.
  split; [|reflexivity]. apply foldl_setitem_NoDup. constructor.
Qed.



(** ** [ConvNet.__init__] *)

Section InitFacts.

Variable ucd : Unicode.
Variable refuses : Layer -> option exn_class.

Lemma init_loop_traverse (entries : list (str * Params)) (acc : list Layer) :
  init_loop ucd refuses entries acc
  = let* ls := traverse (entry_layer ucd refuses) entries in Ok (acc ++ ls).
Proof.
  revert acc. induction entries as [|[k p] entries IH]; intros acc; simpl.
  - by rewrite app_nil_r.
  - unfold entry_layer at 1. simpl.
    destruct (make_layer refuses (Re.sub ucd k) p) as [l|e]; simpl; [|done].
    rewrite IH. destruct (traverse (entry_layer ucd refuses) entries) as [ls|e]; simpl; [|done].
    by rewrite <- app_assoc.
Qed.

Lemma ConvNet_init_traverse (arch_dict : OrderedDict Params) :
  ConvNet_init ucd refuses arch_dict =
  let* ls := traverse (entry_layer ucd refuses) (items arch_dict) in Ok {| layers := ls |}.
Proof.
  unfold ConvNet_init. rewrite init_loop_traverse.
  by destruct (traverse (entry_layer ucd refuses) (items arch_dict)).
Qed.

(** The layer is the call of the chain, when the constructor accepts it. *)
Lemma make_layer_Ok (t : str) (p : Params) (layer : Layer) :
  make_layer refuses t p = Ok layer <-> layer_call t p = Ok layer /\ refuses layer = None.
Proof.
  unfold make_layer, new. destruct (layer_call t p) as [l|e]; simpl.
  - destruct (refuses l) eqn:Hl; split.
    + intros [=].
    + intros [[= ->] Hnone]. congruence.
    + intros [= ->]. done.
    + by intros [[= ->] _].
  - split; [intros [=] | by intros [[=] _]].
Qed.

End InitFacts.

Lemma handled_cases (t : str) :
  t ∈ handled ->
  t = lit "Conv2d" \/ t = lit "AvgPool2d" \/ t = lit "MaxPool2d" \/ t = lit "Flatten"
  \/ t = lit "Linear" \/ t = lit "ReLU" \/ t = lit "Sigmod" \/ t = lit "Tanh".
Proof.
  unfold handled. rewrite !elem_of_cons, elem_of_nil. tauto.
Qed.

Lemma layer_call_unhandled (t : str) (p : Params) :
  t ∉ handled -> layer_call t p = Raise (UnsupportedLayerType t).
Proof.
  intros Hn. unfold layer_call.
  repeat (case_bool_decide as Ht;
          [exfalso; apply Hn; rewrite Ht; unfold handled; repeat constructor|clear Ht]).
  done.
Qed.

Lemma layer_call_unpackable (t : str) (p : Params) :
  t ∈ handled -> unpackable t p -> exists layer, layer_call t p = Ok layer.
Proof.
  intros Ht%handled_cases Hp.
  destruct Ht as [-> | [-> | [-> | [-> | [-> | [-> | [-> | ->]]]]]]];
    (destruct Hp as [H0 | (l & -> & Hl)];
     [try discriminate H0; by eexists
     |vm_compute in Hl;
      repeat (destruct l as [|? l]; simpl in Hl; try discriminate Hl);
      by eexists]).
Qed.

Lemma matching_arity_unpackable (t : str) (p : Params) :
  matching_arity t p -> unpackable t p.
Proof.
  destruct p as [l|]; simpl; [|by left].
  intros Hl. right. by exists l.
Qed.

Lemma layer_call_matching (t : str) (p : Params) :
  t ∈ handled -> matching_arity t p ->
  exists layer, layer_call t p = Ok layer
    /\ class_name layer = class_for t /\ ctor_args layer = elems p.
Proof.
  intros Ht%handled_cases Hp.
  destruct Ht as [-> | [-> | [-> | [-> | [-> | [-> | [-> | ->]]]]]]];
    destruct p as [l|]; vm_compute in Hp; try discriminate Hp;
    repeat (destruct l as [|? l]; simpl in Hp; try discriminate Hp);
    by eexists.
Qed.

Lemma make_layer_unhandled (refuses : Layer -> option exn_class) (t : str) (p : Params) :
  t ∉ handled -> make_layer refuses t p = Raise (UnsupportedLayerType t).
Proof.
  intros Hn. unfold make_layer. by rewrite layer_call_unhandled.
Qed.

Lemma make_layer_builds (refuses : Layer -> option exn_class) (t : str) (p : Params) :
  t ∈ handled -> unpackable t p -> accepted refuses t p ->
  exists layer, make_layer refuses t p = Ok layer.
Proof.
  intros Ht Hp Haccepted.
  destruct (layer_call_unpackable t p Ht Hp) as [layer Hlayer].
  exists layer. apply make_layer_Ok. split; [done | by apply Haccepted].
Qed.

(** The module list the notebook prints for [ConvNet(lenet5_arch)]. *)
Example lenet5_layers :
  ConvNet_init ascii_only example_nn lenet5_arch =
  Ok {| layers :=
          [Conv2d 1 6 5 1 2; Tanh; AvgPool2d 2 2 0; Tanh;
           Conv2d 6 16 5 1 0; Tanh; AvgPool2d 2 2 0; Tanh;
           Flatten;
           Linear 400 120; Tanh; Linear 120 84; Tanh; Linear 84 10] |}.
Proof. reflexivity. Qed.

(** C1, as the code has it.  When every key of the architecture
    dictionary, stripped of its suffix, is one of the eight handled strings
    and comes with parameters of the matching arity, which the constructor
    of its layer accepts, [ConvNet.__init__] returns, and its list of layers
    has one layer per entry, in the order of the entries: the layer at
    position [i] is of the class the stripped key of entry [i] stands for
    (the key [Sigmod] stands for [Sigmoid]) and was constructed with the
    parameters of that entry, in their order. *)
Theorem ConvNet_init_builds_layers (ucd : Unicode) (refuses : Layer -> option exn_class)
  (arch_dict : OrderedDict Params) :
  (forall k p, (k, p) ∈ items arch_dict ->
     Re.sub ucd k ∈ handled
     /\ matching_arity (Re.sub ucd k) p
     /\ accepted refuses (Re.sub ucd k) p) ->
  exists net,
    ConvNet_init ucd refuses arch_dict = Ok net
    /\ length (layers net) = length (items arch_dict)
    /\ forall i k p, items arch_dict !! i = Some (k, p) ->
         exists layer,
           layers net !! i = Some layer
           /\ class_name layer = class_for (Re.sub ucd k)
           /\ ctor_args layer = elems p.
Proof.
  intros Hok. rewrite ConvNet_init_traverse.
  destruct (traverse_total (entry_layer ucd refuses) (items arch_dict)) as [ls Hls].
  { apply Forall_forall. intros [k p] Hin.
    destruct (Hok k p Hin) as (Hk & Hp & Haccepted).
    apply make_layer_builds; [done | by apply matching_arity_unpackable | done]. }
  exists {| layers := ls |}. rewrite Hls. simpl.
  apply traverse_Ok in Hls. split; [done|].
  split; [symmetry; exact (Forall2_length _ _ _ Hls)|].
  intros i k p Hi.
  destruct (Forall2_lookup_l _ _ _ _ _ Hls Hi) as (layer & Hlayer & Hmake).
  exists layer. split; [done|].
  destruct (Hok k p) as (Hk & Hp & _); [by eapply list_elem_of_lookup_2|].
  destruct (layer_call_matching _ _ Hk Hp) as (layer' & Hl' & Hc & Ha).
  apply make_layer_Ok in Hmake as [Hcall _]. simpl in Hcall.
  rewrite Hcall in Hl'. injection Hl' as <-. by split.
Qed.

Lemma ConvNet_init_builds_layers_witness :
  exists net,
    ConvNet_init ascii_only example_nn lenet5_arch = Ok net
    /\ length (layers net) = length (items lenet5_arch)
    /\ forall i k p, items lenet5_arch !! i = Some (k, p) ->
         exists layer,
           layers net !! i = Some layer
           /\ class_name layer = class_for (Re.sub ascii_only k)
           /\ ctor_args layer = elems p.
Proof.
  apply (ConvNet_init_builds_layers ascii_only example_nn lenet5_arch).
  intros k p Hin. vm_compute in Hin.
  repeat (apply elem_of_cons in Hin as [[= -> ->] | Hin];
          [split; [vm_compute; repeat constructor
                  |split; [reflexivity
                          |intros layer Hcall; vm_compute in Hcall;
                           injection Hcall as <-; reflexivity]]|]).
  by apply elem_of_nil in Hin.
Defined.

(** C1 as it was claimed fails where a constructor refuses its
    parameters: the key [Linear_1] with the tuple [(-3, 4)] is a handled key
    with a tuple of the matching arity, and [nn.Linear(-3, 4)] raises
    [RuntimeError], which leaves [__init__]. *)
Lemma ConvNet_init_builds_layers_counterexample :
  Forall (fun entry => Re.sub ascii_only entry.1 ∈ handled
                       /\ matching_arity (Re.sub ascii_only entry.1) entry.2)
    [(lit "Linear_1", Some [-3; 4]%Z)]
  /\ ConvNet_init ascii_only example_nn [(lit "Linear_1", Some [-3; 4]%Z)]
     = Raise (ConstructorError RuntimeError)
  /\ class_of (ConstructorError RuntimeError) = RuntimeError.
Proof.
  split; [|split; reflexivity].
  repeat constructor.
Qed.

(** ** [ConvNet.forward] *)

Lemma forward_loop_foldl {Tensor : Type} (call : Layer -> Tensor -> result Tensor)
  (ls : list Layer) (r : result Tensor) :
  (let* x := r in forward_loop call ls x)
  = foldl (fun r layer => let* x := r in call layer x) r ls.
Proof.
  revert r. induction ls as [|layer ls IH]; intros r; simpl.
  - by destruct r.
  - rewrite <- IH. by destruct r.
Qed.

Lemma forward_loop_chain {Tensor : Type} (call : Layer -> Tensor -> result Tensor)
  (ls : list Layer) (x y : Tensor) :
  forward_loop call ls x = Ok y <->
  exists xs, chain call ls xs /\ xs !! 0 = Some x /\ xs !! length ls = Some y.
Proof.
  revert x. induction ls as [|layer ls IH]; intros x; simpl.
  - split.
    + intros [= <-]. exists [x]. split; [|done].
      split; [done|]. intros i layer. by rewrite lookup_nil.
    + intros (xs & _ & H0 & Hy). congruence.
  - rewrite bind_Ok. split.
    + intros (x' & Hcall & (xs & [Hlen Hxs] & H0 & Hy)%IH).
      exists (x :: xs). split; [split|done].
      * simpl. by rewrite Hlen.
      * intros [|i] l Hl; simpl in *.
        -- injection Hl as <-. by exists x, x'.
        -- by apply Hxs.
    + intros ([|x0 xs] & [Hlen Hxs] & H0 & Hy); [done|].
      injection H0 as ->. simpl in Hy.
      destruct (Hxs 0 layer eq_refl) as (a & b & Ha & Hb & Hcall).
      injection Ha as <-. simpl in Hb.
      exists b. split; [done|]. apply IH. exists xs. split; [split|done].
      * simpl in Hlen. lia.
      * intros i l Hl. apply (Hxs (S i) l Hl).
Qed.

(** C2.  For a network constructed from a dictionary, [forward] is the
    composition of its layers from left to right: the layers are the ones
    built from the entries, in their order, the input goes to the first, the
    output of each is the input of the next, and the output of the last is
    returned; an exception of a layer ends the pass. *)
Theorem ConvNet_forward_sequential {Tensor : Type}
  (ucd : Unicode) (refuses : Layer -> option exn_class)
  (call : Layer -> Tensor -> result Tensor)
  (arch_dict : OrderedDict Params) (net : ConvNet) (x : Tensor) :
  ConvNet_init ucd refuses arch_dict = Ok net ->
  Forall2 (fun entry layer => entry_layer ucd refuses entry = Ok layer)
    (items arch_dict) (layers net)
  /\ ConvNet_forward call net x
     = foldl (fun r layer => let* x := r in call layer x) (Ok x) (layers net)
  /\ forall y, ConvNet_forward call net x = Ok y <->
       exists xs, chain call (layers net) xs
                  /\ xs !! 0 = Some x /\ xs !! length (layers net) = Some y.
Proof.
  intros Hinit. rewrite ConvNet_init_traverse in Hinit.
  apply bind_Ok in Hinit as (ls & Hls & [= <-]). simpl.
  split; [by apply traverse_Ok|]. unfold ConvNet_forward. simpl. split.
  - by rewrite <- forward_loop_foldl.
  - intros y. apply forward_loop_chain.
Qed.

Lemma ConvNet_forward_sequential_witness :
  exists net,
    ConvNet_init ascii_only example_nn lenet5_arch = Ok net
    /\ ConvNet_forward toy_call net 1%Z
       = foldl (fun r layer => let* x := r in toy_call layer x) (Ok 1%Z) (layers net).
Proof.
  eexists. split; [reflexivity|].
  exact (proj1 (proj2 (ConvNet_forward_sequential ascii_only example_nn toy_call
                         lenet5_arch _ 1%Z eq_refl))).
Defined.

(** C10.  The network of the empty dictionary has no layer, and its
    forward pass returns its input. *)
Theorem ConvNet_empty {Tensor : Type} (ucd : Unicode) (refuses : Layer -> option exn_class)
  (call : Layer -> Tensor -> result Tensor) (x : Tensor) :
  ConvNet_init ucd refuses [] = Ok {| layers := [] |}
  /\ ConvNet_forward call {| layers := [] |} x = Ok x.
Proof. split; reflexivity. Qed.

(** ** The exceptions of [ConvNet.__init__] *)

Lemma handled_dec (t : str) : {t ∈ handled} + {t ∉ handled}.
Proof. destruct (decide (t ∈ handled)); [by left | by right]. Qed.

Lemma traverse_entry_layer_unhandled (ucd : Unicode) (refuses : Layer -> option exn_class)
  (entries : list (str * Params)) :
  (forall k p, (k, p) ∈ entries -> Re.sub ucd k ∈ handled ->
     unpackable (Re.sub ucd k) p /\ accepted refuses (Re.sub ucd k) p) ->
  (exists k p, (k, p) ∈ entries /\ Re.sub ucd k ∉ handled) ->
  exists t, traverse (entry_layer ucd refuses) entries = Raise (UnsupportedLayerType t).
Proof.
  induction entries as [|[k p] entries IH]; intros Hok (k' & p' & Hin & Hn).
  - by apply elem_of_nil in Hin.
  - simpl. unfold entry_layer at 1. simpl.
    destruct (handled_dec (Re.sub ucd k)) as [Hk | Hk].
    + destruct (make_layer_builds refuses _ p Hk) as [layer ->].
      { apply Hok; [left | done]. }
      { apply Hok; [left | done]. }
      simpl. destruct IH as [t ->].
      * intros k0 p0 Hin0. apply Hok. by right.
      * exists k', p'. split; [|done].
        apply elem_of_cons in Hin as [[= -> ->] | Hin]; [done | done].
      * by exists t.
    + rewrite (make_layer_unhandled refuses _ p Hk). by eexists.
Qed.

(** C3, as the code has it.  When every entry with a handled key has
    parameters the branch of its key can unpack and the constructor of its
    layer accepts, [ConvNet.__init__] raises [ValueError] exactly when some
    key, stripped of its suffix, is not one of the eight handled strings.
    In particular an entry whose stripped key is [Sigmoid] raises
    [ValueError]: the docstring lists [Sigmoid], the chain of comparisons
    has [Sigmod] in its place. *)
Theorem ConvNet_init_ValueError (ucd : Unicode) (refuses : Layer -> option exn_class)
  (arch_dict : OrderedDict Params) :
  (forall k p, (k, p) ∈ items arch_dict -> Re.sub ucd k ∈ handled ->
     unpackable (Re.sub ucd k) p /\ accepted refuses (Re.sub ucd k) p) ->
  (raises ValueError (ConvNet_init ucd refuses arch_dict) <->
   exists k p, (k, p) ∈ items arch_dict /\ Re.sub ucd k ∉ handled)
  /\ ((exists k p, (k, p) ∈ items arch_dict /\ Re.sub ucd k = lit "Sigmoid") ->
      raises ValueError (ConvNet_init ucd refuses arch_dict))
  /\ (lit "Sigmoid" ∈ documented) /\ (lit "Sigmoid" ∉ handled) /\ (lit "Sigmod" ∈ handled).
Proof.
  intros Hok.
  assert (Hunhandled : (exists k p, (k, p) ∈ items arch_dict /\ Re.sub ucd k ∉ handled) ->
                       raises ValueError (ConvNet_init ucd refuses arch_dict)).
  { intros Hex. rewrite ConvNet_init_traverse.
    destruct (traverse_entry_layer_unhandled ucd refuses _ Hok Hex) as [t ->].
    by eexists. }
  assert (Hsig : lit "Sigmoid" ∉ handled).
  { intros Hin%handled_cases. by repeat destruct Hin as [? | Hin]. }
  split; [split; [|done]|split; [|split; [|split; [done|]]]].
  - intros (e & Hinit & Hclass). rewrite ConvNet_init_traverse in Hinit.
    apply bind_Raise in Hinit as [Htr | (ls & _ & [=])].
    apply traverse_Raise in Htr as (l1 & [k p] & l2 & bs & Hl & _ & Hmake).
    exists k, p. split.
    { rewrite Hl. apply elem_of_app. right. left. }
    intros Hk. destruct (make_layer_builds refuses _ p Hk) as [layer Hlayer].
    { apply Hok; [|done]. rewrite Hl. apply elem_of_app. right. left. }
    { apply Hok; [|done]. rewrite Hl. apply elem_of_app. right. left. }
    unfold entry_layer in Hmake. simpl in Hmake. congruence.
  - intros (k & p & Hin & Hk). apply Hunhandled. exists k, p. by rewrite Hk.
  - unfold documented. repeat constructor.
  - unfold handled. repeat constructor.
Qed.

Lemma ConvNet_init_ValueError_witness :
  let arch_dict := [(lit "Conv2d_1", Some [1; 6; 5; 1; 2]%Z); (lit "Sigmoid_1", None)] in
  ConvNet_init ascii_only example_nn arch_dict = Raise (UnsupportedLayerType (lit "Sigmoid"))
  /\ (raises ValueError (ConvNet_init ascii_only example_nn arch_dict) <->
      exists k p, (k, p) ∈ items arch_dict /\ Re.sub ascii_only k ∉ handled).
Proof.
  split; [reflexivity|].
  apply (ConvNet_init_ValueError ascii_only example_nn
           [(lit "Conv2d_1", Some [1; 6; 5; 1; 2]%Z); (lit "Sigmoid_1", None)]).
  intros k p Hin Hk.
  apply elem_of_cons in Hin as [[= -> ->] | Hin].
  - split.
    + right. eexists. split; reflexivity.
    + intros layer Hcall. vm_compute in Hcall. injection Hcall as <-. reflexivity.
  - apply elem_of_cons in Hin as [[= -> ->] | Hin].
    + split; [by left|].
      intros layer Hcall. vm_compute in Hcall. discriminate Hcall.
    + by apply elem_of_nil in Hin.
Defined.

(** C3 as it was claimed fails in both directions.  A handled key with a
    tuple of the wrong length raises [ValueError] from the unpacking, with
    no unhandled key in the dictionary.  And the exceptions that come before
    an unhandled key is reached are of other classes: [None] given to a
    layer with parameters raises [TypeError] from the unpacking, and a tuple
    the constructor refuses, as [nn.Linear(-3, 4)] does, raises
    [RuntimeError]. *)
Lemma ConvNet_init_ValueError_counterexample :
  (ConvNet_init ascii_only example_nn [(lit "Conv2d_1", Some [1; 6; 5]%Z)]
   = Raise (UnpackLength 5 3)
   /\ class_of (UnpackLength 5 3) = ValueError
   /\ Forall (fun entry => Re.sub ascii_only entry.1 ∈ handled)
        [(lit "Conv2d_1", Some [1; 6; 5]%Z)])
  /\ (ConvNet_init ascii_only example_nn [(lit "Linear_1", None); (lit "Softmax", None)]
      = Raise UnpackNone
      /\ class_of UnpackNone = TypeError
      /\ Exists (fun entry => Re.sub ascii_only entry.1 ∉ handled)
           [(lit "Linear_1", None : Params); (lit "Softmax", None)])
  /\ (ConvNet_init ascii_only example_nn
        [(lit "Linear_1", Some [-3; 4]%Z); (lit "Softmax", None)]
      = Raise (ConstructorError RuntimeError)
      /\ class_of (ConstructorError RuntimeError) = RuntimeError
      /\ Exists (fun entry => Re.sub ascii_only entry.1 ∉ handled)
           [(lit "Linear_1", Some [-3; 4]%Z); (lit "Softmax", None)]).
Proof.
  assert (Hsoftmax : Re.sub ascii_only (lit "Softmax") ∉ handled).
  { vm_compute. intros Hin%handled_cases. by repeat destruct Hin as [? | Hin]. }
  split; [|split]; (split; [reflexivity | split; [reflexivity|]]).
  - repeat constructor.
  - right. by left.
  - right. by left.
Qed.

(** ** [Flatten.forward] *)

Lemma offset_lt (shape idx : list nat) :
  Forall2 lt idx shape -> offset shape idx < numel shape.
Proof.
  intros Hlt. induction Hlt as [|i d idx shape Hi _ IH]; simpl.
  - unfold numel. simpl. lia.
  - change (foldr Nat.mul 1 shape) with (numel shape) in *.
    change (numel (d :: shape)) with (d * numel shape). nia.
Qed.

Lemma infer_size_flatten (d0 n : nat) :
  0 < d0 ->
  infer_size [Z.of_nat d0; (-1)%Z] (d0 * n) = Ok [d0; n].
Proof.
  intros Hd0. unfold infer_size.
  assert (Hfilter : filter (fun d => d ≠ (-1)%Z) [Z.of_nat d0; (-1)%Z] = [Z.of_nat d0]).
  { rewrite filter_cons_True by lia. by rewrite filter_cons_False, filter_nil by (intros ?; done). }
  rewrite Hfilter. simpl. rewrite Nat2Z.id, Nat.mul_1_r.
  rewrite bool_decide_eq_false_2.
  2:{ rewrite Exists_cons, Exists_cons, Exists_nil. lia. }
  rewrite (bool_decide_eq_false_2 (d0 = 0)) by lia.
  rewrite bool_decide_eq_true_2.
  2:{ rewrite Nat.mul_comm. apply Nat.Div0.mod_mul. }
  rewrite (bool_decide_eq_false_2 (Z.of_nat d0 = (-1)%Z)) by lia.
  do 3 f_equal.
  rewrite Nat.mul_comm. apply Nat.div_mul. lia.
Qed.

(** C9, as the code has it.  For a contiguous input with at least one
    dimension whose first dimension is not zero, [Flatten.forward] returns a
    contiguous tensor of size [(x.size(0), n)], [n] the product of the other
    dimensions, with the elements of [x] in their order: the element of [x]
    at [(i, i1, ..)] is the element of the result at [(i, j)], [j] the
    row-major position of [(i1, ..)]. *)
Theorem Flatten_forward_shape {A : Type} (strided : Tensor A -> list nat -> option bool)
  (x : Tensor A) (d0 : nat) (rest : list nat) :
  size x = d0 :: rest ->
  0 < d0 ->
  contiguous x = true ->
  exists y,
    Flatten_forward strided x = Ok y
    /\ size y = [d0; numel rest]
    /\ contents y = contents x
    /\ contiguous y = true
    /\ (well_formed x -> well_formed y)
    /\ forall i idx, Forall2 lt (i :: idx) (size x) ->
         item y [i; offset rest idx] = item x (i :: idx).
Proof.
  intros Hsize Hd0 Hcontiguous.
  exists {| size := [d0; numel rest]; contents := contents x; contiguous := true |}.
  split; [|split; [done|split; [done|split; [done|split]]]].
  - unfold Flatten_forward, size_at, view. rewrite Hsize, Hcontiguous. simpl.
    change (foldr Nat.mul 1 rest) with (numel rest).
    change (numel (d0 :: rest)) with (d0 * numel rest).
    by rewrite infer_size_flatten.
  - unfold well_formed. rewrite Hsize. simpl. intros ->.
    unfold numel. simpl. lia.
  - intros i idx Hidx. unfold item. simpl. rewrite Hsize in *.
    rewrite (bool_decide_eq_true_2 _ Hidx).
    apply Forall2_cons in Hidx as [Hi Hidx].
    rewrite bool_decide_eq_true_2.
    2:{ repeat constructor; [done | by apply offset_lt]. }
    simpl. f_equal. unfold numel at 1. simpl.
    change (foldr Nat.mul 1 rest) with (numel rest). lia.
Qed.

Lemma Flatten_forward_shape_witness :
  exists y,
    Flatten_forward no_view {| size := [2; 3; 2]; contents := seq 0 12; contiguous := true |}
    = Ok y
    /\ size y = [2; 6]
    /\ contents y = seq 0 12
    /\ item y [1; 5] = Some 11.
Proof.
  destruct (Flatten_forward_shape no_view
              {| size := [2; 3; 2]; contents := seq 0 12; contiguous := true |} 2 [3; 2]
              eq_refl ltac:(lia) eq_refl) as (y & Hy & Hsize & Hcontents & _ & _ & Hitem).
  exists y. split; [done|]. split; [done|]. split; [done|].
  transitivity (item {| size := [2; 3; 2]; contents := seq 0 12; contiguous := true |}
                  [1; 2; 1]);
    [|reflexivity].
  apply (Hitem 1 [2; 1]). simpl. repeat constructor.
Defined.

(** C9 as it was claimed fails in two ways.  On an empty batch: for a
    tensor of size [(0, 3)], which has no element, [view(0, -1)] cannot
    infer the second dimension and raises.  And on a tensor that is not
    contiguous: the strides of [permuted], of size [(2, 2, 3)], allow no view
    of size [(2, 6)], and [view] raises. *)
Lemma Flatten_forward_counterexample :
  (well_formed {| size := [0; 3]; contents := @nil Z; contiguous := true |}
   /\ Flatten_forward no_view {| size := [0; 3]; contents := @nil Z; contiguous := true |}
      = Raise ShapeError)
  /\ (well_formed permuted
      /\ size permuted = [2; 2; 3]
      /\ Flatten_forward no_view permuted = Raise ShapeError)
  /\ class_of ShapeError = RuntimeError.
Proof. repeat split. Qed.

(** A tensor without a dimension has no first size to read. *)
Example Flatten_forward_scalar :
  Flatten_forward no_view {| size := []; contents := [7%Z]; contiguous := true |}
  = Raise IndexErr.
Proof. reflexivity. Qed.

(** ** [evaluate] *)

Section EvaluateFacts.

Context {Images Weights Score : Type}.
Variable net : Weights -> Images -> list (list Score).
Variable gtb : Score -> Score -> bool.

Lemma tensor_sum_cons (b : bool) (t : list bool) :
  tensor_sum (b :: t) = (if b then 1 else 0) + tensor_sum t.
Proof.
  unfold tensor_sum. destruct b.
  - by rewrite filter_cons_True.
  - by rewrite filter_cons_False.
Qed.

(** One batch: the predictions exist, and the matches the code sums are
    the correct samples of the batch. *)
Lemma batch_matches (rows : list (list Score)) (truth : list Z) :
  Forall (fun row => row ≠ []) rows ->
  length rows = length truth ->
  exists predicted,
    torch_max_dim1 gtb rows = Ok predicted
    /\ length predicted = length truth
    /\ tensor_sum (zip_with Z.eqb predicted truth)
       = length (filter (fun s => is_correct gtb s = true) (zip rows truth)).
Proof.
  intros Hrows. revert truth.
  induction Hrows as [|row rows Hrow _ IH]; intros [|t truth] Hlen; try discriminate Hlen.
  - by exists [].
  - destruct (IH truth) as (predicted & Hp & Hl & Hsum); [by injection Hlen|].
    destruct row as [|s row]; [done|].
    exists (Z.of_nat (argmax_from gtb s 0 1 row) :: predicted).
    unfold torch_max_dim1 in *. simpl. rewrite Hp. simpl.
    split; [done|]. split; [by rewrite Hl|].
    rewrite tensor_sum_cons, Hsum.
    destruct (Z.of_nat (argmax_from gtb s 0 1 row) =? t)%Z eqn:Heq.
    + rewrite filter_cons_True; [done|]. unfold is_correct. simpl. by rewrite Heq.
    + rewrite filter_cons_False; [done|]. unfold is_correct. simpl. by rewrite Heq.
Qed.

(** The state after the loop, whatever the data: with gradients disabled
    nothing is recorded, and nothing writes the parameters. *)
Lemma evaluate_loop_state (st : Torch Weights) (test_data : list (Images * list Z))
  (correct total : nat) :
  grad_enabled st = false ->
  (evaluate_loop net gtb st test_data correct total).1 = st.
Proof.
  intros Hgrad. revert correct total.
  induction test_data as [|[images truth] test_data IH]; intros correct total; simpl.
  - done.
  - unfold call_model. rewrite Hgrad.
    assert (Hst : {| grad_enabled := false; parameters := parameters st;
                     recorded := recorded st |} = st).
    { destruct st. simpl in *. by subst. }
    rewrite Hst.
    destruct (torch_max_dim1 gtb (net (parameters st) images)) as [predicted|e]; [|done].
    destruct (tensor_eq predicted truth) as [eqs|e]; [|done].
    apply IH.
Qed.

(** The counters after the loop, on a dataset that fits the network. *)
Lemma evaluate_loop_counts (st : Torch Weights) (test_data : list (Images * list Z))
  (correct total : nat) :
  grad_enabled st = false ->
  fits net (parameters st) test_data ->
  (evaluate_loop net gtb st test_data correct total).2
  = Ok (correct + num_correct net gtb (parameters st) test_data,
        total + num_samples net (parameters st) test_data).
Proof.
  intros Hgrad Hfits. revert correct total.
  induction Hfits as [|[images truth] test_data [Hlen Hrows] _ IH]; intros correct total.
  - simpl. unfold num_correct, num_samples. simpl. do 2 f_equal; lia.
  - simpl. unfold call_model. rewrite Hgrad.
    assert (Hst : {| grad_enabled := false; parameters := parameters st;
                     recorded := recorded st |} = st).
    { destruct st. simpl in *. by subst. }
    rewrite Hst.
    destruct (batch_matches _ truth Hrows Hlen) as (predicted & -> & Hl & Hsum).
    unfold tensor_eq. rewrite Hl, Nat.eqb_refl. rewrite IH.
    unfold num_correct, num_samples, samples. simpl.
    rewrite filter_app, !length_app, Hsum.
    rewrite length_zip_with, Hlen, Nat.min_id by done.
    by rewrite !Nat.add_assoc.
Qed.

(** [evaluate] leaves the state as it found it, on every dataset. *)
Lemma evaluate_state (st : Torch Weights) (test_data : list (Images * list Z)) :
  (evaluate net gtb st test_data).1 = st.
Proof.
  unfold evaluate.
  pose proof (evaluate_loop_state (set_grad_enabled false st) test_data 0 0 eq_refl) as Hst.
  destruct (evaluate_loop net gtb (set_grad_enabled false st) test_data 0 0) as [st' r].
  simpl in *. subst st'. by destruct st.
Qed.

End EvaluateFacts.

(** C8, as the code has it.  On a test dataset with at least one sample,
    whose batches have one label per row of scores and no empty row,
    [evaluate] prints the number of samples of all batches and the accuracy
    [100 * c / n], [c] the number of samples whose predicted class, the
    argmax of the scores along dimension 1, is the label, and [n] the number
    of samples.  The parameters of the model are what they were, no graph
    was recorded, and the gradient mode is restored. *)
Theorem evaluate_accuracy {Images Weights Score : Type}
  (net : Weights -> Images -> list (list Score)) (gtb : Score -> Score -> bool)
  (st : Torch Weights) (test_data : list (Images * list Z)) :
  fits net (parameters st) test_data ->
  0 < num_samples net (parameters st) test_data ->
  evaluate net gtb st test_data
  = (st, Ok (num_samples net (parameters st) test_data,
             (inject_Z (100 * Z.of_nat (num_correct net gtb (parameters st) test_data))
              / inject_Z (Z.of_nat (num_samples net (parameters st) test_data)))%Q)).
Proof.
  intros Hfits Hpos.
  rewrite (surjective_pairing (evaluate net gtb st test_data)).
  rewrite evaluate_state. f_equal.
  unfold evaluate.
  pose proof (evaluate_loop_counts net gtb (set_grad_enabled false st) test_data 0 0
                eq_refl Hfits) as Hcounts.
  destruct (evaluate_loop net gtb (set_grad_enabled false st) test_data 0 0) as [st' r].
  simpl in *. subst r. simpl. unfold percent.
  destruct (Nat.eqb_spec (num_samples net (parameters st) test_data) 0) as [H0 | _]; [lia|].
  done.
Qed.

Lemma evaluate_accuracy_witness :
  evaluate toy_net Z.gtb {| grad_enabled := true; parameters := 2%Z; recorded := 0 |} toy_data
  = ({| grad_enabled := true; parameters := 2%Z; recorded := 0 |},
     Ok (6, (inject_Z 400 / inject_Z 6)%Q)).
Proof.
  apply (evaluate_accuracy toy_net Z.gtb
           {| grad_enabled := true; parameters := 2%Z; recorded := 0 |} toy_data).
  - repeat constructor; done.
  - vm_compute. lia.
Defined.

(** C8 as it was claimed fails on a dataset without samples: the counters
    stay at zero and the division raises. *)
Lemma evaluate_counterexample :
  evaluate toy_net Z.gtb {| grad_enabled := true; parameters := 2%Z; recorded := 0 |} []
  = ({| grad_enabled := true; parameters := 2%Z; recorded := 0 |}, Raise DivisionByZero)
  /\ class_of DivisionByZero = ZeroDivisionError.
Proof. split; reflexivity. Qed.

(** ** The stable sort *)

Section SortingFacts.

Context {A : Type}.
Variable key : A -> nat.
Variable descending : bool.

Lemma insert_sorted_Permutation (x : A) (l : list A) :
  insert_sorted key descending x l ≡ₚ x :: l.
Proof.
  induction l as [|y l IH]; simpl; [done|].
  destruct (precedes descending (key y) (key x)); [|done].
  rewrite IH. apply Permutation_swap.
Qed.

Lemma stable_sort_Permutation (l : list A) : stable_sort key descending l ≡ₚ l.
Proof.
  induction l as [|x l IH]; simpl; [done|].
  by rewrite insert_sorted_Permutation, IH.
Qed.

Lemma stable_sort_length (l : list A) : length (stable_sort key descending l) = length l.
Proof. by rewrite stable_sort_Permutation. Qed.

Lemma precedes_asym (a b : nat) :
  precedes descending a b = true -> precedes descending b a = false.
Proof.
  unfold precedes. destruct descending; intros H%Nat.ltb_lt; apply Nat.ltb_ge; lia.
Qed.

Lemma insert_sorted_HdRel (a x : A) (l : list A) :
  (in_order key descending) a x -> HdRel (in_order key descending) a l -> HdRel (in_order key descending) a (insert_sorted key descending x l).
Proof.
  intros Hax Hal. destruct l as [|y l]; simpl; [by constructor|].
  destruct (precedes descending (key y) (key x)); constructor; [|done].
  by inv Hal.
Qed.

Lemma insert_sorted_Sorted (x : A) (l : list A) :
  Sorted (in_order key descending) l -> Sorted (in_order key descending) (insert_sorted key descending x l).
Proof.
  induction 1 as [|y l Hl IH Hy]; simpl; [by repeat constructor|].
  destruct (precedes descending (key y) (key x)) eqn:Hyx.
  - constructor; [done|]. apply insert_sorted_HdRel; [|done].
    unfold in_order. by apply precedes_asym.
  - constructor; [by constructor|]. by constructor.
Qed.

Lemma stable_sort_Sorted (l : list A) : Sorted (in_order key descending) (stable_sort key descending l).
Proof.
  induction l as [|x l IH]; simpl; [constructor|]. by apply insert_sorted_Sorted.
Qed.

End SortingFacts.

(** The sort only looks at the keys: it commutes with a map that keeps
    them. *)
Lemma insert_sorted_fmap {A B : Type} (keyA : A -> nat) (keyB : B -> nat) (f : A -> B)
  (descending : bool) (x : A) (l : list A) :
  (forall a, keyB (f a) = keyA a) ->
  insert_sorted keyB descending (f x) (f <$> l) = f <$> insert_sorted keyA descending x l.
Proof.
  intros Hkey. induction l as [|y l IH]; csimpl; [done|].
  rewrite !Hkey. destruct (precedes descending (keyA y) (keyA x)); csimpl; [|done].
  by rewrite IH.
Qed.

Lemma stable_sort_fmap {A B : Type} (keyA : A -> nat) (keyB : B -> nat) (f : A -> B)
  (descending : bool) (l : list A) :
  (forall a, keyB (f a) = keyA a) ->
  stable_sort keyB descending (f <$> l) = f <$> stable_sort keyA descending l.
Proof.
  intros Hkey. induction l as [|x l IH]; [done|].
  change (insert_sorted keyB descending (f x) (stable_sort keyB descending (f <$> l))
          = f <$> insert_sorted keyA descending x (stable_sort keyA descending l)).
  rewrite IH. by apply insert_sorted_fmap.
Qed.

Lemma seq_Sorted (j n : nat) : Sorted le (seq j n).
Proof.
  revert j. induction n as [|n IH]; intros j; simpl; [constructor|].
  constructor; [apply IH|]. destruct n; simpl; constructor. lia.
Qed.

Lemma fmap_seq_lookup {A : Type} (d : A) (l : list A) :
  (fun i => default d (l !! i)) <$> seq 0 (length l) = l.
Proof.
  apply list_eq. intros i. rewrite list_lookup_fmap.
  destruct (decide (i < length l)) as [Hi | Hi].
  - rewrite lookup_seq_lt by done. simpl.
    destruct (lookup_lt_is_Some_2 l i Hi) as [x ->]. done.
  - rewrite lookup_seq_ge by lia. simpl. symmetry. apply lookup_ge_None_2. lia.
Qed.

Lemma zip_seq_lookup {A : Type} (d : A) (l : list A) :
  zip (seq 0 (length l)) l = (fun i => (i, default d (l !! i))) <$> seq 0 (length l).
Proof.
  apply list_eq. intros i. rewrite lookup_zip_with, list_lookup_fmap.
  destruct (decide (i < length l)) as [Hi | Hi].
  - rewrite lookup_seq_lt by done. simpl.
    destruct (lookup_lt_is_Some_2 l i Hi) as [x ->]. done.
  - rewrite lookup_seq_ge by lia. done.
Qed.

Lemma Sorted_weaken {A : Type} (R1 R2 : A -> A -> Prop) (l : list A) :
  (forall a b, R1 a b -> R2 a b) -> Sorted R1 l -> Sorted R2 l.
Proof.
  intros HR. induction 1 as [|a l _ IH Hhd]; constructor; [done|].
  destruct Hhd; constructor. by apply HR.
Qed.

Lemma in_order_le (a b : nat) : in_order id false a b <-> a <= b.
Proof. unfold in_order, precedes. simpl. apply Nat.ltb_ge. Qed.

Lemma in_order_ge (a b : nat) : in_order id true a b <-> b <= a.
Proof. unfold in_order, precedes. simpl. apply Nat.ltb_ge. Qed.

(** Two sorted lists of the same numbers are one list. *)
Lemma in_order_unique (descending : bool) (l1 l2 : list nat) :
  Sorted (in_order id descending) l1 ->
  Sorted (in_order id descending) l2 ->
  l1 ≡ₚ l2 ->
  l1 = l2.
Proof.
  intros H1 H2 Hperm. destruct descending.
  - apply (inj reverse). apply (Sorted_unique le).
    + apply Sorted_reverse. eapply Sorted_weaken; [|exact H1]. intros a b. apply in_order_ge.
    + apply Sorted_reverse. eapply Sorted_weaken; [|exact H2]. intros a b. apply in_order_ge.
    + by rewrite !reverse_Permutation.
  - apply (Sorted_unique le); [| |done].
    + eapply Sorted_weaken; [|exact H1]. intros a b. apply in_order_le.
    + eapply Sorted_weaken; [|exact H2]. intros a b. apply in_order_le.
Qed.

Lemma fmap_inj_on {A B : Type} (f : A -> B) (P : A -> Prop) (l1 l2 : list A) :
  (forall a b, P a -> P b -> f a = f b -> a = b) ->
  Forall P l1 -> Forall P l2 -> f <$> l1 = f <$> l2 -> l1 = l2.
Proof.
  intros Hinj H1. revert l2. induction H1 as [|a l1 Ha _ IH]; intros l2 H2 Heq.
  - by destruct l2.
  - destruct H2 as [|b l2 Hb H2]; [done|]. csimpl in Heq. injection Heq as Hab Heq.
    f_equal; [by apply Hinj | by apply IH].
Qed.

(** ** [Tensor.sort] *)

(** The sort that keeps equal elements in their order sorts. *)
Lemma stable_torch_sort_sorts : sorts stable_torch_sort.
Proof.
  intros t descending. unfold stable_torch_sort.
  set (pairs := zip (seq 0 (length t)) t).
  set (sorted := stable_sort snd descending pairs). cbv zeta.
  assert (Hperm : sorted ≡ₚ pairs) by apply stable_sort_Permutation.
  assert (Hsorted : Sorted (in_order snd descending) sorted) by apply stable_sort_Sorted.
  clearbody sorted. split; [|split].
  - rewrite Hperm. unfold pairs. rewrite fst_zip; [done|]. by rewrite length_seq.
  - assert (Hall : Forall (fun p => p.2 = default 0 (t !! p.1)) sorted).
    { rewrite Hperm. unfold pairs. rewrite (zip_seq_lookup 0 t).
      by apply Forall_fmap, Forall_forall. }
    clear Hperm Hsorted. induction Hall as [|p l Hp _ IH]; [done|]. csimpl.
    by rewrite Hp, IH.
  - by apply (Sorted_fmap snd (in_order snd descending)).
Qed.

(** So does the sort of the examples. *)
Lemma example_sort_sorts : sorts example_sort.
Proof.
  intros t descending. unfold example_sort.
  case_bool_decide as Ht; [|apply stable_torch_sort_sorts].
  set (x := hd 0 t) in Ht. clearbody x. subst t.
  split; [|split].
  - apply (Permutation_trans
             (l' := stable_sort id false
                      [8; 16; 15; 14; 13; 12; 11; 10; 9; 0; 7; 6; 5; 4; 3; 2; 1])).
    + symmetry. apply stable_sort_Permutation.
    + reflexivity.
  - reflexivity.
  - repeat constructor; unfold in_order, precedes; destruct descending; apply Nat.ltb_irrefl.
Qed.

Section TensorSort.

Variable torch_sort : TensorSort.
Hypothesis torch_sort_sorts : sorts torch_sort.

Lemma torch_sort_indices (t : list nat) (descending : bool) :
  (torch_sort t descending).2 ≡ₚ seq 0 (length t).
Proof.
  pose proof (torch_sort_sorts t descending) as H.
  destruct (torch_sort t descending). by destruct H as (? & ? & ?).
Qed.

Lemma torch_sort_values (t : list nat) (descending : bool) :
  (torch_sort t descending).1
  = (fun i => default 0 (t !! i)) <$> (torch_sort t descending).2.
Proof.
  pose proof (torch_sort_sorts t descending) as H.
  destruct (torch_sort t descending). by destruct H as (? & ? & ?).
Qed.

Lemma torch_sort_Sorted (t : list nat) (descending : bool) :
  Sorted (in_order id descending) (torch_sort t descending).1.
Proof.
  pose proof (torch_sort_sorts t descending) as H.
  destruct (torch_sort t descending). by destruct H as (? & ? & ?).
Qed.

Lemma torch_sort_values_Permutation (t : list nat) (descending : bool) :
  (torch_sort t descending).1 ≡ₚ t.
Proof. by rewrite torch_sort_values, torch_sort_indices, fmap_seq_lookup. Qed.

(** Sorting a permutation of [0 .. n-1] in ascending order: the values are
    [0 .. n-1], and the index returned for the value [j] is the position
    [j] had. *)
Lemma torch_sort_permutation (sort_idx : list nat) (n : nat) :
  sort_idx ≡ₚ seq 0 n ->
  (torch_sort sort_idx false).1 = seq 0 n
  /\ length (torch_sort sort_idx false).2 = n
  /\ forall j i, (torch_sort sort_idx false).2 !! j = Some i -> sort_idx !! i = Some j.
Proof.
  intros Hperm.
  assert (Hn : length sort_idx = n) by (by rewrite Hperm, length_seq).
  assert (Hvalues : (torch_sort sort_idx false).1 = seq 0 n).
  { apply (Sorted_unique le).
    - eapply Sorted_weaken; [|apply torch_sort_Sorted]. intros a b. apply in_order_le.
    - apply seq_Sorted.
    - by rewrite torch_sort_values_Permutation. }
  split; [done|]. split.
  { by rewrite torch_sort_indices, length_seq. }
  intros j i Hj.
  assert (Hi : i < length sort_idx).
  { apply list_elem_of_lookup_2 in Hj. rewrite torch_sort_indices in Hj.
    by apply elem_of_seq in Hj as [_ Hj]. }
  destruct (lookup_lt_is_Some_2 sort_idx i Hi) as [v Hv]. rewrite Hv. f_equal.
  assert (Hl : (torch_sort sort_idx false).1 !! j = Some v).
  { rewrite torch_sort_values, list_lookup_fmap, Hj. simpl. by rewrite Hv. }
  rewrite Hvalues in Hl. apply lookup_seq in Hl. lia.
Qed.

(** Where no two elements are equal there is one sorted order, and the
    sort keeps it. *)
Lemma torch_sort_unique (t : list nat) (descending : bool) :
  NoDup t -> torch_sort t descending = stable_torch_sort t descending.
Proof.
  intros Hnodup.
  pose proof (torch_sort_sorts t descending) as H1.
  pose proof (stable_torch_sort_sorts t descending) as H2.
  destruct (torch_sort t descending) as [v1 i1].
  destruct (stable_torch_sort t descending) as [v2 i2].
  destruct H1 as (Hp1 & Hv1 & Hs1). destruct H2 as (Hp2 & Hv2 & Hs2).
  assert (Hv : v1 = v2).
  { apply (in_order_unique descending); [done..|]. by rewrite Hv1, Hv2, Hp1, Hp2. }
  f_equal; [done|].
  apply (fmap_inj_on (fun i => default 0 (t !! i)) (fun i => i < length t)).
  - intros a b Ha Hb Hab.
    destruct (lookup_lt_is_Some_2 t a Ha) as [x Hx].
    destruct (lookup_lt_is_Some_2 t b Hb) as [y Hy].
    rewrite Hx, Hy in Hab. simpl in Hab. subst y. by eapply NoDup_lookup.
  - apply Forall_forall. intros i Hi. rewrite Hp1 in Hi. by apply elem_of_seq in Hi as [_ ?].
  - apply Forall_forall. intros i Hi. rewrite Hp2 in Hi. by apply elem_of_seq in Hi as [_ ?].
  - congruence.
Qed.

End TensorSort.

(** ** [gather] *)

Lemma gather_row_Ok {A : Type} (row : list A) (index : list nat) (out : list A) :
  gather_row row index = Ok out <-> Forall2 (fun i a => row !! i = Some a) index out.
Proof.
  unfold gather_row. rewrite traverse_Ok.
  split; intros Hall; (eapply Forall2_impl; [exact Hall|]);
    intros i a; simpl; destruct (row !! i); naive_solver.
Qed.

Lemma gather1_repeat_rows {A : Type} (input : list (list A)) (idx : list nat)
  (out : list (list A)) :
  gather1 input (repeat_rows (length input) idx) = Ok out <->
  Forall2 (fun row o => gather_row row idx = Ok o) input out.
Proof.
  unfold gather1, repeat_rows. rewrite length_replicate, Nat.eqb_refl, traverse_Ok.
  rewrite (zip_with_replicate_r_eq pair (length input) idx input eq_refl).
  by rewrite Forall2_fmap_l.
Qed.

(** One time step: gathering by a permutation and then by its argsort
    gives the step back. *)
Lemma gather_row_argsort {A : Type} (torch_sort : TensorSort) (row : list A)
  (sort_idx : list nat) (n : nat) :
  sorts torch_sort ->
  length row = n ->
  sort_idx ≡ₚ seq 0 n ->
  exists sorted_row,
    gather_row row sort_idx = Ok sorted_row
    /\ gather_row sorted_row (torch_sort sort_idx false).2 = Ok row.
Proof.
  intros Hsorts Hlen Hperm.
  destruct (traverse_total
              (fun i => match row !! i with
                        | Some a => Ok a
                        | None => Raise IndexOutOfRange
                        end) sort_idx) as [sorted_row Hsorted].
  { apply Forall_forall. intros i Hi. rewrite Hperm in Hi.
    apply elem_of_seq in Hi as [_ Hi].
    destruct (lookup_lt_is_Some_2 row i) as [a ->]; [lia|]. by exists a. }
  exists sorted_row. split; [done|].
  apply gather_row_Ok in Hsorted.
  destruct (torch_sort_permutation torch_sort Hsorts sort_idx n Hperm)
    as (_ & Hlen_orig & Horig).
  apply gather_row_Ok. apply Forall2_same_length_lookup_2.
  { by rewrite Hlen_orig, Hlen. }
  intros j i a Hj Ha. apply Horig in Hj.
  destruct (Forall2_lookup_l _ _ _ _ _ Hsorted Hj) as (a' & Ha' & Hrow).
  congruence.
Qed.

(** C5.  For a padded batch of [n] sequences and a permutation [sort_idx]
    of [0 .. n-1], gathering the batch dimension by [sort_idx], repeated
    over the time steps, and then by [orig_idx], the indices returned by
    sorting [sort_idx], gives the padded batch back, whatever the sort does
    with equal elements. *)
Theorem gather_argsort_restores {A : Type} (torch_sort : TensorSort)
  (input_orig : list (list A)) (sort_idx : list nat) (n : nat) :
  sorts torch_sort ->
  Forall (fun step => length step = n) input_orig ->
  sort_idx ≡ₚ seq 0 n ->
  let max_length := length input_orig in
  let '(_, orig_idx) := torch_sort sort_idx false in
  exists input_sorted,
    gather1 input_orig (repeat_rows max_length sort_idx) = Ok input_sorted
    /\ gather1 input_sorted (repeat_rows max_length orig_idx) = Ok input_orig.
Proof.
  intros Hsorts Hsteps Hperm max_length. subst max_length.
  destruct (torch_sort sort_idx false) as [values orig_idx] eqn:Hsort.
  assert (Hrows : exists input_sorted,
             Forall2 (fun row o => gather_row row sort_idx = Ok o) input_orig input_sorted
             /\ Forall2 (fun o row => gather_row o orig_idx = Ok row) input_sorted input_orig).
  { induction Hsteps as [|step input_orig Hstep _ (input_sorted & H1 & H2)].
    - exists []. split; constructor.
    - destruct (gather_row_argsort torch_sort step sort_idx n Hsorts Hstep Hperm)
        as (sorted_row & Hs & Hr).
      rewrite Hsort in Hr. simpl in Hr.
      exists (sorted_row :: input_sorted). split; by constructor. }
  destruct Hrows as (input_sorted & H1 & H2).
  exists input_sorted. split.
  - by apply gather1_repeat_rows.
  - rewrite (Forall2_length _ _ _ H1). by apply gather1_repeat_rows.
Qed.

(** The padded batch and the sorting permutation of the notebook. *)
Lemma gather_argsort_restores_witness :
  let input_orig :=
    [[1; 2; 3; 4; 5]; [1; 2; 3; 4; 5]; [1; 2; 0; 4; 5]; [0; 2; 0; 0; 5]; [0; 2; 0; 0; 0]]%Z in
  exists input_sorted,
    gather1 input_orig (repeat_rows 5 [1; 4; 0; 3; 2]) = Ok input_sorted
    /\ gather1 input_sorted (repeat_rows 5 [2; 0; 4; 3; 1]) = Ok input_orig.
Proof.
  apply (gather_argsort_restores example_sort
           [[1; 2; 3; 4; 5]; [1; 2; 3; 4; 5]; [1; 2; 0; 4; 5]; [0; 2; 0; 0; 5]; [0; 2; 0; 0; 0]]%Z
           [1; 4; 0; 3; 2] 5).
  - exact example_sort_sorts.
  - repeat constructor.
  - apply (Permutation_trans (l' := stable_sort id false [1; 4; 0; 3; 2])).
    + symmetry. apply stable_sort_Permutation.
    + reflexivity.
Defined.

(** The notebook's run of Option 1 to its end gives the padded input back. *)
Example option1_restored_batch0 :
  option1_restored example_sort batch0 = pad_sequence 0%Z batch0.*1.
Proof. reflexivity. Qed.

(** ** Sorting a batch and sorting its lengths *)

Lemma sort_perm_Permutation (batch : Batch) : sort_perm batch ≡ₚ seq 0 (length batch).
Proof. apply stable_sort_Permutation. Qed.

Lemma py_sorted_sort_perm (batch : Batch) :
  py_sorted (fun b => length b.1) true batch = pair_at batch <$> sort_perm batch.
Proof.
  unfold py_sorted, sort_perm.
  rewrite <- (fmap_seq_lookup ([], []) batch) at 1.
  by apply stable_sort_fmap.
Qed.

Lemma lengths_lookup (batch : Batch) (i : nat) :
  default 0 ((length <$> batch.*1) !! i) = length (pair_at batch i).1.
Proof. unfold pair_at. rewrite !list_lookup_fmap. by destruct (batch !! i). Qed.

Lemma stable_torch_sort_sort_perm (batch : Batch) :
  stable_torch_sort (length <$> batch.*1) true
  = (sorted_lens batch (sort_perm batch), sort_perm batch).
Proof.
  unfold stable_torch_sort, sorted_lens, sort_perm.
  rewrite (zip_seq_lookup 0 (length <$> batch.*1)), !length_fmap.
  rewrite (list_fmap_ext _ (fun i => (i, length (pair_at batch i).1)) (seq 0 (length batch))).
  2:{ intros _ i _. f_equal. apply lengths_lookup. }
  rewrite (stable_sort_fmap (fun i => length (pair_at batch i).1) snd) by done.
  rewrite <- !list_fmap_compose. f_equal.
  rewrite <- (list_fmap_id (stable_sort _ _ _)) at 2. done.
Qed.

Lemma sort_perm_Sorted (batch : Batch) :
  Sorted (fun a b => b <= a) (sorted_lens batch (sort_perm batch)).
Proof.
  unfold sorted_lens, sort_perm.
  eapply (Sorted_fmap _ (in_order (fun i => length (pair_at batch i).1) true));
    [|apply stable_sort_Sorted].
  intros a b. unfold in_order, precedes. by intros H%Nat.ltb_ge.
Qed.

(** What a sort returns on the lengths of a batch: a permutation of the
    positions, and the lengths in its order, which descend. *)
Lemma torch_sort_lengths (torch_sort : TensorSort) (batch : Batch) :
  sorts torch_sort ->
  exists perm,
    torch_sort (length <$> batch.*1) true = (sorted_lens batch perm, perm)
    /\ perm ≡ₚ seq 0 (length batch)
    /\ Sorted (fun a b => b <= a) (sorted_lens batch perm).
Proof.
  intros Hsorts. specialize (Hsorts (length <$> batch.*1) true).
  destruct (torch_sort (length <$> batch.*1) true) as [values perm].
  destruct Hsorts as (Hperm & Hvalues & Hsorted).
  rewrite !length_fmap in Hperm.
  assert (Hlens : values = sorted_lens batch perm).
  { rewrite Hvalues. unfold sorted_lens. apply list_fmap_ext. intros _ i _.
    apply lengths_lookup. }
  clear Hvalues. subst values.
  exists perm. split; [done|]. split; [done|].
  eapply Sorted_weaken; [|exact Hsorted]. intros a b. apply in_order_ge.
Qed.

(** ** Padding, reordering, packing *)

Lemma pad_sequence_rows {A : Type} (padding_value : A) (sequences : list (list A)) :
  sequences ≠ [] ->
  pad_sequence padding_value sequences
  = Ok (pad_rows padding_value sequences (max_list (length <$> sequences))).
Proof. by destruct sequences. Qed.

(** Reordering the padded batch by positions is padding the reordered
    sequences. *)
Lemma gather1_pad_rows {A : Type} (padding_value : A) (sequences : list (list A))
  (steps : nat) (idx : list nat) :
  Forall (fun i => i < length sequences) idx ->
  gather1 (pad_rows padding_value sequences steps) (repeat_rows steps idx)
  = Ok (pad_rows padding_value ((fun i => default [] (sequences !! i)) <$> idx) steps).
Proof.
  intros Hidx.
  assert (Hlen : length (pad_rows padding_value sequences steps) = steps).
  { unfold pad_rows. by rewrite length_fmap, length_seq. }
  rewrite <- Hlen at 2. apply gather1_repeat_rows.
  unfold pad_rows. apply Forall2_fmap, Forall_Forall2_diag, Forall_forall.
  intros t _. apply gather_row_Ok.
  rewrite <- list_fmap_compose. apply Forall2_fmap_r, Forall_Forall2_diag.
  eapply Forall_impl; [exact Hidx|]. intros i Hi. simpl.
  rewrite list_lookup_fmap.
  destruct (lookup_lt_is_Some_2 sequences i Hi) as [s ->]. done.
Qed.

Lemma max_list_sorted_desc (l : list nat) :
  Sorted (fun a b => b <= a) l -> max_list l = hd 0 l.
Proof.
  intros Hs. apply Sorted_StronglySorted in Hs.
  2:{ intros a b c ??. lia. }
  destruct Hs as [|a l _ Hall]; [done|]. simpl.
  enough (max_list l <= a) by lia.
  induction Hall as [|b l Hb _ IH]; simpl; lia.
Qed.

Lemma nonincreasing_Sorted (l : list nat) :
  Sorted (fun a b => b <= a) l -> nonincreasing l = true.
Proof.
  induction 1 as [|a l _ IH Hhd]; [done|].
  destruct Hhd as [|b l Hb]; [done|].
  simpl in *. rewrite IH. by apply Nat.leb_le in Hb as ->.
Qed.

(** When [pack_padded_sequence] returns. *)
Lemma pack_padded_sequence_Ok {A : Type} (input : list (list A)) (lengths : list nat)
  (row : list A) (l : nat) :
  head input = Some row ->
  last lengths = Some l ->
  length lengths = length row ->
  0 < l ->
  nonincreasing lengths = true ->
  hd 0 lengths <= length input ->
  pack_padded_sequence input lengths
  = Ok {| data := concat (zip_with take
                    ((fun t => count_gt t lengths) <$> seq 0 (hd 0 lengths)) input);
          batch_sizes := (fun t => count_gt t lengths) <$> seq 0 (hd 0 lengths) |}.
Proof.
  intros Hrow Hlast Hwidth Hl Hsorted Hsteps. unfold pack_padded_sequence.
  destruct input as [|row' input]; [done|]. injection Hrow as ->.
  rewrite Hlast, Hwidth, Nat.eqb_refl, Hsorted. cbn [negb].
  destruct (Nat.eqb_spec l 0) as [-> | _]; [lia|].
  by apply Nat.ltb_ge in Hsteps as ->.
Qed.

Section Options.

Variable batch : Batch.

(** A permutation of the positions that brings the lengths of the inputs
    in descending order: the stable one, or the one [Tensor.sort] returns. *)
Variable perm : list nat.
Hypothesis perm_Permutation : perm ≡ₚ seq 0 (length batch).
Hypothesis perm_Sorted : Sorted (fun a b => b <= a) (sorted_lens batch perm).

Lemma sorted_lens_inputs : length <$> sorted_inputs batch perm = sorted_lens batch perm.
Proof.
  unfold sorted_inputs, sorted_lens. by rewrite <- !list_fmap_compose.
Qed.

Lemma sorted_lens_Permutation : sorted_lens batch perm ≡ₚ length <$> batch.*1.
Proof.
  unfold sorted_lens. rewrite perm_Permutation.
  assert (Hlens : length <$> batch.*1
                  = (length ∘ fst) <$> (pair_at batch <$> seq 0 (length batch))).
  { unfold pair_at. by rewrite fmap_seq_lookup, list_fmap_compose. }
  by rewrite Hlens, <- list_fmap_compose.
Qed.

Lemma sorted_lens_longest : max_list (sorted_lens batch perm) = longest batch.
Proof. unfold longest. by rewrite sorted_lens_Permutation. Qed.

Lemma sorted_lens_hd : hd 0 (sorted_lens batch perm) = longest batch.
Proof. by rewrite <- max_list_sorted_desc, sorted_lens_longest by apply perm_Sorted. Qed.

Lemma sorted_lens_length : length (sorted_lens batch perm) = length batch.
Proof. by rewrite sorted_lens_Permutation, !length_fmap. Qed.

Lemma sorted_inputs_gather :
  (fun i => default [] (batch.*1 !! i)) <$> perm = sorted_inputs batch perm.
Proof.
  unfold sorted_inputs. rewrite <- list_fmap_compose.
  apply list_fmap_ext. intros _ i _. simpl. unfold pair_at.
  rewrite list_lookup_fmap. by destruct (batch !! i).
Qed.

Lemma perm_positions : Forall (fun i => i < length batch.*1) perm.
Proof.
  rewrite length_fmap. apply Forall_forall. intros i Hi.
  rewrite perm_Permutation in Hi. by apply elem_of_seq in Hi as [_ Hi].
Qed.

(** What Option 1 hands to [pack_padded_sequence], when the sort returns
    [perm]. *)
Lemma option1_pack (torch_sort : TensorSort) :
  torch_sort (length <$> batch.*1) true = (sorted_lens batch perm, perm) ->
  batch ≠ [] ->
  option1 torch_sort batch
  = pack_padded_sequence (pad_rows 0%Z (sorted_inputs batch perm) (longest batch))
      (sorted_lens batch perm).
Proof.
  intros Hsort Hne. unfold option1.
  assert (Hzip : zip_star batch = Ok (batch.*1, batch.*2)) by (by destruct batch).
  rewrite Hzip. cbn [bind].
  rewrite !pad_sequence_rows by (by destruct batch). cbn [bind].
  rewrite Hsort.
  pose proof sorted_lens_hd as Hhd. pose proof sorted_lens_length as Hlen.
  destruct (sorted_lens batch perm) as [|l ls] eqn:Hls.
  { destruct batch; [done | discriminate Hlen]. }
  simpl in Hhd. subst l. cbn [index0 bind].
  rewrite gather1_pad_rows by apply perm_positions.
  cbn [bind]. by rewrite sorted_inputs_gather.
Qed.

(** A batch with sequences in it, none of them empty, packs. *)
Lemma pack_sorted_inputs :
  batch ≠ [] ->
  Forall (fun b => 0 < length b.1) batch ->
  exists packed,
    pack_padded_sequence (pad_rows 0%Z (sorted_inputs batch perm) (longest batch))
      (sorted_lens batch perm) = Ok packed.
Proof.
  intros Hne Hpos.
  assert (Hall : Forall (fun l => 0 < l) (sorted_lens batch perm)).
  { rewrite sorted_lens_Permutation. rewrite <- list_fmap_compose.
    apply Forall_fmap. eapply Forall_impl; [exact Hpos|]. done. }
  assert (Hn : 0 < length (sorted_lens batch perm)).
  { rewrite sorted_lens_length. destruct batch; [done | simpl; lia]. }
  assert (Hlong : 0 < longest batch).
  { rewrite <- sorted_lens_hd.
    destruct (sorted_lens batch perm) as [|l ls]; [simpl in Hn; lia|].
    simpl. by apply Forall_cons in Hall as [Hl _]. }
  destruct (last (sorted_lens batch perm)) as [l|] eqn:Hlast.
  2:{ apply last_None in Hlast. rewrite Hlast in Hn. simpl in Hn. lia. }
  assert (Hl : 0 < l).
  { apply last_Some in Hlast as [ls Hls]. rewrite Hls in Hall.
    by apply Forall_app in Hall as [_ [Hl _]%Forall_cons]. }
  eexists.
  apply (pack_padded_sequence_Ok _ _
           ((fun s => default 0%Z (s !! 0)) <$> sorted_inputs batch perm) l).
  - unfold pad_rows. by destruct (longest batch); [lia|].
  - done.
  - unfold sorted_lens, sorted_inputs. by rewrite !length_fmap.
  - done.
  - apply nonincreasing_Sorted, perm_Sorted.
  - rewrite sorted_lens_hd. unfold pad_rows. by rewrite length_fmap, length_seq.
Qed.

End Options.

(** What Option 2 hands to [pack_padded_sequence]. *)
Lemma option2_pack (batch : Batch) :
  batch ≠ [] ->
  option2 batch
  = pack_padded_sequence
      (pad_rows 0%Z (sorted_inputs batch (sort_perm batch)) (longest batch))
      (sorted_lens batch (sort_perm batch)).
Proof.
  intros Hne. unfold option2. rewrite py_sorted_sort_perm.
  assert (Hsorted : pair_at batch <$> sort_perm batch ≠ []).
  { intros Hnil%(f_equal length). rewrite length_fmap in Hnil.
    rewrite sort_perm_Permutation, length_seq in Hnil. by destruct batch. }
  assert (Hzip : zip_star (pair_at batch <$> sort_perm batch)
                 = Ok ((pair_at batch <$> sort_perm batch).*1,
                       (pair_at batch <$> sort_perm batch).*2)).
  { by destruct (pair_at batch <$> sort_perm batch). }
  rewrite Hzip. cbn [bind]. fold (sorted_inputs batch (sort_perm batch)).
  rewrite !pad_sequence_rows.
  - cbn [bind]. rewrite sorted_lens_inputs.
    by rewrite (sorted_lens_longest batch (sort_perm batch) (sort_perm_Permutation batch)).
  - intros Hnil%(f_equal length). rewrite length_fmap in Hnil.
    by destruct (pair_at batch <$> sort_perm batch).
  - intros Hnil%(f_equal length). unfold sorted_inputs in Hnil.
    rewrite length_fmap in Hnil. by destruct (pair_at batch <$> sort_perm batch).
Qed.

(** C6.  Option 1 and Option 2 give the same result on every batch whose
    input lengths [Tensor.sort] returns with equal lengths in their order,
    as it does on every batch whose input lengths are pairwise distinct.
    On such a batch that holds sequences, none of them empty, both give a
    packed sequence: padding the inputs as they come, reordering the batch
    dimension of the padded tensor by the permutation that sorts the lengths
    in descending order, and packing, yields the data and the batch sizes,
    and the tensor after unpacking, that sorting the pairs by descending
    input length, padding and packing yields. *)
Theorem option1_option2 (torch_sort : TensorSort) (batch : Batch) :
  sorts torch_sort ->
  (NoDup (length <$> batch.*1) -> keeps_order torch_sort batch)
  /\ (keeps_order torch_sort batch ->
      option1 torch_sort batch = option2 batch
      /\ (batch ≠ [] ->
          Forall (fun b => 0 < length b.1) batch ->
          exists input_packed packed_input_presorted,
            option1 torch_sort batch = Ok input_packed
            /\ option2 batch = Ok packed_input_presorted
            /\ data input_packed = data packed_input_presorted
            /\ batch_sizes input_packed = batch_sizes packed_input_presorted
            /\ (pad_packed_sequence 0%Z packed_input_presorted).1
               = (pad_packed_sequence 0%Z input_packed).1)).
Proof.
  intros Hsorts. split.
  - intros Hnodup. by apply torch_sort_unique.
  - intros Hkeeps. unfold keeps_order in Hkeeps.
    rewrite stable_torch_sort_sort_perm in Hkeeps.
    pose proof (option1_pack batch (sort_perm batch) (sort_perm_Permutation batch)
                  (sort_perm_Sorted batch) torch_sort Hkeeps) as Hpack1.
    split.
    + destruct (decide (batch = [])) as [-> | Hne]; [done|].
      by rewrite Hpack1, option2_pack.
    + intros Hne Hpos.
      destruct (pack_sorted_inputs batch (sort_perm batch) (sort_perm_Permutation batch)
                  (sort_perm_Sorted batch) Hne Hpos) as [packed Hpacked].
      exists packed, packed.
      by rewrite Hpack1, option2_pack, Hpacked.
Qed.

(** The batch of the notebook, in which two inputs have the length three. *)
Lemma option1_option2_witness :
  exists input_packed packed_input_presorted,
    option1 example_sort batch0 = Ok input_packed
    /\ option2 batch0 = Ok packed_input_presorted
    /\ data input_packed = data packed_input_presorted
    /\ batch_sizes input_packed = batch_sizes packed_input_presorted
    /\ (pad_packed_sequence 0%Z packed_input_presorted).1
       = (pad_packed_sequence 0%Z input_packed).1.
Proof.
  apply (proj2 (proj2 (option1_option2 example_sort batch0 example_sort_sorts) eq_refl)).
  - done.
  - repeat constructor.
Defined.

(** Seventeen inputs of one length: the sort returns them in another order
    than theirs, Option 1 packs them in that order and Option 2 in
    theirs. *)
Lemma option1_option2_counterexample :
  sorts example_sort
  /\ example_sort (length <$> batch17.*1) true
     = (replicate 17 1, [8; 16; 15; 14; 13; 12; 11; 10; 9; 0; 7; 6; 5; 4; 3; 2; 1])
  /\ option1 example_sort batch17
     = Ok {| data := [9; 17; 16; 15; 14; 13; 12; 11; 10; 1; 8; 7; 6; 5; 4; 3; 2]%Z;
             batch_sizes := [17] |}
  /\ option2 batch17
     = Ok {| data := [1; 2; 3; 4; 5; 6; 7; 8; 9; 10; 11; 12; 13; 14; 15; 16; 17]%Z;
             batch_sizes := [17] |}.
Proof.
  split; [exact example_sort_sorts|]. split; [|split]; vm_compute; reflexivity.
Qed.

(** The packed sequence the notebook prints, for both options. *)
Example option1_batch0 :
  option1 example_sort batch0
  = Ok {| data := [2; 5; 1; 4; 3; 2; 5; 1; 4; 3; 2; 5; 1; 4; 2; 5; 2]%Z;
          batch_sizes := [5; 5; 4; 2; 1] |}.
Proof. reflexivity. Qed.

Example option2_batch0 :
  option2 batch0
  = Ok {| data := [2; 5; 1; 4; 3; 2; 5; 1; 4; 3; 2; 5; 1; 4; 2; 5; 2]%Z;
          batch_sizes := [5; 5; 4; 2; 1] |}.
Proof. reflexivity. Qed.

(** The sorting permutation and the sorted lengths the notebook prints. *)
Example torch_sort_batch0 :
  example_sort (length <$> batch0.*1) true = ([5; 4; 3; 3; 2], [1; 4; 0; 3; 2]).
Proof. reflexivity. Qed.

Example torch_sort_sort_idx :
  example_sort [1; 4; 0; 3; 2] false = ([0; 1; 2; 3; 4], [2; 0; 4; 3; 1]).
Proof. reflexivity. Qed.

(** ** The recurrence *)

Lemma column_cons_Some {X : Type} (j : nat) (s : list X) (steps : list (list X)) (x : X) :
  s !! j = Some x -> column j (s :: steps) = x :: column j steps.
Proof. unfold column. simpl. by intros ->. Qed.

Lemma column_cons_None {X : Type} (j : nat) (s : list X) (steps : list (list X)) :
  s !! j = None -> column j (s :: steps) = column j steps.
Proof. unfold column. simpl. by intros ->. Qed.

Lemma nonincreasing_cons (a : nat) (l : list nat) :
  nonincreasing (a :: l) = true -> hd 0 l <= a /\ nonincreasing l = true.
Proof.
  destruct l as [|b l]; [intros _; simpl; split; [lia | done]|].
  change (nonincreasing (a :: b :: l)) with ((b <=? a)%nat && nonincreasing (b :: l)).
  intros [Hb Hl]%andb_prop. apply Nat.leb_le in Hb. done.
Qed.

Lemma nonincreasing_Forall (a : nat) (l : list nat) :
  nonincreasing (a :: l) = true -> Forall (fun b => b <= a) l.
Proof.
  revert a. induction l as [|b l IH]; intros a Ha; [constructor|].
  apply nonincreasing_cons in Ha as [Hb Hl]. simpl in Hb.
  constructor; [done|]. eapply Forall_impl; [by apply IH|]. simpl. lia.
Qed.

Section RNNFacts.

Context {X H : Type}.
Variable cell : H -> X -> H.

(** The padded recurrence moves every sequence through every step. *)
Lemma rnn_steps_spec (input : list (list X)) (hidden : list H) :
  Forall (fun step_input => length step_input = length hidden) input ->
  let '(output, h_n) := rnn_steps cell input hidden in
  length h_n = length hidden
  /\ forall j h, hidden !! j = Some h -> h_n !! j = Some (foldl cell h (column j input)).
Proof.
  intros Hin. revert hidden Hin.
  induction input as [|s input IH]; intros hidden Hin; [done|].
  cbn [rnn_steps]. apply Forall_cons in Hin as [Hs Hin].
  specialize (IH (zip_with cell hidden s)).
  destruct (rnn_steps cell input (zip_with cell hidden s)) as [output h_n].
  assert (Hzip : length (zip_with cell hidden s) = length hidden).
  { rewrite length_zip_with. lia. }
  destruct IH as [Hlen Hh]; [by rewrite Hzip|].
  split; [by rewrite Hlen|].
  intros j h Hj.
  destruct (lookup_lt_is_Some_2 s j) as [x Hx].
  { rewrite Hs. by eapply lookup_lt_Some. }
  rewrite (column_cons_Some _ _ _ _ Hx). simpl. apply Hh.
  rewrite lookup_zip_with, Hj, Hx. done.
Qed.

(** The network on a padded tensor that has a time step and the batch size
    of the initial states. *)
Lemma rnn_padded_Ok (input : list (list X)) (h_0 : list H) :
  input ≠ [] ->
  Forall (fun step_input => length step_input = length h_0) input ->
  rnn_padded cell input h_0 = Ok (rnn_steps cell input h_0).
Proof.
  intros Hne Hwidth. unfold rnn_padded. destruct input as [|step input]; [done|].
  rewrite (proj2 (forallb_forall _ _)); [done|].
  intros step_input Hstep%list_elem_of_In.
  eapply Forall_forall in Hwidth; [|done]. by apply Nat.eqb_eq.
Qed.

(** The packed recurrence: every state of the batch, the set aside ones
    with the running ones, moves through the steps that hold an input for
    its position, and through no other. *)
Lemma packed_loop_spec (sizes : list nat) (steps : list (list X)) (last_batch_size : nat)
  (hidden : list H) (hiddens output : list (list H)) :
  Forall2 (fun b s => length s = b) sizes steps ->
  length hidden = last_batch_size ->
  nonincreasing (last_batch_size :: sizes) = true ->
  let '(hiddens', hidden', output') :=
    packed_loop cell sizes (concat steps) last_batch_size hidden hiddens output in
  length (hidden' ++ concat (rev hiddens')) = length (hidden ++ concat (rev hiddens))
  /\ forall j h, (hidden ++ concat (rev hiddens)) !! j = Some h ->
       (hidden' ++ concat (rev hiddens')) !! j = Some (foldl cell h (column j steps)).
Proof.
  intros Hsteps. revert last_batch_size hidden hiddens output.
  induction Hsteps as [|b s sizes steps Hs _ IH];
    intros last_batch_size hidden hiddens output Hlen Hsorted; cbn [packed_loop concat].
  { split; [done|]. intros j h Hj. by rewrite Hj. }
  apply nonincreasing_cons in Hsorted as [Hb Hsorted]. simpl in Hb.
  rewrite take_app_length' by done. rewrite drop_app_length' by done.
  set (dec := last_batch_size - b).
  set (hiddens1 := if (0 <? dec)%nat
                   then hiddens ++ [drop (length hidden - dec) hidden] else hiddens).
  set (hidden1 := if (0 <? dec)%nat then take (length hidden - dec) hidden else hidden).
  assert (Hhidden1 : hidden1 = take b hidden).
  { unfold hidden1. destruct (Nat.ltb_spec 0 dec).
    - f_equal. unfold dec. lia.
    - rewrite take_ge; [done|]. unfold dec in *. lia. }
  assert (Hhiddens1 : concat (rev hiddens1) = drop b hidden ++ concat (rev hiddens)).
  { unfold hiddens1. destruct (Nat.ltb_spec 0 dec).
    - rewrite rev_unit. simpl. do 2 f_equal. unfold dec. lia.
    - rewrite drop_ge; [done|]. unfold dec in *. lia. }
  specialize (IH b (zip_with cell hidden1 s) hiddens1 (output ++ [zip_with cell hidden1 s])).
  destruct (packed_loop cell sizes (concat steps) b (zip_with cell hidden1 s) hiddens1
              (output ++ [zip_with cell hidden1 s])) as [[hiddens' hidden'] output'].
  destruct IH as [Hlen' Hh'].
  { rewrite length_zip_with, Hhidden1, length_take. lia. }
  { done. }
  assert (Hzip : length (zip_with cell hidden1 s) = b).
  { rewrite length_zip_with, Hhidden1, length_take. lia. }
  rewrite Hhiddens1 in Hlen', Hh'.
  split.
  { rewrite Hlen', !length_app, Hzip, length_drop. lia. }
  intros j h Hj. destruct (decide (j < b)) as [Hjb | Hjb].
  - destruct (lookup_lt_is_Some_2 s j) as [x Hx]; [lia|].
    rewrite (column_cons_Some _ _ _ _ Hx). simpl. apply Hh'.
    rewrite lookup_app_l by lia.
    rewrite lookup_app_l in Hj by lia.
    rewrite lookup_zip_with, Hhidden1, lookup_take_lt, Hj, Hx by done. done.
  - rewrite (column_cons_None j s) by (apply lookup_ge_None_2; lia).
    apply Hh'. rewrite lookup_app_r by lia. rewrite Hzip.
    rewrite <- (take_drop b hidden), <- app_assoc in Hj.
    rewrite lookup_app_r in Hj by (rewrite length_take; lia).
    rewrite length_take in Hj. by replace (b `min` length hidden) with b in Hj by lia.
Qed.

End RNNFacts.

(** ** Packing *)

Lemma count_gt_cons (t a : nat) (lengths : list nat) :
  count_gt t (a :: lengths) = (if decide (t < a) then 1 else 0) + count_gt t lengths.
Proof.
  unfold count_gt. destruct (decide (t < a)).
  - by rewrite filter_cons_True.
  - by rewrite filter_cons_False.
Qed.

Lemma count_gt_le (t : nat) (lengths : list nat) : count_gt t lengths <= length lengths.
Proof. apply length_filter. Qed.

Lemma count_gt_mono (t : nat) (lengths : list nat) :
  count_gt (S t) lengths <= count_gt t lengths.
Proof.
  induction lengths as [|a lengths IH]; [done|].
  rewrite !count_gt_cons. repeat case_decide; lia.
Qed.

Lemma count_gt_all (t : nat) (lengths : list nat) :
  Forall (fun l => t < l) lengths -> count_gt t lengths = length lengths.
Proof.
  induction 1 as [|a lengths Ha _ IH]; [done|].
  rewrite count_gt_cons, IH. case_decide; [done | lia].
Qed.

Lemma count_gt_none (t : nat) (lengths : list nat) :
  Forall (fun l => l <= t) lengths -> count_gt t lengths = 0.
Proof.
  induction 1 as [|a lengths Ha _ IH]; [done|].
  rewrite count_gt_cons, IH. case_decide; [lia | done].
Qed.

(** With the lengths in decreasing order, the sequences that reach beyond
    step [t] are the first ones of the batch. *)
Lemma count_gt_sorted (lengths : list nat) (j l t : nat) :
  nonincreasing lengths = true ->
  lengths !! j = Some l ->
  j < count_gt t lengths <-> t < l.
Proof.
  revert j. induction lengths as [|a lengths IH]; intros j Hsorted Hj; [done|].
  pose proof (nonincreasing_Forall _ _ Hsorted) as Hall.
  apply nonincreasing_cons in Hsorted as [_ Hsorted].
  rewrite count_gt_cons. destruct j as [|j]; simpl in Hj.
  - injection Hj as ->. case_decide; [lia|].
    rewrite count_gt_none; [lia|]. eapply Forall_impl; [exact Hall|]. simpl. lia.
  - case_decide.
    + rewrite <- (IH j Hsorted Hj). lia.
    + rewrite count_gt_none by (eapply Forall_impl; [exact Hall|]; simpl; lia).
      assert (l <= a); [|lia].
      apply list_elem_of_lookup_2 in Hj. by eapply Forall_forall in Hall.
Qed.

Lemma nonincreasing_count_gt (lengths : list nat) (t n : nat) :
  nonincreasing ((fun t => count_gt t lengths) <$> seq t n) = true.
Proof.
  revert t. induction n as [|n IH]; intros t; [done|].
  specialize (IH (S t)). destruct n as [|n]; [done|].
  simpl in *. rewrite IH, andb_true_r. apply Nat.leb_le, count_gt_mono.
Qed.

Lemma nonincreasing_hd (l : list nat) :
  nonincreasing l = true -> nonincreasing (hd 0 l :: l) = true.
Proof.
  destruct l as [|a l]; [done|]. intros Hl.
  change (((a <=? a)%nat && nonincreasing (a :: l)) = true).
  by rewrite Nat.leb_refl.
Qed.

Lemma nonincreasing_last (lengths : list nat) (l : nat) :
  nonincreasing lengths = true -> last lengths = Some l -> Forall (fun a => l <= a) lengths.
Proof.
  induction lengths as [|a lengths IH]; intros Hsorted Hlast; [constructor|].
  pose proof (nonincreasing_Forall _ _ Hsorted) as Hall.
  apply nonincreasing_cons in Hsorted as [_ Hsorted].
  destruct lengths as [|b lengths].
  - injection Hlast as ->. by repeat constructor.
  - specialize (IH Hsorted Hlast). constructor; [|done].
    apply Forall_cons in IH as [Hb _]. apply Forall_cons in Hall as [Hba _]. lia.
Qed.

Lemma Sorted_nonincreasing (l : list nat) :
  nonincreasing l = true -> Sorted (fun a b => b <= a) l.
Proof.
  induction l as [|a l IH]; intros Hl; [constructor|].
  apply nonincreasing_cons in Hl as [Ha Hl].
  constructor; [by apply IH|]. destruct l; constructor. done.
Qed.

(** What a returned [pack_padded_sequence] says of its arguments. *)
Lemma pack_padded_sequence_inv {A : Type} (input : list (list A)) (lengths : list nat)
  (packed : PackedSequence A) :
  pack_padded_sequence input lengths = Ok packed ->
  nonincreasing lengths = true
  /\ Forall (fun l => 0 < l) lengths
  /\ 0 < hd 0 lengths <= length input
  /\ packed = {| data := concat (zip_with take
                           ((fun t => count_gt t lengths) <$> seq 0 (hd 0 lengths)) input);
                 batch_sizes := (fun t => count_gt t lengths) <$> seq 0 (hd 0 lengths) |}.
Proof.
  unfold pack_padded_sequence. destruct input as [|row input]; [done|].
  destruct (last lengths) as [l|] eqn:Hlast; [|done].
  destruct (length lengths =? length row)%nat; [|done]. cbn [negb].
  destruct (Nat.eqb_spec l 0) as [|Hl]; [done|].
  destruct (nonincreasing lengths) eqn:Hsorted; [|done]. cbn [negb].
  destruct (Nat.ltb_spec (length (row :: input)) (hd 0 lengths)) as [|Hsteps]; [done|].
  intros [= <-].
  assert (Hall : Forall (fun l => 0 < l) lengths).
  { eapply Forall_impl; [by apply (nonincreasing_last _ l)|]. simpl. lia. }
  split; [done|]. split; [done|]. split; [|done].
  split; [|done]. destruct Hall; [done | done].
Qed.

Lemma steps_lengths {A : Type} (input : list (list A)) (sizes : list nat) (width : nat) :
  Forall (fun step => length step = width) input ->
  Forall (fun b => b <= width) sizes ->
  length sizes <= length input ->
  Forall2 (fun b s => length s = b) sizes (zip_with take sizes input).
Proof.
  intros Hin. revert sizes. induction Hin as [|step input Hstep _ IH]; intros sizes Hs Hlen.
  - destruct sizes; [constructor | simpl in Hlen; lia].
  - destruct sizes as [|b sizes]; [constructor|].
    apply Forall_cons in Hs as [Hb Hs]. simpl in *.
    constructor; [rewrite length_take; lia|]. apply IH; [done | lia].
Qed.

(** The column of a sequence in the packed steps is the sequence cut at
    its length. *)
Lemma column_packed_steps {A : Type} (input : list (list A)) (lengths : list nat)
  (j l t n : nat) :
  nonincreasing lengths = true ->
  lengths !! j = Some l ->
  Forall (fun step => j < length step) input ->
  l <= t + n ->
  column j (zip_with take ((fun t => count_gt t lengths) <$> seq t n) input)
  = take (l - t) (column j input).
Proof.
  intros Hsorted Hj Hin. revert t n.
  induction Hin as [|step input Hstep _ IH]; intros t n Hl.
  - rewrite zip_with_nil_r. change (column j (@nil (list A))) with (@nil A).
    by rewrite take_nil.
  - destruct n as [|n].
    { simpl. replace (l - t) with 0 by lia. done. }
    cbn [seq fmap list_fmap zip_with].
    destruct (lookup_lt_is_Some_2 step j Hstep) as [x Hx].
    destruct (decide (t < l)) as [Htl | Htl].
    + rewrite (column_cons_Some j (take _ step) _ x).
      2:{ rewrite lookup_take_lt; [done|]. by eapply count_gt_sorted. }
      rewrite (column_cons_Some j step _ x Hx).
      replace (l - t) with (S (l - S t)) by lia. simpl. f_equal.
      apply (IH (S t) n). lia.
    + rewrite (column_cons_None j (take _ step)).
      2:{ apply lookup_take_ge.
          destruct (decide (j < count_gt t lengths)) as [Hc | Hc]; [|lia].
          apply (count_gt_sorted _ _ l) in Hc; [lia | done | done]. }
      rewrite (IH (S t) n) by lia.
      replace (l - S t) with 0 by lia. replace (l - t) with 0 by lia. done.
Qed.

Section PackedRNN.

Context {X H : Type}.
Variable cell : H -> X -> H.

(** The network on a packed batch leaves every sequence in the state the
    recurrence reaches over its own elements. *)
Lemma rnn_packed_spec (input : list (list X)) (lengths : list nat)
  (packed : PackedSequence X) (h_0 : list H) :
  Forall (fun step_input => length step_input = length lengths) input ->
  pack_padded_sequence input lengths = Ok packed ->
  length h_0 = length lengths ->
  exists output h_n,
    rnn_packed cell packed h_0 = Ok (output, h_n)
    /\ length h_n = length lengths
    /\ forall j h l, h_0 !! j = Some h -> lengths !! j = Some l ->
         h_n !! j = Some (foldl cell h (take l (column j input))).
Proof.
  intros Hin Hpack Hh0.
  apply pack_padded_sequence_inv in Hpack as (Hsorted & Hpos & [Hhd Hsteps] & ->).
  set (sizes := (fun t => count_gt t lengths) <$> seq 0 (hd 0 lengths)).
  assert (Hsize0 : hd 0 sizes = length lengths).
  { unfold sizes. destruct (hd 0 lengths) as [|m]; [lia|]. simpl.
    by apply count_gt_all. }
  unfold rnn_packed. cbn [batch_sizes data]. fold sizes.
  rewrite Hsize0, Hh0, Nat.eqb_refl.
  pose proof (packed_loop_spec cell sizes (zip_with take sizes input)
                (length lengths) h_0 [] []) as Hloop.
  destruct (packed_loop cell sizes (concat (zip_with take sizes input))
              (length lengths) h_0 [] []) as [[hiddens hidden] output].
  destruct Hloop as [Hlen Hh].
  { apply (steps_lengths _ _ (length lengths)); [done | |].
    - unfold sizes. apply Forall_fmap, Forall_forall. intros t _. apply count_gt_le.
    - unfold sizes. by rewrite length_fmap, length_seq. }
  { done. }
  { rewrite <- Hsize0. apply nonincreasing_hd, nonincreasing_count_gt. }
  do 2 eexists. split; [done|].
  rewrite rev_unit. cbn [concat]. simpl in Hlen, Hh. rewrite app_nil_r in Hlen, Hh.
  split; [by rewrite Hlen|].
  intros j h l Hj Hl. rewrite (Hh j h Hj). do 2 f_equal. unfold sizes.
  replace (take l (column j input)) with (take (l - 0) (column j input))
    by (by rewrite Nat.sub_0_r).
  apply (column_packed_steps input lengths j l 0 (hd 0 lengths)); [done | done | |].
  - eapply Forall_impl; [exact Hin|]. simpl. intros step ->. by eapply lookup_lt_Some.
  - simpl. apply list_elem_of_lookup_2 in Hl.
    pose proof (nonincreasing_Forall (hd 0 lengths) (tail lengths)) as Hall.
    destruct lengths as [|a lengths]; [by apply elem_of_nil in Hl|]. simpl in *.
    apply elem_of_cons in Hl as [-> | Hl]; [done|].
    specialize (Hall Hsorted). by eapply Forall_forall in Hall.
Qed.

Lemma select_sequence_column (embedded : list (list X)) (j : nat) :
  Forall (fun step_input => j < length step_input) embedded ->
  select_sequence embedded j = Ok ((fun x => [x]) <$> column j embedded).
Proof.
  unfold select_sequence.
  induction 1 as [|step embedded Hstep _ IH]; [done|].
  destruct (lookup_lt_is_Some_2 step j Hstep) as [x Hx].
  rewrite (column_cons_Some _ _ _ _ Hx). cbn [traverse]. by rewrite Hx, IH.
Qed.

Lemma column_singletons (xs : list X) : column 0 ((fun x => [x]) <$> xs) = xs.
Proof.
  induction xs as [|x xs IH]; [done|].
  rewrite fmap_cons, (column_cons_Some 0 [x] _ x) by done. by rewrite IH.
Qed.

(** The network on one sequence of the batch, alone. *)
Lemma rnn_single_spec (embedded : list (list X)) (lengths : list nat) (h : H) (j l : nat) :
  Forall (fun step_input => j < length step_input) embedded ->
  lengths !! j = Some l ->
  take l (column j embedded) ≠ [] ->
  exists out_j,
    rnn_single cell embedded lengths [h] j
    = Ok (out_j, [foldl cell h (take l (column j embedded))]).
Proof.
  intros Hin Hl Hsteps. unfold rnn_single. rewrite Hl. cbn [bind].
  rewrite select_sequence_column by done. cbn [bind].
  rewrite <- fmap_take.
  set (xs := take l (column j embedded)) in *.
  assert (Hone : Forall (fun step_input : list X => length step_input = length [h])
                   ((fun x => [x]) <$> xs)).
  { apply Forall_fmap, Forall_forall. done. }
  rewrite rnn_padded_Ok; [|by destruct xs|done].
  pose proof (rnn_steps_spec cell ((fun x => [x]) <$> xs) [h] Hone) as Hspec.
  destruct (rnn_steps cell ((fun x => [x]) <$> xs) [h]) as [out_j h_n].
  destruct Hspec as [Hlen Hh]. specialize (Hh 0 h eq_refl).
  rewrite column_singletons in Hh.
  exists out_j. do 2 f_equal.
  destruct h_n as [|h' [|??]]; simpl in Hlen; try discriminate Hlen.
  by injection Hh as ->.
Qed.

End PackedRNN.

(** ** The hidden states of the notebook *)

Lemma padded_sequence (s : list Z) (steps : nat) :
  length s <= steps ->
  (fun t => default 0%Z (s !! t)) <$> seq 0 steps = s ++ replicate (steps - length s) 0%Z.
Proof.
  intros Hlen. apply list_eq. intros t. rewrite list_lookup_fmap.
  destruct (decide (t < length s)) as [Ht | Ht].
  - rewrite lookup_seq_lt, lookup_app_l by lia. simpl.
    by destruct (lookup_lt_is_Some_2 s t Ht) as [x ->].
  - rewrite lookup_app_r by lia.
    destruct (decide (t < steps)) as [Hts | Hts].
    + rewrite lookup_seq_lt, lookup_replicate_2 by lia. simpl.
      by rewrite lookup_ge_None_2 by lia.
    + rewrite lookup_seq_ge by lia. simpl. symmetry.
      apply lookup_replicate_None. lia.
Qed.

Section CorrespondenceFacts.

Context {X H : Type}.
Variable embedding : Z -> X.
Variable cell : H -> X -> H.
Variable test_inputs : list (list Z).

Lemma embed_padded_rows :
  test_inputs ≠ [] -> embed_padded embedding test_inputs = Ok (embedded_rows embedding test_inputs).
Proof.
  intros Hne. unfold embed_padded. by rewrite pad_sequence_rows.
Qed.

Lemma embedded_rows_width :
  Forall (fun step_input => length step_input = length test_inputs) (embedded_rows embedding test_inputs).
Proof.
  unfold embedded_rows, pad_rows. rewrite <- list_fmap_compose.
  apply Forall_fmap, Forall_forall. intros t _. simpl. by rewrite !length_fmap.
Qed.

Lemma embedded_rows_length : length (embedded_rows embedding test_inputs) = max_list (length <$> test_inputs).
Proof. unfold embedded_rows, pad_rows. by rewrite !length_fmap, length_seq. Qed.

Lemma embedded_rows_steps :
  max_list (length <$> test_inputs) ≠ 0 -> embedded_rows embedding test_inputs ≠ [].
Proof.
  intros Hlong Hnil. apply (f_equal length) in Hnil.
  by rewrite embedded_rows_length in Hnil.
Qed.

Lemma seq_length_le (j : nat) (seq_j : list Z) :
  test_inputs !! j = Some seq_j -> length seq_j <= max_list (length <$> test_inputs).
Proof.
  intros Hj. apply max_list_elem_of_le, list_elem_of_lookup.
  exists j. by rewrite list_lookup_fmap, Hj.
Qed.

(** Sequence [j] in the embedded padded batch: its elements, then the
    padding, all embedded. *)
Lemma embedded_rows_column (j : nat) (seq_j : list Z) :
  test_inputs !! j = Some seq_j ->
  column j (embedded_rows embedding test_inputs)
  = (embedding <$> seq_j)
    ++ replicate (max_list (length <$> test_inputs) - length seq_j) (embedding 0%Z).
Proof.
  intros Hj. rewrite <- fmap_replicate, <- fmap_app.
  rewrite <- padded_sequence by (by apply (seq_length_le j)).
  unfold embedded_rows, pad_rows.
  induction (seq 0 (max_list (length <$> test_inputs))) as [|t ts IH]; [done|].
  rewrite !fmap_cons. rewrite (column_cons_Some j _ _ (embedding (default 0%Z (seq_j !! t)))).
  - by rewrite IH.
  - by rewrite !list_lookup_fmap, Hj.
Qed.

(** [test_hn_states[j]] is the recurrence over sequence [j]. *)
Lemma hn_state_spec (h : H) (j : nat) (seq_j : list Z) :
  test_inputs !! j = Some seq_j ->
  seq_j ≠ [] ->
  hn_state embedding cell test_inputs h j = Ok [foldl cell h (embedding <$> seq_j)].
Proof.
  intros Hj Hseq. assert (Hcol : take (length seq_j) (column j (embedded_rows embedding test_inputs))
                               = embedding <$> seq_j).
  { rewrite (embedded_rows_column j seq_j Hj).
    rewrite take_app_length'; [done|]. by rewrite length_fmap. }
  assert (Hne : test_inputs ≠ []) by (by destruct test_inputs).
  unfold hn_state. rewrite embed_padded_rows by done. cbn [bind].
  assert (Hh0 : index0 (replicate (length test_inputs) h) = Ok h).
  { by destruct test_inputs. }
  rewrite Hh0. cbn [bind].
  destruct (rnn_single_spec cell (embedded_rows embedding test_inputs) (length <$> test_inputs) h j (length seq_j))
    as [out_j Hsingle].
  - eapply Forall_impl; [apply embedded_rows_width|]. simpl. intros step ->.
    by eapply lookup_lt_Some.
  - by rewrite list_lookup_fmap, Hj.
  - rewrite Hcol. by destruct seq_j.
  - rewrite Hsingle. cbn [bind]. by rewrite Hcol.
Qed.

(** [hn_padded[j]] is the recurrence over sequence [j] and on over the
    padding. *)
Lemma hn_padded_spec (h : H) :
  test_inputs ≠ [] ->
  0 < max_list (length <$> test_inputs) ->
  exists hs,
    hn_padded embedding cell test_inputs h = Ok hs
    /\ length hs = length test_inputs
    /\ forall j seq_j, test_inputs !! j = Some seq_j ->
         hs !! j
         = Some (foldl cell (foldl cell h (embedding <$> seq_j))
                   (replicate (max_list (length <$> test_inputs) - length seq_j)
                      (embedding 0%Z))).
Proof.
  intros Hne Hlong. unfold hn_padded. rewrite embed_padded_rows by done. cbn [bind].
  assert (Hwidth : Forall (fun step_input : list X =>
                             length step_input = length (replicate (length test_inputs) h))
                     (embedded_rows embedding test_inputs)).
  { rewrite length_replicate. apply embedded_rows_width. }
  rewrite rnn_padded_Ok; [|apply embedded_rows_steps; lia|done].
  pose proof (rnn_steps_spec cell (embedded_rows embedding test_inputs) _ Hwidth) as Hspec.
  destruct (rnn_steps cell (embedded_rows embedding test_inputs) (replicate (length test_inputs) h)) as [output h_n].
  destruct Hspec as [Hlen Hh]. exists h_n. cbn [bind]. split; [done|].
  split; [by rewrite Hlen, length_replicate|].
  intros j seq_j Hj. rewrite (Hh j h).
  - by rewrite (embedded_rows_column j seq_j Hj), foldl_app.
  - apply lookup_replicate_2. by eapply lookup_lt_Some.
Qed.

(** [test_hn_batch[j]] is the recurrence over sequence [j]. *)
Lemma hn_batch_spec (h : H) :
  test_inputs ≠ [] ->
  Forall (fun s => 0 < length s) test_inputs ->
  nonincreasing (length <$> test_inputs) = true ->
  exists hs,
    hn_batch embedding cell test_inputs h = Ok hs
    /\ length hs = length test_inputs
    /\ forall j seq_j, test_inputs !! j = Some seq_j ->
         hs !! j = Some (foldl cell h (embedding <$> seq_j)).
Proof.
  intros Hne Hpos Hsorted. unfold hn_batch. rewrite embed_padded_rows by done. cbn [bind].
  assert (Hhd : hd 0 (length <$> test_inputs) = max_list (length <$> test_inputs)).
  { symmetry. by apply max_list_sorted_desc, Sorted_nonincreasing. }
  assert (Hlong : 0 < max_list (length <$> test_inputs)).
  { rewrite <- Hhd. destruct Hpos; [done | simpl; lia]. }
  assert (Hlast : exists l, last (length <$> test_inputs) = Some l /\ 0 < l).
  { destruct (last (length <$> test_inputs)) as [l|] eqn:Hl.
    - exists l. split; [done|]. apply last_Some in Hl as [ls Hls].
      assert (Hin : l ∈ length <$> test_inputs).
      { rewrite Hls. apply elem_of_app. right. by left. }
      apply list_elem_of_fmap in Hin as (s & -> & Hs).
      by eapply Forall_forall in Hpos.
    - apply last_None, fmap_nil_inv in Hl. done. }
  destruct Hlast as (l & Hlast & Hl).
  assert (Hrow : exists row, head (embedded_rows embedding test_inputs) = Some row
                             /\ length (length <$> test_inputs) = length row).
  { pose proof embedded_rows_width as Hw. pose proof embedded_rows_length as Hlen.
    destruct (embedded_rows embedding test_inputs) as [|row rows]; [simpl in Hlen; lia|].
    exists row. split; [done|]. apply Forall_cons in Hw as [-> _]. by rewrite length_fmap. }
  destruct Hrow as (row & Hrow & Hwidth).
  assert (Hle : hd 0 (length <$> test_inputs) <= length (embedded_rows embedding test_inputs)).
  { by rewrite Hhd, embedded_rows_length. }
  pose proof (pack_padded_sequence_Ok _ _ row l Hrow Hlast Hwidth Hl Hsorted Hle) as Hpack.
  rewrite Hpack. cbn [bind].
  assert (Hin : Forall (fun step_input : list X =>
                          length step_input = length (length <$> test_inputs)) (embedded_rows embedding test_inputs)).
  { rewrite length_fmap. apply embedded_rows_width. }
  assert (Hh0 : length (replicate (length test_inputs) h) = length (length <$> test_inputs)).
  { by rewrite length_replicate, length_fmap. }
  destruct (rnn_packed_spec cell (embedded_rows embedding test_inputs) (length <$> test_inputs) _
              (replicate (length test_inputs) h) Hin Hpack Hh0)
    as (output & h_n & Hpacked & Hlen & Hh).
  rewrite Hpacked. cbn [bind]. exists h_n. split; [done|].
  split; [by rewrite Hlen, length_fmap|].
  intros j seq_j Hj. rewrite (Hh j h (length seq_j)).
  - do 2 f_equal. rewrite (embedded_rows_column j seq_j Hj).
    rewrite take_app_length'; [done|]. by rewrite length_fmap.
  - apply lookup_replicate_2. by eapply lookup_lt_Some.
  - by rewrite list_lookup_fmap, Hj.
Qed.

End CorrespondenceFacts.

(** C4.  For a batch of sequences, none empty, in descending order of
    length, padded into one tensor, embedded and packed with the lengths of
    the sequences, and an initial hidden state that is the same for every
    sequence: the last hidden state the network gives sequence [j] in the
    one packed run is the last hidden state of the network run on sequence
    [j] alone, cut at its length, from that initial state; both are the
    recurrence over the elements of the sequence. *)
Theorem packed_hidden_states_match {X H : Type} (embedding : Z -> X) (cell : H -> X -> H)
  (test_inputs : list (list Z)) (h : H) :
  test_inputs ≠ [] ->
  Forall (fun s => 0 < length s) test_inputs ->
  nonincreasing (length <$> test_inputs) = true ->
  exists test_hn_batch,
    hn_batch embedding cell test_inputs h = Ok test_hn_batch
    /\ length test_hn_batch = length test_inputs
    /\ forall j seq_j, test_inputs !! j = Some seq_j ->
         exists h_j,
           test_hn_batch !! j = Some h_j
           /\ hn_state embedding cell test_inputs h j = Ok [h_j]
           /\ h_j = foldl cell h (embedding <$> seq_j).
Proof.
  intros Hne Hpos Hsorted.
  destruct (hn_batch_spec embedding cell test_inputs h Hne Hpos Hsorted)
    as (hs & Hbatch & Hlen & Hh).
  exists hs. split; [done|]. split; [done|].
  intros j seq_j Hj. exists (foldl cell h (embedding <$> seq_j)).
  split; [by apply Hh|]. split; [|done].
  apply hn_state_spec; [done|].
  eapply Forall_lookup_1 in Hpos; [|done]. intros ->. simpl in Hpos. lia.
Qed.

(** The batch of the notebook, through a [relu] cell on integers. *)
Lemma packed_hidden_states_match_witness :
  exists test_hn_batch,
    hn_batch (fun x => x) (relu_cell 1 0 1 1) test_inputs0 0%Z = Ok test_hn_batch
    /\ length test_hn_batch = length test_inputs0
    /\ forall j seq_j, test_inputs0 !! j = Some seq_j ->
         exists h_j,
           test_hn_batch !! j = Some h_j
           /\ hn_state (fun x => x) (relu_cell 1 0 1 1) test_inputs0 0%Z j = Ok [h_j]
           /\ h_j = foldl (relu_cell 1 0 1 1) 0%Z ((fun x => x) <$> seq_j).
Proof.
  apply (packed_hidden_states_match (fun x => x) (relu_cell 1 0 1 1) test_inputs0 0%Z).
  - done.
  - repeat constructor.
  - reflexivity.
Defined.

Example hn_batch_test_inputs0 :
  hn_batch (fun x => x) (relu_cell 1 0 1 1) test_inputs0 0%Z = Ok [10; 12; 12; 10; 12]%Z.
Proof. reflexivity. Qed.

Example hn_padded_test_inputs0 :
  hn_padded (fun x => x) (relu_cell 1 0 1 1) test_inputs0 0%Z = Ok [10; 13; 14; 13; 15]%Z.
Proof. reflexivity. Qed.

(** C7.  Whenever one more step of the recurrence, on the embedded padding
    index, moves the state a sequence ends in, there is a batch holding that
    sequence and a longer one in which the network run on the padded tensor,
    without packing, leaves the sequence in a last hidden state other than
    the one of the run on the sequence alone, cut at its length (which is
    also the one of the packed run): the unpacked run goes on through the
    padding. *)
Theorem padded_hidden_state_mismatch {X H : Type} (embedding : Z -> X) (cell : H -> X -> H)
  (h : H) (s : list Z) (x : Z) :
  s ≠ [] ->
  cell (foldl cell h (embedding <$> s)) (embedding 0%Z) ≠ foldl cell h (embedding <$> s) ->
  exists test_inputs j seq_j h_j test_hn_batch hn,
    nonincreasing (length <$> test_inputs) = true
    /\ test_inputs !! j = Some seq_j
    /\ length seq_j < max_list (length <$> test_inputs)
    /\ hn_state embedding cell test_inputs h j = Ok [h_j]
    /\ hn_batch embedding cell test_inputs h = Ok test_hn_batch
    /\ test_hn_batch !! j = Some h_j
    /\ hn_padded embedding cell test_inputs h = Ok hn
    /\ exists h_j', hn !! j = Some h_j' /\ h_j' ≠ h_j.
Proof.
  intros Hs Hmoves.
  set (test_inputs := [s ++ [x]; s]).
  assert (Hlong : max_list (length <$> test_inputs) = S (length s)).
  { simpl. rewrite length_app. simpl. lia. }
  assert (Hsorted : nonincreasing (length <$> test_inputs) = true).
  { simpl. rewrite length_app. simpl. rewrite andb_true_r. apply Nat.leb_le. lia. }
  destruct (hn_batch_spec embedding cell test_inputs h) as (hb & Hbatch & _ & Hb);
    [done | | done |].
  { repeat constructor; [rewrite length_app; simpl; lia|].
    destruct s; [done | simpl; lia]. }
  destruct (hn_padded_spec embedding cell test_inputs h) as (hn & Hpadded & _ & Hn);
    [done | lia |].
  exists test_inputs, 1, s, (foldl cell h (embedding <$> s)), hb, hn.
  split; [done|]. split; [done|]. split; [lia|].
  split; [by apply hn_state_spec|]. split; [done|]. split; [by apply Hb|].
  split; [done|].
  eexists. split; [by apply Hn|].
  rewrite Hlong. replace (S (length s) - length s) with 1 by lia. done.
Qed.

Lemma padded_hidden_state_mismatch_witness :
  exists test_inputs j seq_j h_j test_hn_batch hn,
    nonincreasing (length <$> test_inputs) = true
    /\ test_inputs !! j = Some seq_j
    /\ length seq_j < max_list (length <$> test_inputs)
    /\ hn_state (fun x => x) (relu_cell 1 0 1 1) test_inputs 0%Z j = Ok [h_j]
    /\ hn_batch (fun x => x) (relu_cell 1 0 1 1) test_inputs 0%Z = Ok test_hn_batch
    /\ test_hn_batch !! j = Some h_j
    /\ hn_padded (fun x => x) (relu_cell 1 0 1 1) test_inputs 0%Z = Ok hn
    /\ exists h_j', hn !! j = Some h_j' /\ h_j' ≠ h_j.
Proof.
  apply (padded_hidden_state_mismatch (fun x => x) (relu_cell 1 0 1 1) 0%Z [4; 4]%Z 4%Z).
  - done.
  - vm_compute. discriminate.
Defined.

(** * Further properties of the notebooks' code *)

(** ** Keys *)

Lemma sub_suffix_witness :
  Re.sub ascii_only (lit "AvgPool2d" ++ Re.underscore :: lit "2b") = lit "AvgPool2d".
Proof.
  apply (sub_suffix ascii_only (lit "AvgPool2d") (lit "2b"));
    [reflexivity | discriminate | reflexivity].
Defined.

Lemma clean_sub_from (ucd : Unicode) (s : str) :
  clean ucd s = true -> Re.sub_from ucd 0 s = s.
Proof.
  induction s as [|c s IH]; [done|].
  cbn [clean Re.sub_from]. destruct (Re.match_len ucd (c :: s)); [done|].
  intros Hs. by rewrite IH.
Qed.

Lemma underscore_in_class (ucd : Unicode) : Re.in_class ucd Re.underscore = true.
Proof. reflexivity. Qed.

Lemma sub_from_clean (ucd : Unicode) (k : nat) (s : str) :
  clean ucd (Re.sub_from ucd k s) = true.
Proof.
  revert k. induction s as [|c s IH]; intros k; [done|].
  cbn [Re.sub_from]. destruct k as [|k]; [|apply IH].
  destruct (Re.match_len ucd (c :: s)) as [[|n]|] eqn:Hmatch; [| apply IH |].
  - cbn [Re.match_len] in Hmatch. destruct (c =? Re.underscore)%N; [|done].
    by destruct (Re.class_run ucd s).
  - cbn [clean]. rewrite IH.
    enough (Re.match_len ucd (c :: Re.sub_from ucd 0 s) = None) as -> by done.
    cbn [Re.match_len] in *. destruct (c =? Re.underscore)%N; [|done].
    destruct s as [|d s]; [done|].
    cbn [Re.class_run] in Hmatch. destruct (Re.in_class ucd d) eqn:Hd; [done|].
    cbn [Re.sub_from Re.match_len].
    destruct (N.eqb_spec d Re.underscore) as [-> | _];
      [by rewrite underscore_in_class in Hd|].
    cbn [Re.class_run]. by rewrite Hd.
Qed.

(** X2.  The stripped key holds no underscore followed by a letter, a
    digit or an underscore, so stripping a stripped key changes nothing: no
    handled layer type can be reached by a key through more than one
    stripping, and a key such as [Max_Pool2d] is cut at its first
    underscore. *)
Theorem sub_idempotent (ucd : Unicode) (layer_type : str) :
  clean ucd (Re.sub ucd layer_type) = true
  /\ Re.sub ucd (Re.sub ucd layer_type) = Re.sub ucd layer_type.
Proof.
  unfold Re.sub. split; [apply sub_from_clean|].
  apply clean_sub_from, sub_from_clean.
Qed.

Example sub_inner_underscore (ucd : Unicode) : Re.sub ucd (lit "Max_Pool2d_1") = lit "Max".
Proof. reflexivity. Qed.

(** ** [ConvNet.__init__] and [ConvNet.forward], continued *)

(** X3.  [__init__] stops at the first entry it cannot build: when the
    entries before it can be built, the exception is the one of that entry,
    whatever comes after it. *)
Theorem ConvNet_init_first_error (ucd : Unicode) (refuses : Layer -> option exn_class)
  (good rest : list (str * Params)) (bad : str * Params) (e : exn) :
  Forall (fun entry => exists layer, entry_layer ucd refuses entry = Ok layer) good ->
  entry_layer ucd refuses bad = Raise e ->
  ConvNet_init ucd refuses (good ++ bad :: rest) = Raise e.
Proof.
  intros Hgood Hbad. rewrite ConvNet_init_traverse. unfold items.
  destruct (traverse_total _ _ Hgood) as [ls Hls].
  assert (Htr : traverse (entry_layer ucd refuses) (good ++ bad :: rest) = Raise e).
  { apply traverse_Raise. by exists good, bad, rest, ls. }
  by rewrite Htr.
Qed.

Lemma ConvNet_init_first_error_witness :
  ConvNet_init ascii_only example_nn
    [(lit "Conv2d_1", Some [1; 6; 5; 1; 2]%Z); (lit "Tanh", None);
     (lit "Linear_1", Some [-3; 4]%Z); (lit "Softmax", None)]
  = Raise (ConstructorError RuntimeError).
Proof.
  apply (ConvNet_init_first_error ascii_only example_nn
           [(lit "Conv2d_1", Some [1; 6; 5; 1; 2]%Z); (lit "Tanh", None)]
           [(lit "Softmax", None)]
           (lit "Linear_1", Some [-3; 4]%Z)).
  - repeat constructor; by eexists.
  - reflexivity.
Defined.





(** With a shared key the update replaces the value of the key where it
    stands: two dictionaries with the one key [Tanh] make a network of one
    layer. *)
Example update_shared_key :
  ConvNet_init ascii_only example_nn (update [(lit "Tanh", None)] [(lit "Tanh", None)])
  = Ok {| layers := [Tanh] |}.
Proof. reflexivity. Qed.

(** ** [Flatten.forward], continued *)

Lemma infer_size_zero (n : nat) : infer_size [0%Z; (-1)%Z] (0 * n) = Raise ShapeError.
Proof. reflexivity. Qed.

(** X5.  What [Flatten.forward] does on every contiguous tensor: without
    a dimension there is no first size to read ([IndexError]); with an empty
    first dimension the second one cannot be inferred ([RuntimeError]);
    otherwise the elements are returned, contiguous, under the size
    [(x.size(0), n)]. *)
Theorem Flatten_forward_cases {A : Type} (strided : Tensor A -> list nat -> option bool)
  (x : Tensor A) :
  contiguous x = true ->
  Flatten_forward strided x
  = match size x with
    | [] => Raise IndexErr
    | 0 :: _ => Raise ShapeError
    | d0 :: rest =>
        Ok {| size := [d0; numel rest]; contents := contents x; contiguous := true |}
    end.
Proof.
  intros Hcontiguous. unfold Flatten_forward, size_at, view.
  destruct (size x) as [|d0 rest] eqn:Hsize; [done|]. cbn [lookup list_lookup bind].
  change (numel (d0 :: rest)) with (d0 * numel rest).
  destruct d0 as [|d0].
  - by rewrite infer_size_zero.
  - rewrite infer_size_flatten by lia. cbn [bind]. by rewrite Hcontiguous.
Qed.

Lemma Flatten_forward_cases_witness :
  Flatten_forward no_view {| size := [3; 2; 2]; contents := seq 0 12; contiguous := true |}
  = Ok {| size := [3; 4]; contents := seq 0 12; contiguous := true |}.
Proof.
  apply (Flatten_forward_cases no_view
           {| size := [3; 2; 2]; contents := seq 0 12; contiguous := true |}).
  reflexivity.
Defined.

(** X6.  Flattening is idempotent, and a tensor that is flat already
    (two dimensions) comes back as it is, contiguous or not. *)
Theorem Flatten_forward_idempotent {A : Type} (strided : Tensor A -> list nat -> option bool)
  (x y : Tensor A) :
  Flatten_forward strided x = Ok y ->
  Flatten_forward strided y = Ok y /\ (length (size x) = 2 -> y = x).
Proof.
  unfold Flatten_forward, size_at, view.
  destruct x as [[|d0 rest] xs c]; [done|].
  cbn [size contents contiguous lookup list_lookup bind].
  change (numel (d0 :: rest)) with (d0 * numel rest).
  destruct d0 as [|d0]; [by rewrite infer_size_zero|].
  rewrite infer_size_flatten by lia. cbn [bind].
  assert (Hflat : infer_size [Z.of_nat (S d0); (-1)%Z] (numel [S d0; numel rest])
                  = Ok [S d0; numel rest]).
  { change (numel [S d0; numel rest]) with (S d0 * (numel rest * 1)).
    rewrite Nat.mul_1_r. by rewrite infer_size_flatten by lia. }
  assert (Hsame : length (S d0 :: rest) = 2 -> [S d0; numel rest] = S d0 :: rest).
  { destruct rest as [|n [|??]]; try discriminate. intros _.
    change (numel [n]) with (n * 1). by rewrite Nat.mul_1_r. }
  destruct c.
  - intros [= <-]. cbn [size contents contiguous lookup list_lookup bind].
    rewrite Hflat. cbn [bind]. split; [done|].
    intros Hlen. by rewrite (Hsame Hlen).
  - case_bool_decide as Hsize.
    + intros [= <-]. cbn [size contents contiguous lookup list_lookup bind].
      change (numel (S d0 :: rest)) with (S d0 * numel rest).
      rewrite infer_size_flatten by lia. cbn [bind].
      by rewrite bool_decide_eq_true_2.
    + destruct (strided _ _) as [c'|]; [|done]. intros [= <-].
      cbn [size contents contiguous lookup list_lookup bind].
      rewrite Hflat. cbn [bind]. split.
      * destruct c'; [done|]. by rewrite bool_decide_eq_true_2.
      * intros Hlen. by destruct Hsize; apply Hsame.
Qed.

Lemma Flatten_forward_idempotent_witness :
  Flatten_forward no_view {| size := [2; 6]; contents := seq 0 12; contiguous := true |}
  = Ok {| size := [2; 6]; contents := seq 0 12; contiguous := true |}.
Proof.
  apply (Flatten_forward_idempotent no_view
           {| size := [2; 3; 2]; contents := seq 0 12; contiguous := true |}).
  reflexivity.
Defined.

(** ** [evaluate], continued *)

(** X7.  [evaluate] leaves the state as it found it on every dataset, also
    when it raises: the parameters are not written, no graph is recorded,
    and the gradient mode the caller had is back, since the [with] block
    restores it on an exception too. *)
Theorem evaluate_frame {Images Weights Score : Type}
  (net : Weights -> Images -> list (list Score)) (gtb : Score -> Score -> bool)
  (st : Torch Weights) (test_data : list (Images * list Z)) :
  parameters (evaluate net gtb st test_data).1 = parameters st
  /\ recorded (evaluate net gtb st test_data).1 = recorded st
  /\ grad_enabled (evaluate net gtb st test_data).1 = grad_enabled st.
Proof. by rewrite evaluate_state. Qed.

(** A batch whose scores have no class makes [evaluate] raise; the state
    is back all the same. *)
Example evaluate_raises_restores :
  evaluate (fun (w : Z) (images : list Z) => (fun _ => @nil Z) <$> images) Z.gtb
    {| grad_enabled := true; parameters := 2%Z; recorded := 5 |} [([7%Z], [0%Z])]
  = ({| grad_enabled := true; parameters := 2%Z; recorded := 5 |}, Raise IndexErr).
Proof. reflexivity. Qed.

Lemma evaluate_fits {Images Weights Score : Type}
  (net : Weights -> Images -> list (list Score)) (gtb : Score -> Score -> bool)
  (st : Torch Weights) (test_data : list (Images * list Z)) :
  fits net (parameters st) test_data ->
  evaluate net gtb st test_data
  = (st, let* accuracy := percent (num_correct net gtb (parameters st) test_data)
                            (num_samples net (parameters st) test_data) in
         Ok (num_samples net (parameters st) test_data, accuracy)).
Proof.
  intros Hfits.
  rewrite (surjective_pairing (evaluate net gtb st test_data)).
  rewrite evaluate_state. f_equal. unfold evaluate.
  pose proof (evaluate_loop_counts net gtb (set_grad_enabled false st) test_data 0 0
                eq_refl Hfits) as Hcounts.
  destruct (evaluate_loop net gtb (set_grad_enabled false st) test_data 0 0) as [st' r].
  simpl in *. by subst r.
Qed.

(** X8.  For a network that scores its samples one by one, the result of
    [evaluate] does not depend on how the dataset is cut into batches: it is
    the result on the one batch of all samples. *)
Theorem evaluate_batching {Image Weights Score : Type}
  (score : Weights -> Image -> list Score) (gtb : Score -> Score -> bool)
  (st : Torch Weights) (test_data : list (list Image * list Z)) :
  Forall (fun '(images, truth) => length images = length truth) test_data ->
  (forall w image, score w image ≠ []) ->
  evaluate (fun w images => score w <$> images) gtb st test_data
  = evaluate (fun w images => score w <$> images) gtb st
      [(concat test_data.*1, concat test_data.*2)].
Proof.
  intros Hlen Hscore.
  set (net := fun w (images : list Image) => score w <$> images).
  assert (Hrows : forall w images, Forall (fun row => row ≠ []) (net w images)).
  { intros w images. apply Forall_fmap, Forall_forall. intros image _. apply Hscore. }
  assert (Hfits : fits net (parameters st) test_data).
  { eapply Forall_impl; [exact Hlen|]. intros [images truth] Hl.
    split; [by unfold net; rewrite length_fmap | apply Hrows]. }
  assert (Hall : length (concat test_data.*1) = length (concat test_data.*2)).
  { clear Hfits. induction Hlen as [|[images truth] data Hl _ IH]; [done|].
    csimpl. rewrite !length_app. by rewrite Hl, IH. }
  assert (Hfits1 : fits net (parameters st) [(concat test_data.*1, concat test_data.*2)]).
  { repeat constructor; [by unfold net; rewrite length_fmap | apply Hrows]. }
  rewrite !evaluate_fits by done.
  assert (Hsamples : samples net (parameters st) [(concat test_data.*1, concat test_data.*2)]
                     = samples net (parameters st) test_data).
  { unfold samples. csimpl. rewrite app_nil_r. unfold net.
    clear Hfits Hfits1 Hall. induction Hlen as [|[images truth] data Hl _ IH]; [done|].
    csimpl. rewrite fmap_app, zip_with_app by (by rewrite length_fmap). by rewrite IH. }
  unfold num_correct, num_samples. by rewrite Hsamples.
Qed.

(** A network that scores its samples one by one. *)
Lemma evaluate_batching_witness :
  evaluate (fun (w : Z) images => (fun x => [x; w; (x * x)%Z]) <$> images) Z.gtb
    {| grad_enabled := true; parameters := 2%Z; recorded := 0 |}
    [([0; 1; 2; 3], [1; 1; 2; 0]); ([5; 1], [2; 2])]%Z
  = evaluate (fun (w : Z) images => (fun x => [x; w; (x * x)%Z]) <$> images) Z.gtb
      {| grad_enabled := true; parameters := 2%Z; recorded := 0 |}
      [([0; 1; 2; 3; 5; 1], [1; 1; 2; 0; 2; 2])]%Z.
Proof.
  apply (evaluate_batching (fun (w x : Z) => [x; w; (x * x)%Z]) Z.gtb
           {| grad_enabled := true; parameters := 2%Z; recorded := 0 |}
           [([0; 1; 2; 3], [1; 1; 2; 0]); ([5; 1], [2; 2])]%Z).
  - repeat constructor.
  - done.
Defined.

(** X9.  On a dataset that fits the network, the accuracy [evaluate]
    prints lies between 0 and 100. *)
Theorem evaluate_accuracy_range {Images Weights Score : Type}
  (net : Weights -> Images -> list (list Score)) (gtb : Score -> Score -> bool)
  (st st' : Torch Weights) (test_data : list (Images * list Z)) (n : nat) (accuracy : Q) :
  fits net (parameters st) test_data ->
  evaluate net gtb st test_data = (st', Ok (n, accuracy)) ->
  (0 <= accuracy <= 100)%Q.
Proof.
  intros Hfits. rewrite evaluate_fits by done. unfold percent.
  set (c := num_correct net gtb (parameters st) test_data).
  assert (Hc : c <= num_samples net (parameters st) test_data) by apply length_filter.
  destruct (Nat.eqb_spec (num_samples net (parameters st) test_data) 0) as [|Hn]; [done|].
  cbn [bind]. intros [= _ <- <-].
  assert (Hpos : (0 < inject_Z (Z.of_nat (num_samples net (parameters st) test_data)))%Q).
  { change 0%Q with (inject_Z 0). rewrite <- Zlt_Qlt. lia. }
  split.
  - apply Qle_shift_div_l; [done|]. rewrite Qmult_0_l.
    change 0%Q with (inject_Z 0). rewrite <- Zle_Qle. lia.
  - apply Qle_shift_div_r; [done|].
    change 100%Q with (inject_Z 100). rewrite <- inject_Z_mult, <- Zle_Qle. lia.
Qed.

Lemma evaluate_accuracy_range_witness : (0 <= inject_Z 400 / inject_Z 6 <= 100)%Q.
Proof.
  apply (evaluate_accuracy_range toy_net Z.gtb
           {| grad_enabled := true; parameters := 2%Z; recorded := 0 |}
           {| grad_enabled := true; parameters := 2%Z; recorded := 0 |} toy_data 6).
  - repeat constructor; done.
  - reflexivity.
Defined.

(** Labels that do not fit break the range: a batch of two samples with a
    single label is compared by broadcasting, both samples match it, and one
    sample is counted. *)
Example evaluate_broadcast :
  evaluate toy_net Z.gtb {| grad_enabled := true; parameters := 2%Z; recorded := 0 |}
    [([0; 1], [1])]%Z
  = ({| grad_enabled := true; parameters := 2%Z; recorded := 0 |},
     Ok (1, (inject_Z 200 / inject_Z 1)%Q)).
Proof. reflexivity. Qed.

(** ** Packing and unpacking *)

Lemma unpack_steps_concat {A : Type} (padding_value : A) (width : nat)
  (sizes : list nat) (steps : list (list A)) :
  Forall2 (fun b s => length s = b) sizes steps ->
  unpack_steps padding_value width sizes (concat steps)
  = (fun s => s ++ replicate (width - length s) padding_value) <$> steps.
Proof.
  induction 1 as [|b s sizes steps Hs _ IH]; [done|].
  cbn [unpack_steps concat]. rewrite take_app_length', drop_app_length' by done.
  by rewrite IH, fmap_cons, Hs.
Qed.

Lemma count_gt_sizes (lengths ts : list nat) (j l : nat) :
  nonincreasing lengths = true ->
  lengths !! j = Some l ->
  count_gt j ((fun t => count_gt t lengths) <$> ts) = length (filter (fun t => t < l) ts).
Proof.
  intros Hsorted Hj. induction ts as [|t ts IH]; [done|].
  rewrite fmap_cons, count_gt_cons, IH.
  pose proof (count_gt_sorted lengths j l t Hsorted Hj) as Hiff.
  destruct (decide (t < l)) as [Ht | Ht].
  - rewrite filter_cons_True by done. case_decide; [done | tauto].
  - rewrite filter_cons_False by done. case_decide; [tauto | done].
Qed.

Lemma length_filter_lt_seq (l n : nat) :
  length (filter (fun t => t < l) (seq 0 n)) = l `min` n.
Proof.
  induction n as [|n IH]; [simpl; lia|].
  rewrite seq_S, filter_app, length_app, IH. simpl.
  destruct (decide (n < l)).
  - rewrite filter_cons_True by done. simpl. lia.
  - rewrite filter_cons_False by done. simpl. lia.
Qed.

Lemma nonincreasing_hd_ge (l : list nat) (x : nat) :
  nonincreasing l = true -> x ∈ l -> x <= hd 0 l.
Proof.
  intros Hsorted Hx. destruct l as [|a l]; [by apply elem_of_nil in Hx|]. simpl.
  apply elem_of_cons in Hx as [-> | Hx]; [done|].
  pose proof (nonincreasing_Forall a l Hsorted) as Hall.
  by eapply Forall_forall in Hall.
Qed.

(** Unpacking what was packed from padded sequences gives the padded
    sequences and their lengths back. *)
Lemma pad_packed_pad_rows {A : Type} (padding_value : A) (sequences : list (list A)) :
  nonincreasing (length <$> sequences) = true ->
  Forall (fun s => 0 < length s) sequences ->
  let lengths := length <$> sequences in
  let sizes := (fun t => count_gt t lengths) <$> seq 0 (hd 0 lengths) in
  pad_packed_sequence padding_value
    {| data := concat (zip_with take sizes (pad_rows padding_value sequences (hd 0 lengths)));
       batch_sizes := sizes |}
  = (pad_rows padding_value sequences (hd 0 lengths), lengths).
Proof.
  intros Hsorted Hpos lengths sizes.
  set (steps := hd 0 lengths).
  set (rows := pad_rows padding_value sequences steps).
  assert (Hpos' : Forall (fun l => 0 < l) lengths).
  { unfold lengths. by apply Forall_fmap. }
  assert (Hwidth : hd 0 sizes = length lengths \/ sizes = [] /\ sequences = []).
  { unfold sizes, steps. destruct sequences as [|s sequences]; [by right|]. left.
    apply Forall_cons in Hpos as [Hs _]. cbn [fmap list_fmap hd] in *.
    destruct (length s) as [|m] eqn:Hm; [lia|]. cbn [seq fmap list_fmap hd]. fold lengths.
    by apply count_gt_all. }
  destruct Hwidth as [Hwidth | [Hsizes ->]]; [|by rewrite Hsizes].
  unfold pad_packed_sequence. cbn [data batch_sizes]. rewrite Hwidth. f_equal.
  - rewrite (unpack_steps_concat _ _ sizes).
    2:{ apply (steps_lengths _ _ (length lengths)).
        - unfold rows, pad_rows. apply Forall_fmap, Forall_forall. intros t _. simpl.
          unfold lengths. by rewrite !length_fmap.
        - unfold sizes. apply Forall_fmap, Forall_forall. intros t _. apply count_gt_le.
        - unfold sizes, rows, pad_rows. by rewrite !length_fmap. }
    apply list_eq. intros t. rewrite list_lookup_fmap, lookup_zip_with.
    unfold sizes, rows, pad_rows, steps. rewrite !list_lookup_fmap.
    destruct (seq 0 (hd 0 lengths) !! t) as [t'|] eqn:Ht; [|done].
    cbn [fmap option_fmap option_map mbind option_bind].
    apply lookup_seq in Ht as [-> _]. cbn [plus]. f_equal.
    set (row := (fun s : list A => default padding_value (s !! t)) <$> sequences).
    assert (Hn : length lengths = length sequences) by (unfold lengths; by rewrite length_fmap).
    assert (Hb : count_gt t lengths <= length sequences).
    { rewrite <- Hn. apply count_gt_le. }
    assert (Htake : length (take (count_gt t lengths) row) = count_gt t lengths).
    { rewrite length_take. unfold row. rewrite length_fmap. lia. }
    rewrite Htake, Hn. apply list_eq. intros j.
    destruct (decide (j < count_gt t lengths)) as [Hj | Hj].
    + rewrite lookup_app_l by lia. by rewrite lookup_take_lt.
    + rewrite lookup_app_r by lia. rewrite Htake. unfold row.
      rewrite list_lookup_fmap.
      destruct (sequences !! j) as [s|] eqn:Hs.
      * rewrite lookup_replicate_2 by (apply lookup_lt_Some in Hs; lia).
        cbn [fmap option_fmap option_map]. f_equal.
        assert (Hl : lengths !! j = Some (length s)).
        { unfold lengths. by rewrite list_lookup_fmap, Hs. }
        pose proof (count_gt_sorted lengths j (length s) t Hsorted Hl) as Hiff.
        rewrite lookup_ge_None_2; [done|]. lia.
      * cbn [fmap option_fmap option_map]. apply lookup_replicate_None.
        apply lookup_ge_None_1 in Hs. lia.
  - apply list_eq. intros j. rewrite list_lookup_fmap.
    destruct (lengths !! j) as [l|] eqn:Hl.
    + rewrite lookup_seq_lt by (by eapply lookup_lt_Some). cbn [fmap option_fmap option_map plus].
      f_equal. unfold sizes. rewrite (count_gt_sizes lengths _ j l Hsorted Hl).
      rewrite length_filter_lt_seq.
      enough (l <= steps) by lia. unfold steps.
      apply nonincreasing_hd_ge; [done|]. by eapply list_elem_of_lookup_2.
    + rewrite lookup_seq_ge; [done|]. by apply lookup_ge_None_1.
Qed.

(** ** Option 1 and Option 2, to their ends *)

Section OptionsContinued.

Variable batch : Batch.
Hypothesis batch_nonempty : batch ≠ [].
Hypothesis inputs_nonempty : Forall (fun b => 0 < length b.1) batch.

(** A permutation of the positions that brings the lengths of the inputs
    in descending order. *)
Variable perm : list nat.
Hypothesis perm_Permutation : perm ≡ₚ seq 0 (length batch).
Hypothesis perm_Sorted : Sorted (fun a b => b <= a) (sorted_lens batch perm).

Lemma sorted_batch_Permutation : pair_at batch <$> perm ≡ₚ batch.
Proof.
  rewrite perm_Permutation. unfold pair_at. by rewrite fmap_seq_lookup.
Qed.

Lemma sorted_inputs_positive : Forall (fun s => 0 < length s) (sorted_inputs batch perm).
Proof.
  unfold sorted_inputs. apply Forall_fmap. rewrite sorted_batch_Permutation.
  eapply Forall_impl; [exact inputs_nonempty|]. done.
Qed.

Lemma sorted_inputs_nonincreasing :
  nonincreasing (length <$> sorted_inputs batch perm) = true.
Proof. rewrite sorted_lens_inputs. apply nonincreasing_Sorted, perm_Sorted. Qed.

Lemma sorted_inputs_hd : hd 0 (length <$> sorted_inputs batch perm) = longest batch.
Proof. rewrite sorted_lens_inputs. by apply sorted_lens_hd. Qed.

(** Unpacking what was packed. *)
Lemma unpack_sorted_inputs (packed : PackedSequence Z) :
  pack_padded_sequence (pad_rows 0%Z (sorted_inputs batch perm) (longest batch))
    (sorted_lens batch perm) = Ok packed ->
  pad_packed_sequence 0%Z packed
  = (pad_rows 0%Z (sorted_inputs batch perm) (longest batch), sorted_lens batch perm).
Proof.
  intros Hpacked.
  apply pack_padded_sequence_inv in Hpacked as (_ & _ & _ & ->).
  pose proof (pad_packed_pad_rows 0%Z (sorted_inputs batch perm)
                sorted_inputs_nonincreasing sorted_inputs_positive) as Hround.
  cbv zeta in Hround. rewrite sorted_inputs_hd, sorted_lens_inputs in Hround.
  rewrite sorted_lens_hd by done. by rewrite Hround.
Qed.

(** The sort of the framework, which returns [perm]. *)
Variable torch_sort : TensorSort.
Hypothesis torch_sort_sorts : sorts torch_sort.
Hypothesis torch_sort_perm :
  torch_sort (length <$> batch.*1) true = (sorted_lens batch perm, perm).

Lemma sorted_lens_index0 : index0 (sorted_lens batch perm) = Ok (longest batch).
Proof.
  pose proof (sorted_lens_hd batch perm perm_Permutation perm_Sorted) as Hhd.
  pose proof (sorted_lens_length batch perm perm_Permutation) as Hlen.
  destruct (sorted_lens batch perm); [destruct batch; [done | discriminate Hlen]|].
  simpl in *. by subst.
Qed.

(** [input_sorted] and [sorted_lengths]. *)
Lemma option1_sorted_rows :
  option1_sorted torch_sort batch
  = Ok (pad_rows 0%Z (sorted_inputs batch perm) (longest batch), sorted_lens batch perm).
Proof.
  unfold option1_sorted.
  assert (Hzip : zip_star batch = Ok (batch.*1, batch.*2)) by (by destruct batch).
  rewrite Hzip. cbn [bind].
  rewrite pad_sequence_rows by (by destruct batch). cbn [bind].
  rewrite torch_sort_perm, sorted_lens_index0. cbn [bind].
  rewrite gather1_pad_rows by (by apply perm_positions).
  cbn [bind]. by rewrite sorted_inputs_gather.
Qed.

(** The packed input, unpacked. *)
Lemma option1_unpacked_rows :
  option1_unpacked torch_sort batch
  = Ok (pad_rows 0%Z (sorted_inputs batch perm) (longest batch), sorted_lens batch perm).
Proof.
  unfold option1_unpacked.
  rewrite (option1_pack batch perm perm_Permutation perm_Sorted torch_sort torch_sort_perm)
    by done.
  destruct (pack_sorted_inputs batch perm perm_Permutation perm_Sorted
              batch_nonempty inputs_nonempty) as [packed Hpacked].
  rewrite Hpacked. cbn [bind]. by rewrite (unpack_sorted_inputs packed Hpacked).
Qed.

(** Reordering by the argsort of the sorting permutation undoes the
    reordering by the sorting permutation. *)
Lemma gather1_restore :
  gather1 (pad_rows 0%Z (sorted_inputs batch perm) (longest batch))
    (repeat_rows (longest batch) (torch_sort perm false).2)
  = Ok (pad_rows 0%Z batch.*1 (longest batch)).
Proof.
  assert (Hforward : Forall2 (fun row o => gather_row row perm = Ok o)
                       (pad_rows 0%Z batch.*1 (longest batch))
                       (pad_rows 0%Z (sorted_inputs batch perm) (longest batch))).
  { apply gather1_repeat_rows. rewrite <- sorted_inputs_gather.
    replace (length (pad_rows 0%Z batch.*1 (longest batch))) with (longest batch)
      by (unfold pad_rows; by rewrite length_fmap, length_seq).
    apply gather1_pad_rows. by apply perm_positions. }
  assert (Hlen : length (pad_rows 0%Z (sorted_inputs batch perm) (longest batch))
                 = longest batch).
  { unfold pad_rows. by rewrite length_fmap, length_seq. }
  rewrite <- Hlen at 2. apply gather1_repeat_rows.
  apply Forall2_same_length_lookup_2; [symmetry; by eapply Forall2_length|].
  intros t o row Ho Hrow.
  pose proof (Forall2_lookup_lr _ _ _ _ _ _ Hforward Hrow Ho) as Hgather.
  destruct (gather_row_argsort torch_sort row perm (length batch))
    as (sorted_row & Hsorted & Hback).
  - done.
  - unfold pad_rows in Hrow. rewrite list_lookup_fmap in Hrow.
    destruct (seq 0 (longest batch) !! t); [|done]. injection Hrow as <-.
    by rewrite !length_fmap.
  - done.
  - congruence.
Qed.

(** Option 1 seen to its end. *)
Lemma option1_restored_rows :
  option1_restored torch_sort batch = Ok (pad_rows 0%Z batch.*1 (longest batch)).
Proof.
  unfold option1_restored.
  assert (Hzip : zip_star batch = Ok (batch.*1, batch.*2)) by (by destruct batch).
  rewrite Hzip. cbn [bind]. rewrite torch_sort_perm, sorted_lens_index0. cbn [bind].
  pose proof option1_unpacked_rows as Hunpacked.
  unfold option1_unpacked in Hunpacked.
  destruct (option1 torch_sort batch) as [input_packed|e]; [|done]. cbn [bind] in *.
  assert (Hpair : pad_packed_sequence 0%Z input_packed
                  = (pad_rows 0%Z (sorted_inputs batch perm) (longest batch),
                     sorted_lens batch perm))
    by congruence.
  rewrite Hpair.
  pose proof gather1_restore as Hrestore.
  by destruct (torch_sort perm false) as [values orig_idx].
Qed.

End OptionsContinued.

(** X10.  Packing and unpacking is a round trip in Option 1, whatever the
    sort does with equal lengths: on a batch that holds sequences, none of
    them empty, [pad_packed_sequence] of the packed input returns the
    reordered padded tensor and the sorted lengths that were packed. *)
Theorem option1_round_trip (torch_sort : TensorSort) (batch : Batch) :
  sorts torch_sort ->
  batch ≠ [] ->
  Forall (fun b => 0 < length b.1) batch ->
  exists input_sorted sorted_lengths,
    option1_sorted torch_sort batch = Ok (input_sorted, sorted_lengths)
    /\ option1_unpacked torch_sort batch = Ok (input_sorted, sorted_lengths).
Proof.
  intros Hsorts Hne Hpos.
  destruct (torch_sort_lengths torch_sort batch Hsorts) as (perm & Hsort & Hperm & Hsorted).
  do 2 eexists.
  split; [by eapply option1_sorted_rows | by eapply option1_unpacked_rows].
Qed.

Lemma option1_round_trip_witness :
  exists input_sorted sorted_lengths,
    option1_sorted example_sort batch0 = Ok (input_sorted, sorted_lengths)
    /\ option1_unpacked example_sort batch0 = Ok (input_sorted, sorted_lengths).
Proof.
  apply (option1_round_trip example_sort batch0);
    [exact example_sort_sorts | done | repeat constructor].
Defined.

(** The unpacked tensor and the lengths the notebook prints. *)
Example option1_unpacked_batch0 :
  option1_unpacked example_sort batch0
  = Ok ([[2; 5; 1; 4; 3]; [2; 5; 1; 4; 3]; [2; 5; 1; 4; 0]; [2; 5; 0; 0; 0]; [2; 0; 0; 0; 0]]%Z,
        [5; 4; 3; 3; 2]).
Proof. reflexivity. Qed.

(** X11.  Option 1 gives the padded input back, whatever the sort does with
    equal lengths: on a batch that holds sequences, none of them empty,
    reordering the unpacked tensor by the argsort of the sorting permutation
    returns [input_orig], the padded tensor of the inputs in their original
    order. *)
Theorem option1_restores (torch_sort : TensorSort) (batch : Batch) :
  sorts torch_sort ->
  batch ≠ [] ->
  Forall (fun b => 0 < length b.1) batch ->
  exists input_orig,
    pad_sequence 0%Z batch.*1 = Ok input_orig
    /\ option1_restored torch_sort batch = Ok input_orig.
Proof.
  intros Hsorts Hne Hpos. exists (pad_rows 0%Z batch.*1 (longest batch)).
  split; [apply pad_sequence_rows; by destruct batch|].
  destruct (torch_sort_lengths torch_sort batch Hsorts) as (perm & Hsort & Hperm & Hsorted).
  by eapply option1_restored_rows.
Qed.

Lemma option1_restores_witness :
  exists input_orig,
    pad_sequence 0%Z batch0.*1 = Ok input_orig
    /\ option1_restored example_sort batch0 = Ok input_orig.
Proof.
  apply (option1_restores example_sort batch0);
    [exact example_sort_sorts | done | repeat constructor].
Defined.

(** With seventeen inputs of one length, which the sort reorders, Option 1
    still gives the padded input back. *)
Example option1_restored_batch17 :
  option1_restored example_sort batch17 = pad_sequence 0%Z batch17.*1.
Proof. vm_compute. reflexivity. Qed.

Lemma pad_rows_column (sequences : list (list Z)) (j steps : nat) (s : list Z) :
  sequences !! j = Some s ->
  length s <= steps ->
  column j (pad_rows 0%Z sequences steps) = s ++ replicate (steps - length s) 0%Z.
Proof.
  intros Hj Hlen. rewrite <- padded_sequence by done. unfold pad_rows.
  induction (seq 0 steps) as [|t ts IH]; [done|].
  rewrite !fmap_cons. rewrite (column_cons_Some j _ _ (default 0%Z (s !! t))).
  - by rewrite IH.
  - by rewrite list_lookup_fmap, Hj.
Qed.

(** X12.  Option 2 keeps inputs and targets aligned: on a batch that holds
    sequences, no input empty, sequence [k] of the unpacked input tensor and
    sequence [k] of the padded target tensor are the input and the target of
    one pair of the batch, each followed by its padding. *)
Theorem option2_alignment (batch : Batch) :
  batch ≠ [] ->
  Forall (fun b => 0 < length b.1) batch ->
  exists unpacked_input_presorted padded_target_presorted,
    option2_aligned batch = Ok (unpacked_input_presorted, padded_target_presorted)
    /\ forall k, k < length batch ->
         exists input target,
           (input, target) ∈ batch
           /\ column k unpacked_input_presorted
              = input ++ replicate (max_list (length <$> batch.*1) - length input) 0%Z
           /\ column k padded_target_presorted
              = target ++ replicate (max_list (length <$> batch.*2) - length target) 0%Z.
Proof.
  intros Hne Hpos.
  set (sorted_batch := pair_at batch <$> sort_perm batch).
  assert (Hperm : sorted_batch ≡ₚ batch)
    by apply sorted_batch_Permutation, sort_perm_Permutation.
  assert (Hsorted_ne : sorted_batch ≠ []).
  { intros Hnil. rewrite Hnil in Hperm. symmetry in Hperm.
    by apply Permutation_nil_r in Hperm. }
  exists (pad_rows 0%Z sorted_batch.*1 (max_list (length <$> batch.*1))),
         (pad_rows 0%Z sorted_batch.*2 (max_list (length <$> batch.*2))).
  split.
  - unfold option2_aligned. rewrite py_sorted_sort_perm. fold sorted_batch.
    assert (Hzip : zip_star sorted_batch = Ok (sorted_batch.*1, sorted_batch.*2))
      by (by destruct sorted_batch).
    rewrite Hzip. cbn [bind].
    rewrite !pad_sequence_rows by (by destruct sorted_batch). cbn [bind].
    assert (Hmax1 : max_list (length <$> sorted_batch.*1) = max_list (length <$> batch.*1))
      by (by rewrite Hperm).
    assert (Hmax2 : max_list (length <$> sorted_batch.*2) = max_list (length <$> batch.*2))
      by (by rewrite Hperm).
    rewrite Hmax1, Hmax2.
    change (sorted_batch.*1) with (sorted_inputs batch (sort_perm batch)).
    rewrite sorted_lens_inputs. fold (longest batch).
    destruct (pack_sorted_inputs batch (sort_perm batch) (sort_perm_Permutation batch)
                (sort_perm_Sorted batch) Hne Hpos) as [packed Hpacked].
    rewrite Hpacked. cbn [bind].
    by rewrite (unpack_sorted_inputs batch Hpos (sort_perm batch)
                  (sort_perm_Permutation batch) (sort_perm_Sorted batch) packed Hpacked).
  - intros k Hk.
    assert (Hk' : k < length sorted_batch) by (by rewrite Hperm).
    destruct (lookup_lt_is_Some_2 sorted_batch k Hk') as [[input target] Hpair].
    exists input, target. split; [|split].
    + rewrite <- Hperm. by eapply list_elem_of_lookup_2.
    + apply pad_rows_column; [by rewrite list_lookup_fmap, Hpair|].
      rewrite <- Hperm. apply max_list_elem_of_le, list_elem_of_lookup.
      exists k. by rewrite !list_lookup_fmap, Hpair.
    + apply pad_rows_column; [by rewrite list_lookup_fmap, Hpair|].
      rewrite <- Hperm. apply max_list_elem_of_le, list_elem_of_lookup.
      exists k. by rewrite !list_lookup_fmap, Hpair.
Qed.

Lemma option2_alignment_witness :
  exists unpacked_input_presorted padded_target_presorted,
    option2_aligned batch0 = Ok (unpacked_input_presorted, padded_target_presorted)
    /\ forall k, k < length batch0 ->
         exists input target,
           (input, target) ∈ batch0
           /\ column k unpacked_input_presorted
              = input ++ replicate (max_list (length <$> batch0.*1) - length input) 0%Z
           /\ column k padded_target_presorted
              = target ++ replicate (max_list (length <$> batch0.*2) - length target) 0%Z.
Proof.
  apply (option2_alignment batch0); [done | repeat constructor].
Defined.

(** The two tensors the notebook prints side by side. *)
Example option2_aligned_batch0 :
  option2_aligned batch0
  = Ok ([[2; 5; 1; 4; 3]; [2; 5; 1; 4; 3]; [2; 5; 1; 4; 0]; [2; 5; 0; 0; 0]; [2; 0; 0; 0; 0]]%Z,
        [[2; 5; 1; 4; 3]; [2; 5; 1; 4; 3]; [2; 5; 1; 4; 3]; [2; 5; 1; 0; 0]; [0; 5; 0; 0; 0]]%Z).
Proof. reflexivity. Qed.

(** ** The hidden states and the outputs of the notebook, continued *)

(** X13.  What the run on the padded tensor does to a sequence that is
    not empty: its last hidden state is the one of the run on the sequence
    alone, taken on through one step of the recurrence on the embedded
    padding index for every padded position.  For a sequence as long as the
    longest of the batch the two runs agree.  (On an empty sequence the run
    on the sequence alone raises: the network takes no input without a time
    step.) *)
Theorem hn_padded_runs_on {X H : Type} (embedding : Z -> X) (cell : H -> X -> H)
  (test_inputs : list (list Z)) (h : H) (j : nat) (seq_j : list Z) :
  test_inputs !! j = Some seq_j ->
  0 < length seq_j ->
  exists h_j hn,
    hn_state embedding cell test_inputs h j = Ok [h_j]
    /\ hn_padded embedding cell test_inputs h = Ok hn
    /\ hn !! j
       = Some (foldl cell h_j
                 (replicate (max_list (length <$> test_inputs) - length seq_j)
                    (embedding 0%Z)))
    /\ (length seq_j = max_list (length <$> test_inputs) -> hn !! j = Some h_j).
Proof.
  intros Hj Hseq. assert (Hne : test_inputs ≠ []) by (by destruct test_inputs).
  pose proof (seq_length_le test_inputs j seq_j Hj) as Hle.
  destruct (hn_padded_spec embedding cell test_inputs h Hne) as (hn & Hpadded & _ & Hn); [lia|].
  exists (foldl cell h (embedding <$> seq_j)), hn.
  split; [apply hn_state_spec; [done | intros ->; simpl in Hseq; lia]|].
  split; [done|]. split; [by apply Hn|].
  intros Hlong. rewrite (Hn j seq_j Hj), Hlong, Nat.sub_diag. done.
Qed.

Lemma hn_padded_runs_on_witness :
  exists h_j hn,
    hn_state (fun x => x) (relu_cell 1 0 1 1) test_inputs0 0%Z 2 = Ok [h_j]
    /\ hn_padded (fun x => x) (relu_cell 1 0 1 1) test_inputs0 0%Z = Ok hn
    /\ hn !! 2 = Some (foldl (relu_cell 1 0 1 1) h_j (replicate 2 0%Z)).
Proof.
  destruct (hn_padded_runs_on (fun x => x) (relu_cell 1 0 1 1) test_inputs0 0%Z 2 [3; 3; 3]%Z
              eq_refl ltac:(simpl; lia)) as (h_j & hn & Hstate & Hpadded & Hn & _).
  by exists h_j, hn.
Defined.

(** The run on a sequence without a step raises, and so does the run on a
    padded tensor without a time step. *)
Example hn_state_empty_sequence :
  hn_state (fun x => x) (relu_cell 1 0 1 1) [[1; 2]; []]%Z 0%Z 1 = Raise EmptySequence
  /\ hn_padded (fun x => x) (relu_cell 1 0 1 1) [[]; []]%Z 0%Z = Raise EmptySequence
  /\ class_of EmptySequence = RuntimeError.
Proof. repeat split. Qed.

Section OutputFacts.

Context {X H : Type}.
Variable cell : H -> X -> H.

Lemma length_states (h : H) (xs : list X) : length (states cell h xs) = length xs.
Proof. revert h. induction xs as [|x xs IH]; intros h; [done|]. simpl. by rewrite IH. Qed.

(** The output of the recurrence on one sequence alone: its states. *)
Lemma rnn_steps_single (xs : list X) (h : H) :
  (rnn_steps cell ((fun x => [x]) <$> xs) [h]).1 = (fun s => [s]) <$> states cell h xs.
Proof.
  revert h. induction xs as [|x xs IH]; intros h; [done|].
  rewrite fmap_cons. cbn [rnn_steps]. specialize (IH (cell h x)).
  change (zip_with cell [h] [x]) with [cell h x].
  destruct (rnn_steps cell ((fun x => [x]) <$> xs) [cell h x]) as [output h_n].
  simpl in *. by rewrite IH.
Qed.

Lemma select_column_Ok {A : Type} (x : list (list A)) (j : nat) :
  Forall (fun step => j < length step) x -> select_column x j = Ok (column j x).
Proof.
  unfold select_column.
  induction 1 as [|step x Hstep _ IH]; [done|].
  destruct (lookup_lt_is_Some_2 step j Hstep) as [a Ha].
  rewrite (column_cons_Some _ _ _ _ Ha). cbn [traverse]. by rewrite Ha, IH.
Qed.

Lemma column_short {A : Type} (j : nat) (steps : list (list A)) :
  Forall (fun step => length step <= j) steps -> column j steps = [].
Proof.
  induction 1 as [|step steps Hstep _ IH]; [done|].
  rewrite column_cons_None by (by apply lookup_ge_None_2). done.
Qed.

(** The output of the packed recurrence: one step of states per step of
    the data, the states a position goes through read down its column. *)
Lemma packed_loop_output (sizes : list nat) (steps : list (list X)) (last_batch_size : nat)
  (hidden : list H) (hiddens output : list (list H)) :
  Forall2 (fun b s => length s = b) sizes steps ->
  length hidden = last_batch_size ->
  nonincreasing (last_batch_size :: sizes) = true ->
  exists outs,
    (packed_loop cell sizes (concat steps) last_batch_size hidden hiddens output).2
    = output ++ outs
    /\ Forall2 (fun b o => length o = b) sizes outs
    /\ forall j h, hidden !! j = Some h -> column j outs = states cell h (column j steps).
Proof.
  intros Hsteps. revert last_batch_size hidden hiddens output.
  induction Hsteps as [|b s sizes steps Hs Hsteps IH];
    intros last_batch_size hidden hiddens output Hlen Hsorted; cbn [packed_loop concat].
  { exists []. by rewrite app_nil_r. }
  pose proof (nonincreasing_cons _ _ Hsorted) as [Hb Hsorted']. simpl in Hb.
  rewrite take_app_length' by done. rewrite drop_app_length' by done.
  set (dec := last_batch_size - b).
  set (hiddens1 := if (0 <? dec)%nat
                   then hiddens ++ [drop (length hidden - dec) hidden] else hiddens).
  set (hidden1 := if (0 <? dec)%nat then take (length hidden - dec) hidden else hidden).
  assert (Hhidden1 : hidden1 = take b hidden).
  { unfold hidden1. destruct (Nat.ltb_spec 0 dec).
    - f_equal. unfold dec. lia.
    - rewrite take_ge; [done|]. unfold dec in *. lia. }
  assert (Hzip : length (zip_with cell hidden1 s) = b).
  { rewrite length_zip_with, Hhidden1, length_take. lia. }
  destruct (IH b (zip_with cell hidden1 s) hiddens1 (output ++ [zip_with cell hidden1 s])
              Hzip Hsorted') as (outs & Hout & Hlens & Hcols).
  exists (zip_with cell hidden1 s :: outs).
  split; [by rewrite Hout, <- app_assoc|]. split; [by constructor|].
  intros j h Hj. destruct (decide (j < b)) as [Hjb | Hjb].
  - destruct (lookup_lt_is_Some_2 s j) as [x Hx]; [lia|].
    assert (Hnew : zip_with cell hidden1 s !! j = Some (cell h x)).
    { by rewrite lookup_zip_with, Hhidden1, lookup_take_lt, Hj, Hx. }
    rewrite (column_cons_Some _ _ _ _ Hx), (column_cons_Some _ _ _ _ Hnew).
    cbn [states]. f_equal. by apply Hcols.
  - rewrite (column_cons_None j s) by (apply lookup_ge_None_2; lia).
    rewrite (column_cons_None j (zip_with cell hidden1 s)) by (apply lookup_ge_None_2; lia).
    pose proof (nonincreasing_Forall _ _ Hsorted') as Hle.
    rewrite !column_short; [done | |].
    + clear -Hsteps Hle Hjb. induction Hsteps as [|???? Hl _ IH']; [constructor|].
      apply Forall_cons in Hle as [? ?]. constructor; [lia | by apply IH'].
    + clear -Hlens Hle Hjb. induction Hlens as [|???? Hl _ IH']; [constructor|].
      apply Forall_cons in Hle as [? ?]. constructor; [lia | by apply IH'].
Qed.

(** Sequence [j] of an unpacked output: what the steps hold for it, then
    the padding. *)
Lemma column_unpacked (zero : H) (width j : nat) (sizes : list nat) (outs : list (list H)) :
  Forall2 (fun b o => length o = b) sizes outs ->
  nonincreasing sizes = true ->
  Forall (fun b => b <= width) sizes ->
  j < width ->
  column j ((fun s => s ++ replicate (width - length s) zero) <$> outs)
  = column j outs ++ replicate (length outs - length (column j outs)) zero.
Proof.
  intros Hlens Hsorted Hwidth Hj.
  induction Hlens as [|b o sizes outs Ho Hlens IH]; [done|].
  apply Forall_cons in Hwidth as [Hb Hwidth].
  pose proof (nonincreasing_cons _ _ Hsorted) as [_ Hsorted'].
  rewrite fmap_cons. destruct (decide (j < b)) as [Hjb | Hjb].
  - destruct (lookup_lt_is_Some_2 o j) as [x Hx]; [lia|].
    rewrite (column_cons_Some j (o ++ _) _ x) by (by rewrite lookup_app_l by lia).
    rewrite (column_cons_Some j o _ x) by done.
    rewrite IH by done. done.
  - rewrite (column_cons_Some j (o ++ _) _ zero).
    2:{ rewrite lookup_app_r by lia. apply lookup_replicate_2. lia. }
    rewrite (column_cons_None j o) by (apply lookup_ge_None_2; lia).
    pose proof (nonincreasing_Forall _ _ Hsorted) as Hle.
    assert (Hshort : Forall (fun step : list H => length step <= j) outs).
    { clear -Hlens Hle Hjb. induction Hlens as [|???? Hl _ IH']; [constructor|].
      apply Forall_cons in Hle as [? ?]. constructor; [lia | by apply IH']. }
    rewrite IH by done. rewrite !column_short by done. simpl.
    by rewrite !Nat.sub_0_r.
Qed.

End OutputFacts.

Section PackedOutputs.

Context {X H : Type}.
Variable cell : H -> X -> H.

(** The packed output of the network on a packed batch. *)
Lemma rnn_packed_output (input : list (list X)) (lengths : list nat)
  (packed : PackedSequence X) (h_0 : list H) :
  Forall (fun step_input => length step_input = length lengths) input ->
  pack_padded_sequence input lengths = Ok packed ->
  length h_0 = length lengths ->
  exists outs h_n,
    rnn_packed cell packed h_0
    = Ok ({| data := concat outs; batch_sizes := batch_sizes packed |}, h_n)
    /\ Forall2 (fun b o => length o = b) (batch_sizes packed) outs
    /\ forall j h l, h_0 !! j = Some h -> lengths !! j = Some l ->
         column j outs = states cell h (take l (column j input)).
Proof.
  intros Hin Hpack Hh0.
  apply pack_padded_sequence_inv in Hpack as (Hsorted & Hpos & [Hhd Hsteps] & ->).
  set (sizes := (fun t => count_gt t lengths) <$> seq 0 (hd 0 lengths)).
  assert (Hsize0 : hd 0 sizes = length lengths).
  { unfold sizes. destruct (hd 0 lengths) as [|m]; [lia|]. simpl.
    by apply count_gt_all. }
  unfold rnn_packed. cbn [batch_sizes data]. fold sizes.
  rewrite Hsize0, Hh0, Nat.eqb_refl.
  destruct (packed_loop_output cell sizes (zip_with take sizes input)
              (length lengths) h_0 [] []) as (outs & Hout & Hlens & Hcols).
  { apply (steps_lengths _ _ (length lengths)); [done | |].
    - unfold sizes. apply Forall_fmap, Forall_forall. intros t _. apply count_gt_le.
    - unfold sizes. by rewrite length_fmap, length_seq. }
  { done. }
  { rewrite <- Hsize0. apply nonincreasing_hd, nonincreasing_count_gt. }
  destruct (packed_loop cell sizes (concat (zip_with take sizes input))
              (length lengths) h_0 [] []) as [[hiddens hidden] output].
  simpl in Hout. subst output.
  exists outs, (concat (rev (hiddens ++ [hidden]))). split; [done|]. split; [done|].
  intros j h l Hj Hl. rewrite (Hcols j h Hj). f_equal. unfold sizes.
  replace (take l (column j input)) with (take (l - 0) (column j input))
    by (by rewrite Nat.sub_0_r).
  apply (column_packed_steps input lengths j l 0 (hd 0 lengths)); [done | done | |].
  - eapply Forall_impl; [exact Hin|]. simpl. intros step ->. by eapply lookup_lt_Some.
  - simpl. by apply nonincreasing_hd_ge, list_elem_of_lookup_2 with j.
Qed.

End PackedOutputs.

(** X14.  The outputs of the packed run match the ones of the runs on the
    sequences alone: in a batch of non-empty sequences in decreasing order
    of length, sequence [j] of the unpacked output holds the states the
    recurrence takes sequence [j] through, which are the output of the run
    on sequence [j] alone, followed by the zero padding up to the longest
    length.  The padding is ignored. *)
Theorem packed_outputs_match {X H : Type} (embedding : Z -> X) (cell : H -> X -> H)
  (zero : H) (test_inputs : list (list Z)) (h : H) (j : nat) (seq_j : list Z) :
  Forall (fun s => 0 < length s) test_inputs ->
  nonincreasing (length <$> test_inputs) = true ->
  test_inputs !! j = Some seq_j ->
  outputs_single embedding cell test_inputs h j = Ok (states cell h (embedding <$> seq_j))
  /\ output_unpacked embedding cell zero test_inputs h j
     = Ok (states cell h (embedding <$> seq_j)
           ++ replicate (max_list (length <$> test_inputs) - length seq_j) zero).
Proof.
  intros Hpos Hsorted Hj.
  assert (Hne : test_inputs ≠ []) by (by destruct test_inputs).
  assert (Hjlt : j < length test_inputs) by (by eapply lookup_lt_Some).
  assert (Hh0 : index0 (replicate (length test_inputs) h) = Ok h) by (by destruct test_inputs).
  assert (Hlj : (length <$> test_inputs) !! j = Some (length seq_j))
    by (by rewrite list_lookup_fmap, Hj).
  assert (Hcol : take (length seq_j) (column j (embedded_rows embedding test_inputs))
                 = embedding <$> seq_j).
  { rewrite (embedded_rows_column embedding test_inputs j seq_j Hj).
    rewrite take_app_length'; [done|]. by rewrite length_fmap. }
  split.
  - unfold outputs_single. rewrite embed_padded_rows by done. cbn [bind].
    rewrite Hh0. cbn [bind]. unfold rnn_single. rewrite Hlj. cbn [bind].
    rewrite select_sequence_column.
    2:{ eapply Forall_impl; [apply embedded_rows_width|]. simpl. by intros step ->. }
    cbn [bind]. rewrite <- fmap_take, Hcol.
    rewrite rnn_padded_Ok.
    2:{ eapply Forall_lookup_1 in Hpos; [|done]. destruct seq_j; [simpl in Hpos; lia | done]. }
    2:{ apply Forall_fmap, Forall_forall. by intros x _. }
    cbn [bind].
    pose proof (rnn_steps_single cell (embedding <$> seq_j) h) as Hout.
    destruct (rnn_steps cell ((fun x => [x]) <$> (embedding <$> seq_j)) [h]) as [out_j h_t_j].
    simpl in Hout. subst out_j. rewrite select_column_Ok.
    + by rewrite column_singletons.
    + apply Forall_fmap, Forall_forall. intros s _. simpl. lia.
  - unfold output_unpacked. rewrite embed_padded_rows by done. cbn [bind].
    assert (Hhd : hd 0 (length <$> test_inputs) = max_list (length <$> test_inputs)).
    { symmetry. by apply max_list_sorted_desc, Sorted_nonincreasing. }
    assert (Hlast : exists l, last (length <$> test_inputs) = Some l /\ 0 < l).
    { destruct (last (length <$> test_inputs)) as [l|] eqn:Hl.
      - exists l. split; [done|]. apply last_Some in Hl as [ls Hls].
        assert (Hin : l ∈ length <$> test_inputs).
        { rewrite Hls. apply elem_of_app. right. by left. }
        apply list_elem_of_fmap in Hin as (s & -> & Hs).
        by eapply Forall_forall in Hpos.
      - apply last_None, fmap_nil_inv in Hl. done. }
    destruct Hlast as (l & Hlast & Hl).
    assert (Hlong : 0 < max_list (length <$> test_inputs)).
    { rewrite <- Hhd. destruct Hpos; [done | simpl; lia]. }
    assert (Hrow : exists row, head (embedded_rows embedding test_inputs) = Some row
                               /\ length (length <$> test_inputs) = length row).
    { pose proof (embedded_rows_width embedding test_inputs) as Hw.
      pose proof (embedded_rows_length embedding test_inputs) as Hlen.
      destruct (embedded_rows embedding test_inputs) as [|row rows]; [simpl in Hlen; lia|].
      exists row. split; [done|]. apply Forall_cons in Hw as [-> _]. by rewrite length_fmap. }
    destruct Hrow as (row & Hrow & Hwidth).
    assert (Hle : hd 0 (length <$> test_inputs)
                  <= length (embedded_rows embedding test_inputs)).
    { by rewrite Hhd, embedded_rows_length. }
    pose proof (pack_padded_sequence_Ok _ _ row l Hrow Hlast Hwidth Hl Hsorted Hle) as Hpack.
    rewrite Hpack. cbn [bind].
    assert (Hin : Forall (fun step_input : list X =>
                            length step_input = length (length <$> test_inputs))
                    (embedded_rows embedding test_inputs)).
    { rewrite length_fmap. apply embedded_rows_width. }
    assert (Hlen0 : length (replicate (length test_inputs) h)
                    = length (length <$> test_inputs)).
    { by rewrite length_replicate, length_fmap. }
    destruct (rnn_packed_output cell (embedded_rows embedding test_inputs)
                (length <$> test_inputs) _ (replicate (length test_inputs) h) Hin Hpack Hlen0)
      as (outs & h_n & Hrun & Hlens & Hcols).
    rewrite Hrun. cbn [bind batch_sizes].
    set (sizes := (fun t => count_gt t (length <$> test_inputs))
                    <$> seq 0 (hd 0 (length <$> test_inputs))) in *.
    change (Forall2 (fun b (o : list H) => length o = b) sizes outs) in Hlens.
    assert (Hsize0 : hd 0 sizes = length test_inputs).
    { unfold sizes. destruct (hd 0 (length <$> test_inputs)) as [|m]; [lia|]. simpl.
      rewrite count_gt_all; [by rewrite length_fmap|].
      apply Forall_fmap. eapply Forall_impl; [exact Hpos|]. simpl. lia. }
    unfold pad_packed_sequence. cbn [batch_sizes data].
    rewrite unpack_steps_concat by done. rewrite Hsize0.
    assert (Hbound : Forall (fun b => b <= length test_inputs) sizes).
    { unfold sizes. apply Forall_fmap, Forall_forall. intros t _. simpl.
      etrans; [apply count_gt_le|]. by rewrite length_fmap. }
    rewrite select_column_Ok.
    2:{ apply Forall_fmap. clearbody sizes. clear -Hlens Hbound Hjlt.
        induction Hlens as [|b o ?? Ho _ IH]; [constructor|].
        apply Forall_cons in Hbound as [? ?]. constructor; [|by apply IH].
        simpl. rewrite length_app, length_replicate. lia. }
    rewrite (column_unpacked zero (length test_inputs) j sizes outs Hlens); [| |done|done].
    2:{ apply nonincreasing_count_gt. }
    rewrite (Hcols j h (length seq_j)); [|by apply lookup_replicate_2|done].
    rewrite Hcol, length_states, length_fmap.
    assert (Hsteps : length outs = max_list (length <$> test_inputs)); [|by rewrite Hsteps].
    apply Forall2_length in Hlens. rewrite <- Hlens. unfold sizes.
    by rewrite length_fmap, length_seq.
Qed.

Lemma packed_outputs_match_witness :
  outputs_single (fun x => x) (relu_cell 1 0 1 1) test_inputs0 0%Z 3 = Ok [5; 10]%Z
  /\ output_unpacked (fun x => x) (relu_cell 1 0 1 1) 0%Z test_inputs0 0%Z 3
     = Ok [5; 10; 0; 0; 0]%Z.
Proof.
  apply (packed_outputs_match (fun x => x) (relu_cell 1 0 1 1) 0%Z test_inputs0 0%Z 3 [4; 4]%Z);
    [repeat constructor | reflexivity | reflexivity].
Defined.

Section PaddedOutputs.

Context {X H : Type}.
Variable cell : H -> X -> H.

Lemma states_app (h : H) (xs ys : list X) :
  states cell h (xs ++ ys) = states cell h xs ++ states cell (foldl cell h xs) ys.
Proof.
  revert h. induction xs as [|x xs IH]; intros h; [done|]. simpl. by rewrite IH.
Qed.

(** The output of the padded recurrence: every step as wide as the batch,
    the states a position goes through read down its column. *)
Lemma rnn_steps_output (input : list (list X)) (hidden : list H) :
  Forall (fun step_input => length step_input = length hidden) input ->
  Forall (fun step_output => length step_output = length hidden)
    (rnn_steps cell input hidden).1
  /\ forall j h, hidden !! j = Some h ->
       column j (rnn_steps cell input hidden).1 = states cell h (column j input).
Proof.
  intros Hin. revert hidden Hin.
  induction input as [|s input IH]; intros hidden Hin; [by split|].
  cbn [rnn_steps]. apply Forall_cons in Hin as [Hs Hin].
  specialize (IH (zip_with cell hidden s)).
  assert (Hzip : length (zip_with cell hidden s) = length hidden).
  { rewrite length_zip_with. lia. }
  destruct (rnn_steps cell input (zip_with cell hidden s)) as [output h_n].
  cbn [fst] in *. destruct IH as [Hwidth Hcols]; [by rewrite Hzip|].
  split.
  { constructor; [done|]. by rewrite <- Hzip. }
  intros j h Hj.
  destruct (lookup_lt_is_Some_2 s j) as [x Hx].
  { rewrite Hs. by eapply lookup_lt_Some. }
  assert (Hnew : zip_with cell hidden s !! j = Some (cell h x)).
  { by rewrite lookup_zip_with, Hj, Hx. }
  rewrite (column_cons_Some _ _ _ _ Hx), (column_cons_Some _ _ _ _ Hnew).
  cbn [states]. f_equal. by apply Hcols.
Qed.

End PaddedOutputs.

(** X17.  The output of the run on the padded tensor, the one the notebook
    prints beside the packed one, for a batch whose padded tensor has a time
    step: sequence [j] of it holds the states the recurrence takes sequence
    [j] through, as the unpacked output of the packed run does, and then,
    where that one holds zeros, the states of the steps on the embedded
    padding index. *)
Theorem padded_outputs_run_on {X H : Type} (embedding : Z -> X) (cell : H -> X -> H)
  (test_inputs : list (list Z)) (h : H) (j : nat) (seq_j : list Z) :
  test_inputs !! j = Some seq_j ->
  0 < max_list (length <$> test_inputs) ->
  output_padded embedding cell test_inputs h j
  = Ok (states cell h (embedding <$> seq_j)
        ++ states cell (foldl cell h (embedding <$> seq_j))
             (replicate (max_list (length <$> test_inputs) - length seq_j)
                (embedding 0%Z))).
Proof.
  intros Hj Hlong. assert (Hne : test_inputs ≠ []) by (by destruct test_inputs).
  assert (Hjlt : j < length test_inputs) by (by eapply lookup_lt_Some).
  unfold output_padded. rewrite embed_padded_rows by done. cbn [bind].
  assert (Hwidth : Forall (fun step_input : list X =>
                             length step_input = length (replicate (length test_inputs) h))
                     (embedded_rows embedding test_inputs)).
  { rewrite length_replicate. apply embedded_rows_width. }
  rewrite rnn_padded_Ok; [|apply embedded_rows_steps; lia|done].
  pose proof (rnn_steps_output cell (embedded_rows embedding test_inputs) _ Hwidth)
    as [Hout Hcols].
  destruct (rnn_steps cell (embedded_rows embedding test_inputs)
              (replicate (length test_inputs) h)) as [output h_n].
  cbn [bind fst] in *. rewrite select_column_Ok.
  2:{ eapply Forall_impl; [exact Hout|]. simpl. intros step ->.
      by rewrite length_replicate. }
  rewrite (Hcols j h) by (by apply lookup_replicate_2).
  by rewrite (embedded_rows_column embedding test_inputs j seq_j Hj), states_app.
Qed.

Lemma padded_outputs_run_on_witness :
  output_padded (fun x => x) (relu_cell 1 0 1 1) test_inputs0 0%Z 3 = Ok [5; 10; 11; 12; 13]%Z.
Proof.
  apply (padded_outputs_run_on (fun x => x) (relu_cell 1 0 1 1) test_inputs0 0%Z 3 [4; 4]%Z).
  - reflexivity.
  - simpl. lia.
Defined.

(** ** [train] *)

Lemma mod_thousand (q r : nat) : r < 1000 -> (1000 * q + r) mod 1000 = r.
Proof. intros Hr. symmetry. apply (Nat.mod_unique _ _ q); [done | lia]. Qed.

Lemma div_thousand (n : nat) : (1000 + n) / 1000 = S (n / 1000).
Proof.
  pose proof (Nat.div_add_l 1 1000 n) as Hdiv.
  rewrite Nat.mul_1_l in Hdiv. rewrite Hdiv by lia. done.
Qed.

Section TrainFacts.

Context {State Images Labels Output Loss F : Type}.

Variable zero_grad : State -> State.
Variable model : State -> Images -> result (State * Output).
Variable loss_function : Output -> Labels -> result Loss.
Variable backward : State -> Loss -> result State.
Variable step : State -> result State.
Variable item : Loss -> F.
Variable fzero : F.
Variable fadd : F -> F -> F.
Variable fdiv : F -> nat -> F.

Local Abbreviation train_batch' := (train_batch zero_grad model loss_function backward step item).
Local Abbreviation train_loop' :=
  (train_loop zero_grad model loss_function backward step item fzero fadd fdiv).
Local Abbreviation train_epochs' :=
  (train_epochs zero_grad model loss_function backward step item fzero fadd fdiv).
Local Abbreviation train' :=
  (train zero_grad model loss_function backward step item fzero fadd fdiv).
Local Abbreviation run_batches' := (run_batches zero_grad model loss_function backward step item).
Local Abbreviation run_epochs' := (run_epochs zero_grad model loss_function backward step item).
Local Abbreviation progress_lines' := (progress_lines fzero fadd fdiv).
Local Abbreviation epoch_lines' := (epoch_lines fzero fadd fdiv).

(** The loop in the middle of an epoch: [pending] are the losses summed
    since the last progress line, [q] the progress lines so far. *)
Lemma train_loop_lines (batches : list (Images * Labels)) (st st' : State)
  (losses pending : list F) (q : nat) :
  run_batches' st batches = Ok (st', losses) ->
  length pending < 1000 ->
  train_loop' st batches (1000 * q + length pending) (foldl fadd fzero pending)
  = ((fun k => Progress (1000 * (q + k + 1))
                 (fdiv (foldl fadd fzero (take 1000 (drop (1000 * k) (pending ++ losses))))
                    1000))
       <$> seq 0 (length (pending ++ losses) / 1000),
     Ok st').
Proof.
  revert st losses pending q.
  induction batches as [|batch batches IH]; intros st losses pending q Hrun Hpending.
  { injection Hrun as <- <-. rewrite app_nil_r, Nat.div_small by done. done. }
  cbn [run_batches] in Hrun. cbn [train_loop].
  destruct (train_batch' st batch) as [[st1 loss]|e]; [|done]. cbn [bind] in Hrun.
  destruct (run_batches' st1 batches) as [[st2 losses']|e] eqn:Hrest; [|done].
  injection Hrun as -> <-.
  destruct (decide (length pending + 1 < 1000)) as [Hlt | Hge].
  - rewrite <- Nat.add_assoc, mod_thousand by done.
    destruct (Nat.eqb_spec (length pending + 1) 0) as [Hzero|_]; [lia|].
    specialize (IH st1 losses' (pending ++ [loss]) q Hrest).
    rewrite length_app, foldl_app, <- app_assoc in IH. cbn [length foldl app] in IH.
    replace (S (1000 * q + length pending)) with (1000 * q + (length pending + 1)) by lia.
    apply IH. lia.
  - assert (Hfull : length pending + 1 = 1000) by lia.
    replace (1000 * q + length pending + 1) with (1000 * (q + 1) + 0) at 1 by lia.
    rewrite mod_thousand by lia. cbn [Nat.eqb].
    specialize (IH st1 losses' [] (q + 1) Hrest).
    cbn [length foldl app] in IH.
    replace (S (1000 * q + length pending)) with (1000 * (q + 1) + 0) by lia.
    rewrite IH by lia.
    assert (Hsplit : pending ++ loss :: losses' = (pending ++ [loss]) ++ losses')
      by (by rewrite <- app_assoc).
    assert (Hlen : length (pending ++ [loss]) = 1000)
      by (by rewrite length_app).
    rewrite Hsplit. rewrite (length_app (pending ++ [loss])), Hlen, div_thousand.
    cbn [seq]. rewrite fmap_cons, <- fmap_S_seq, <- list_fmap_compose.
    f_equal. f_equal.
    + f_equal; [lia|]. f_equal.
      rewrite Nat.mul_0_r, drop_0, take_app_length' by done.
      by rewrite foldl_app.
    + apply list_fmap_ext. intros _ k _. cbn [compose]. f_equal; [lia|].
      do 3 f_equal. replace (1000 * S k) with (1000 + 1000 * k) by lia.
      symmetry. by apply drop_app_add'.
Qed.

(** One epoch from its start. *)
Lemma train_loop_epoch (batches : list (Images * Labels)) (st st' : State) (losses : list F) :
  run_batches' st batches = Ok (st', losses) ->
  train_loop' st batches 0 fzero = (progress_lines' losses, Ok st').
Proof.
  intros Hrun.
  pose proof (train_loop_lines batches st st' losses [] 0 Hrun) as Hlines.
  cbn [length foldl app] in Hlines.
  replace (1000 * 0 + 0) with 0 in Hlines by lia. rewrite Hlines by lia. done.
Qed.

Lemma train_epochs_lines (training_data : nat -> list (Images * Labels))
  (remaining epoch : nat) (st st' : State) (losses : list (list F)) :
  run_epochs' st training_data epoch remaining = Ok (st', losses) ->
  train_epochs' st training_data epoch remaining
  = (concat (imap (fun i => epoch_lines' (epoch + i)) losses), Ok st').
Proof.
  revert epoch st losses.
  induction remaining as [|remaining IH]; intros epoch st losses Hrun.
  { by injection Hrun as <- <-. }
  cbn [run_epochs] in Hrun. cbn [train_epochs].
  destruct (run_batches' st (training_data epoch)) as [[st1 losses1]|e] eqn:Hepoch; [|done].
  cbn [bind] in Hrun.
  destruct (run_epochs' st1 training_data (S epoch) remaining) as [[st2 rest]|e] eqn:Hrest;
    [|done].
  injection Hrun as -> <-.
  rewrite (train_loop_epoch _ _ _ _ Hepoch), (IH _ _ _ Hrest).
  rewrite imap_cons. cbn [concat]. unfold epoch_lines at 2.
  rewrite Nat.add_0_r. cbn [app]. do 4 f_equal.
  apply imap_ext. intros i ls _. cbn [compose]. f_equal. lia.
Qed.

(** The loops print no closing line. *)
Lemma train_loop_unfinished (batches : list (Images * Labels)) (st : State)
  (batch_idx : nat) (total_loss : F) :
  Finished ∉ (train_loop' st batches batch_idx total_loss).1.
Proof.
  revert st batch_idx total_loss.
  induction batches as [|batch batches IH]; intros st batch_idx total_loss;
    cbn [train_loop]; [apply not_elem_of_nil|].
  destruct (train_batch' st batch) as [[st1 loss]|e]; [|apply not_elem_of_nil].
  destruct ((batch_idx + 1) mod 1000 =? 0)%nat; [|apply IH].
  specialize (IH st1 (S batch_idx) fzero).
  destruct (train_loop' st1 batches (S batch_idx) fzero) as [lines r]. simpl in *.
  by apply not_elem_of_cons.
Qed.

Lemma train_epochs_unfinished (training_data : nat -> list (Images * Labels))
  (remaining epoch : nat) (st : State) :
  Finished ∉ (train_epochs' st training_data epoch remaining).1.
Proof.
  revert epoch st.
  induction remaining as [|remaining IH]; intros epoch st;
    cbn [train_epochs]; [apply not_elem_of_nil|].
  pose proof (train_loop_unfinished (training_data epoch) st 0 fzero) as Hloop.
  destruct (train_loop' st (training_data epoch) 0 fzero) as [lines [st1|e]]; simpl in Hloop.
  - specialize (IH (S epoch) st1).
    destruct (train_epochs' st1 training_data (S epoch) remaining) as [lines' r].
    simpl in *. apply not_elem_of_cons. split; [done|].
    rewrite elem_of_app. tauto.
  - simpl. by apply not_elem_of_cons.
Qed.

End TrainFacts.

(** X15.  What [train] prints when no batch raises: for every epoch its
    heading and then one progress line after every thousandth batch,
    carrying the number of batches so far and the sum of the losses of the
    last thousand batches over a thousand, and in the end the closing line.
    The sum starts from zero in every epoch and after every progress line,
    so the losses of the batches after the last full thousand of an epoch
    are reported nowhere.  The state left is the one the batches of all
    epochs leave, one after the other. *)
Theorem train_lines {State Images Labels Output Loss F : Type}
  (zero_grad : State -> State) (model : State -> Images -> result (State * Output))
  (loss_function : Output -> Labels -> result Loss) (backward : State -> Loss -> result State)
  (step : State -> result State) (item : Loss -> F)
  (fzero : F) (fadd : F -> F -> F) (fdiv : F -> nat -> F)
  (training_data : nat -> list (Images * Labels)) (num_epochs : nat)
  (st st' : State) (losses : list (list F)) :
  run_epochs zero_grad model loss_function backward step item st training_data 0 num_epochs
  = Ok (st', losses) ->
  train zero_grad model loss_function backward step item fzero fadd fdiv
    st training_data num_epochs
  = (concat (imap (epoch_lines fzero fadd fdiv) losses) ++ [Finished], Ok st').
Proof.
  intros Hrun. unfold train.
  rewrite (train_epochs_lines _ _ _ _ _ _ _ _ _ _ _ _ _ _ _ Hrun). done.
Qed.

Lemma train_lines_witness :
  train (fun st : nat => st) (fun st images => Ok (st, images))
    (fun output labels => Ok (output - labels)%Z) (fun st loss => Ok st)
    (fun st => Ok (S st)) (fun loss : Z => loss)
    0%Z Z.add (fun x n => (x / Z.of_nat n)%Z)
    0 (fun epoch => replicate 1001 (Z.of_nat epoch + 5, 2)%Z) 2
  = ([Epoch 1; Progress 1000 3%Z; Epoch 2; Progress 1000 4%Z; Finished], Ok 2002).
Proof.
  exact (train_lines (fun st : nat => st) (fun st images => Ok (st, images))
           (fun output labels => Ok (output - labels)%Z) (fun st loss => Ok st)
           (fun st => Ok (S st)) (fun loss : Z => loss)
           0%Z Z.add (fun x n => (x / Z.of_nat n)%Z)
           (fun epoch => replicate 1001 (Z.of_nat epoch + 5, 2)%Z) 2
           0 2002 [replicate 1001 3%Z; replicate 1001 4%Z]
           ltac:(vm_compute; reflexivity)).
Defined.

(** X16.  [train] prints the closing line when, and only when, no batch
    raises: if it returns, the closing line is the last one printed, and
    if a call raises, the exception leaves [train] and no closing line has
    been printed. *)
Theorem train_finished {State Images Labels Output Loss F : Type}
  (zero_grad : State -> State) (model : State -> Images -> result (State * Output))
  (loss_function : Output -> Labels -> result Loss) (backward : State -> Loss -> result State)
  (step : State -> result State) (item : Loss -> F)
  (fzero : F) (fadd : F -> F -> F) (fdiv : F -> nat -> F)
  (training_data : nat -> list (Images * Labels)) (num_epochs : nat) (st : State) :
  match train zero_grad model loss_function backward step item fzero fadd fdiv
          st training_data num_epochs with
  | (lines, Ok _) => last lines = Some Finished
  | (lines, Raise _) => Finished ∉ lines
  end.
Proof.
  unfold train.
  pose proof (train_epochs_unfinished zero_grad model loss_function backward step item
                fzero fadd fdiv training_data num_epochs 0 st) as Hloop.
  destruct (train_epochs zero_grad model loss_function backward step item fzero fadd fdiv
              st training_data 0 num_epochs) as [lines [st'|e]]; simpl in Hloop.
  - apply last_snoc.
  - done.
Qed.

(** A forward pass that raises in the second batch: the heading of the
    first epoch is all that has been printed. *)
Example train_raises :
  train (fun st : nat => st)
    (fun st images => if (images =? 0)%Z then Raise ShapeError else Ok (st, images))
    (fun output labels => Ok (output - labels)%Z) (fun st loss => Ok st)
    (fun st => Ok (S st)) (fun loss : Z => loss)
    0%Z Z.add (fun x n => (x / Z.of_nat n)%Z)
    0 (fun _ => [(5, 2); (0, 2); (5, 2)]%Z) 3
  = ([Epoch 1], Raise ShapeError).
Proof. reflexivity. Qed.
